(** * The eBPF assembler of felix/bpf/asm (asm.go)

    A shallow embedding of the instruction encoding ([MakeInsn] and the
    [Insn] accessors) and of the [Block] builder: labels, fix-ups, the
    reachability filter, trampoline injection and [Assemble].

    Conventions of the embedding.
    - Go integers are [Z]; a conversion such as [uint8(x)] is written out as
      the wrap-around it performs.  Indices into [b.insns] and the
      trampoline counters are lengths, hence [nat].
    - [[8]uint8] is a vector of eight [Z].
    - Go maps are [gmap], the label set is a [gset].  The order in which
      [range] walks a map is unspecified in Go; every function that ranges
      over [b.fixUps] takes that order as an argument of type [MapOrder].
    - A builder method runs in the [option] monad: [None] is a run-time
      panic (the candidates are the slice index in [applyFixUps] and the
      [make] of [ReserveInstructionCapacity]).
    - Logging has no effect on the block and is left out. *)

From Stdlib Require Import ZArith Lia.
From stdpp Require Import gmap strings list sorting pretty vector.

Local Open Scope Z_scope.

(** ** Integer conversions *)

Definition uint8 (z : Z) : Z := z mod 2 ^ 8.
Definition uint16 (z : Z) : Z := z mod 2 ^ 16.
Definition uint32 (z : Z) : Z := z mod 2 ^ 32.
Definition int16 (z : Z) : Z := (z + 2 ^ 15) mod 2 ^ 16 - 2 ^ 15.
Definition int32 (z : Z) : Z := (z + 2 ^ 31) mod 2 ^ 32 - 2 ^ 31.
(** Go's [int] on the 64-bit targets felix is built for. *)
Definition int (z : Z) : Z := (z + 2 ^ 63) mod 2 ^ 64 - 2 ^ 63.

Definition MaxInt16 : Z := 32767.
Definition MinInt16 : Z := -32768.

(** ** Registers and opcodes *)

Definition R0 : Z := 0.
Definition R1 : Z := 1.
Definition R2 : Z := 2.
Definition R3 : Z := 3.
Definition R4 : Z := 4.
Definition R5 : Z := 5.
Definition R6 : Z := 6.
Definition R7 : Z := 7.
Definition R8 : Z := 8.
Definition R9 : Z := 9.
Definition R10 : Z := 10.
Definition RPseudoMapFD : Z := 1.
Definition OpClassLoadImm : Z := 0.
Definition OpClassLoadReg : Z := 1.
Definition OpClassStoreImm : Z := 2.
Definition OpClassStoreReg : Z := 3.
Definition OpClassALU32 : Z := 4.
Definition OpClassJump64 : Z := 5.
Definition OpClassJump32 : Z := 6.
Definition OpClassALU64 : Z := 7.
Definition OpClassMask : Z := 7.
Definition MemOpModeImm : Z := 0.
Definition MemOpModeAbs : Z := 32.
Definition MemOpModeInd : Z := 64.
Definition MemOpModeMem : Z := 96.
Definition MemOpModeXADD : Z := 192.
Definition MemOpSize8 : Z := 16.
Definition MemOpSize16 : Z := 8.
Definition MemOpSize32 : Z := 0.
Definition MemOpSize64 : Z := 24.
Definition ALUOpAdd : Z := 0.
Definition ALUOpSub : Z := 16.
Definition ALUOpMul : Z := 32.
Definition ALUOpDiv : Z := 48.
Definition ALUOpOr : Z := 64.
Definition ALUOpAnd : Z := 80.
Definition ALUOpShiftL : Z := 96.
Definition ALUOpShiftR : Z := 112.
Definition ALUOpNegate : Z := 128.
Definition ALUOpMod : Z := 144.
Definition ALUOpXOR : Z := 160.
Definition ALUOpMov : Z := 176.
Definition ALUOpAShiftR : Z := 192.
Definition ALUOpEndian : Z := 208.
Definition OpEndianToBE : Z := 8.
Definition OpEndianToLE : Z := 0.
Definition OpEndianFromBE : Z := OpEndianToBE.
Definition OpEndianFromLE : Z := OpEndianToLE.
Definition ALUSrcImm : Z := 0.
Definition ALUSrcReg : Z := 8.
Definition JumpOpA : Z := 0.
Definition JumpOpEq : Z := 16.
Definition JumpOpGT : Z := 32.
Definition JumpOpGE : Z := 48.
Definition JumpOpSet : Z := 64.
Definition JumpOpNE : Z := 80.
Definition JumpOpSGT : Z := 96.
Definition JumpOpSGE : Z := 112.
Definition JumpOpCall : Z := 128.
Definition JumpOpExit : Z := 144.
Definition JumpOpLT : Z := 160.
Definition JumpOpLE : Z := 176.
Definition JumpOpSLT : Z := 192.
Definition JumpOpSLE : Z := 208.
Definition StoreReg8 : Z := Z.lor (Z.lor OpClassStoreReg MemOpModeMem) MemOpSize8.
Definition StoreReg16 : Z := Z.lor (Z.lor OpClassStoreReg MemOpModeMem) MemOpSize16.
Definition StoreReg32 : Z := Z.lor (Z.lor OpClassStoreReg MemOpModeMem) MemOpSize32.
Definition StoreReg64 : Z := Z.lor (Z.lor OpClassStoreReg MemOpModeMem) MemOpSize64.
Definition StoreImm8 : Z := Z.lor (Z.lor OpClassStoreImm MemOpModeImm) MemOpSize8.
Definition StoreImm16 : Z := Z.lor (Z.lor OpClassStoreImm MemOpModeImm) MemOpSize16.
Definition StoreImm32 : Z := Z.lor (Z.lor OpClassStoreImm MemOpModeImm) MemOpSize32.
Definition StoreImm64 : Z := Z.lor (Z.lor OpClassStoreImm MemOpModeImm) MemOpSize64.
Definition LoadReg8 : Z := Z.lor (Z.lor OpClassLoadReg MemOpModeMem) MemOpSize8.
Definition LoadReg16 : Z := Z.lor (Z.lor OpClassLoadReg MemOpModeMem) MemOpSize16.
Definition LoadReg32 : Z := Z.lor (Z.lor OpClassLoadReg MemOpModeMem) MemOpSize32.
Definition LoadReg64 : Z := Z.lor (Z.lor OpClassLoadReg MemOpModeMem) MemOpSize64.
Definition LoadImm64 : Z := Z.lor (Z.lor OpClassLoadImm MemOpModeImm) MemOpSize64.
Definition LoadImm64Pt2 : Z := 0.
Definition JumpEq64 : Z := Z.lor (Z.lor OpClassJump64 ALUSrcReg) JumpOpEq.
Definition JumpGT64 : Z := Z.lor (Z.lor OpClassJump64 ALUSrcReg) JumpOpGT.
Definition JumpGE64 : Z := Z.lor (Z.lor OpClassJump64 ALUSrcReg) JumpOpGE.
Definition JumpSet64 : Z := Z.lor (Z.lor OpClassJump64 ALUSrcReg) JumpOpSet.
Definition JumpNE64 : Z := Z.lor (Z.lor OpClassJump64 ALUSrcReg) JumpOpNE.
Definition JumpSGT64 : Z := Z.lor (Z.lor OpClassJump64 ALUSrcReg) JumpOpSGT.
Definition JumpSGE64 : Z := Z.lor (Z.lor OpClassJump64 ALUSrcReg) JumpOpSGE.
Definition JumpLT64 : Z := Z.lor (Z.lor OpClassJump64 ALUSrcReg) JumpOpLT.
Definition JumpLE64 : Z := Z.lor (Z.lor OpClassJump64 ALUSrcReg) JumpOpLE.
Definition JumpSLT64 : Z := Z.lor (Z.lor OpClassJump64 ALUSrcReg) JumpOpSLT.
Definition JumpSLE64 : Z := Z.lor (Z.lor OpClassJump64 ALUSrcReg) JumpOpSLE.
Definition JumpEqImm64 : Z := Z.lor (Z.lor OpClassJump64 ALUSrcImm) JumpOpEq.
Definition JumpGTImm64 : Z := Z.lor (Z.lor OpClassJump64 ALUSrcImm) JumpOpGT.
Definition JumpGEImm64 : Z := Z.lor (Z.lor OpClassJump64 ALUSrcImm) JumpOpGE.
Definition JumpSetImm64 : Z := Z.lor (Z.lor OpClassJump64 ALUSrcImm) JumpOpSet.
Definition JumpNEImm64 : Z := Z.lor (Z.lor OpClassJump64 ALUSrcImm) JumpOpNE.
Definition JumpSGTImm64 : Z := Z.lor (Z.lor OpClassJump64 ALUSrcImm) JumpOpSGT.
Definition JumpSGEImm64 : Z := Z.lor (Z.lor OpClassJump64 ALUSrcImm) JumpOpSGE.
Definition JumpLTImm64 : Z := Z.lor (Z.lor OpClassJump64 ALUSrcImm) JumpOpLT.
Definition JumpLEImm64 : Z := Z.lor (Z.lor OpClassJump64 ALUSrcImm) JumpOpLE.
Definition JumpSLTImm64 : Z := Z.lor (Z.lor OpClassJump64 ALUSrcImm) JumpOpSLT.
Definition JumpSLEImm64 : Z := Z.lor (Z.lor OpClassJump64 ALUSrcImm) JumpOpSLE.
Definition JumpA : Z := Z.lor (Z.lor OpClassJump64 ALUSrcImm) JumpOpA.
Definition Call : Z := Z.lor (Z.lor OpClassJump64 ALUSrcImm) JumpOpCall.
Definition Exit : Z := Z.lor (Z.lor OpClassJump64 ALUSrcImm) JumpOpExit.
Definition JumpEq32 : Z := Z.lor (Z.lor OpClassJump32 ALUSrcReg) JumpOpEq.
Definition JumpGT32 : Z := Z.lor (Z.lor OpClassJump32 ALUSrcReg) JumpOpGT.
Definition JumpGE32 : Z := Z.lor (Z.lor OpClassJump32 ALUSrcReg) JumpOpGE.
Definition JumpSet32 : Z := Z.lor (Z.lor OpClassJump32 ALUSrcReg) JumpOpSet.
Definition JumpNE32 : Z := Z.lor (Z.lor OpClassJump32 ALUSrcReg) JumpOpNE.
Definition JumpSGT32 : Z := Z.lor (Z.lor OpClassJump32 ALUSrcReg) JumpOpSGT.
Definition JumpSGE32 : Z := Z.lor (Z.lor OpClassJump32 ALUSrcReg) JumpOpSGE.
Definition JumpLT32 : Z := Z.lor (Z.lor OpClassJump32 ALUSrcReg) JumpOpLT.
Definition JumpLE32 : Z := Z.lor (Z.lor OpClassJump32 ALUSrcReg) JumpOpLE.
Definition JumpSLT32 : Z := Z.lor (Z.lor OpClassJump32 ALUSrcReg) JumpOpSLT.
Definition JumpSLE32 : Z := Z.lor (Z.lor OpClassJump32 ALUSrcReg) JumpOpSLE.
Definition JumpEqImm32 : Z := Z.lor (Z.lor OpClassJump32 ALUSrcImm) JumpOpEq.
Definition JumpGTImm32 : Z := Z.lor (Z.lor OpClassJump32 ALUSrcImm) JumpOpGT.
Definition JumpGEImm32 : Z := Z.lor (Z.lor OpClassJump32 ALUSrcImm) JumpOpGE.
Definition JumpSetImm32 : Z := Z.lor (Z.lor OpClassJump32 ALUSrcImm) JumpOpSet.
Definition JumpNEImm32 : Z := Z.lor (Z.lor OpClassJump32 ALUSrcImm) JumpOpNE.
Definition JumpSGTImm32 : Z := Z.lor (Z.lor OpClassJump32 ALUSrcImm) JumpOpSGT.
Definition JumpSGEImm32 : Z := Z.lor (Z.lor OpClassJump32 ALUSrcImm) JumpOpSGE.
Definition JumpLTImm32 : Z := Z.lor (Z.lor OpClassJump32 ALUSrcImm) JumpOpLT.
Definition JumpLEImm32 : Z := Z.lor (Z.lor OpClassJump32 ALUSrcImm) JumpOpLE.
Definition JumpSLTImm32 : Z := Z.lor (Z.lor OpClassJump32 ALUSrcImm) JumpOpSLT.
Definition JumpSLEImm32 : Z := Z.lor (Z.lor OpClassJump32 ALUSrcImm) JumpOpSLE.
Definition Add64 : Z := Z.lor (Z.lor OpClassALU64 ALUSrcReg) ALUOpAdd.
Definition Sub64 : Z := Z.lor (Z.lor OpClassALU64 ALUSrcReg) ALUOpSub.
Definition Mul64 : Z := Z.lor (Z.lor OpClassALU64 ALUSrcReg) ALUOpMul.
Definition Div64 : Z := Z.lor (Z.lor OpClassALU64 ALUSrcReg) ALUOpDiv.
Definition Or64 : Z := Z.lor (Z.lor OpClassALU64 ALUSrcReg) ALUOpOr.
Definition And64 : Z := Z.lor (Z.lor OpClassALU64 ALUSrcReg) ALUOpAnd.
Definition ShiftL64 : Z := Z.lor (Z.lor OpClassALU64 ALUSrcReg) ALUOpShiftL.
Definition ShiftR64 : Z := Z.lor (Z.lor OpClassALU64 ALUSrcReg) ALUOpShiftR.
Definition Negate64 : Z := Z.lor (Z.lor OpClassALU64 ALUSrcReg) ALUOpNegate.
Definition Mod64 : Z := Z.lor (Z.lor OpClassALU64 ALUSrcReg) ALUOpMod.
Definition XOR64 : Z := Z.lor (Z.lor OpClassALU64 ALUSrcReg) ALUOpXOR.
Definition Mov64 : Z := Z.lor (Z.lor OpClassALU64 ALUSrcReg) ALUOpMov.
Definition AShiftR64 : Z := Z.lor (Z.lor OpClassALU64 ALUSrcReg) ALUOpAShiftR.
Definition Endian64 : Z := Z.lor (Z.lor OpClassALU64 ALUSrcReg) ALUOpEndian.
Definition Add32 : Z := Z.lor (Z.lor OpClassALU32 ALUSrcReg) ALUOpAdd.
Definition Sub32 : Z := Z.lor (Z.lor OpClassALU32 ALUSrcReg) ALUOpSub.
Definition Mul32 : Z := Z.lor (Z.lor OpClassALU32 ALUSrcReg) ALUOpMul.
Definition Div32 : Z := Z.lor (Z.lor OpClassALU32 ALUSrcReg) ALUOpDiv.
Definition Or32 : Z := Z.lor (Z.lor OpClassALU32 ALUSrcReg) ALUOpOr.
Definition And32 : Z := Z.lor (Z.lor OpClassALU32 ALUSrcReg) ALUOpAnd.
Definition ShiftL32 : Z := Z.lor (Z.lor OpClassALU32 ALUSrcReg) ALUOpShiftL.
Definition ShiftR32 : Z := Z.lor (Z.lor OpClassALU32 ALUSrcReg) ALUOpShiftR.
Definition Negate32 : Z := Z.lor (Z.lor OpClassALU32 ALUSrcReg) ALUOpNegate.
Definition Mod32 : Z := Z.lor (Z.lor OpClassALU32 ALUSrcReg) ALUOpMod.
Definition XOR32 : Z := Z.lor (Z.lor OpClassALU32 ALUSrcReg) ALUOpXOR.
Definition Mov32 : Z := Z.lor (Z.lor OpClassALU32 ALUSrcReg) ALUOpMov.
Definition AShiftR32 : Z := Z.lor (Z.lor OpClassALU32 ALUSrcReg) ALUOpAShiftR.
Definition Endian32 : Z := Z.lor (Z.lor OpClassALU32 ALUSrcReg) ALUOpEndian.
Definition AddImm64 : Z := Z.lor (Z.lor OpClassALU64 ALUSrcImm) ALUOpAdd.
Definition SubImm64 : Z := Z.lor (Z.lor OpClassALU64 ALUSrcImm) ALUOpSub.
Definition MulImm64 : Z := Z.lor (Z.lor OpClassALU64 ALUSrcImm) ALUOpMul.
Definition DivImm64 : Z := Z.lor (Z.lor OpClassALU64 ALUSrcImm) ALUOpDiv.
Definition OrImm64 : Z := Z.lor (Z.lor OpClassALU64 ALUSrcImm) ALUOpOr.
Definition AndImm64 : Z := Z.lor (Z.lor OpClassALU64 ALUSrcImm) ALUOpAnd.
Definition ShiftLImm64 : Z := Z.lor (Z.lor OpClassALU64 ALUSrcImm) ALUOpShiftL.
Definition ShiftRImm64 : Z := Z.lor (Z.lor OpClassALU64 ALUSrcImm) ALUOpShiftR.
Definition ModImm64 : Z := Z.lor (Z.lor OpClassALU64 ALUSrcImm) ALUOpMod.
Definition XORImm64 : Z := Z.lor (Z.lor OpClassALU64 ALUSrcImm) ALUOpXOR.
Definition MovImm64 : Z := Z.lor (Z.lor OpClassALU64 ALUSrcImm) ALUOpMov.
Definition AShiftRImm64 : Z := Z.lor (Z.lor OpClassALU64 ALUSrcImm) ALUOpAShiftR.
Definition EndianImm64 : Z := Z.lor (Z.lor OpClassALU64 ALUSrcImm) ALUOpEndian.
Definition AddImm32 : Z := Z.lor (Z.lor OpClassALU32 ALUSrcImm) ALUOpAdd.
Definition SubImm32 : Z := Z.lor (Z.lor OpClassALU32 ALUSrcImm) ALUOpSub.
Definition MulImm32 : Z := Z.lor (Z.lor OpClassALU32 ALUSrcImm) ALUOpMul.
Definition DivImm32 : Z := Z.lor (Z.lor OpClassALU32 ALUSrcImm) ALUOpDiv.
Definition OrImm32 : Z := Z.lor (Z.lor OpClassALU32 ALUSrcImm) ALUOpOr.
Definition AndImm32 : Z := Z.lor (Z.lor OpClassALU32 ALUSrcImm) ALUOpAnd.
Definition ShiftLImm32 : Z := Z.lor (Z.lor OpClassALU32 ALUSrcImm) ALUOpShiftL.
Definition ShiftRImm32 : Z := Z.lor (Z.lor OpClassALU32 ALUSrcImm) ALUOpShiftR.
Definition ModImm32 : Z := Z.lor (Z.lor OpClassALU32 ALUSrcImm) ALUOpMod.
Definition XORImm32 : Z := Z.lor (Z.lor OpClassALU32 ALUSrcImm) ALUOpXOR.
Definition MovImm32 : Z := Z.lor (Z.lor OpClassALU32 ALUSrcImm) ALUOpMov.
Definition AShiftRImm32 : Z := Z.lor (Z.lor OpClassALU32 ALUSrcImm) ALUOpAShiftR.
Definition EndianImm32 : Z := Z.lor (Z.lor OpClassALU32 ALUSrcImm) ALUOpEndian.

Record FieldOffset := mkFieldOffset { Offset : Z; Field : string }.

Definition SkbuffOffsetLen := mkFieldOffset (0 * 4) "skb->len".
Definition SkbuffOffsetData := mkFieldOffset (19 * 4) "skb->data".
Definition SkbuffOffsetDataEnd := mkFieldOffset (20 * 4) "skb->data_end".

Definition InstructionSize : nat := 8.

(** ** Instructions *)

(** [binary.LittleEndian] on the two slices the assembler uses,
    [Instruction[2:4]] and [Instruction[4:8]]. *)
Definition PutUint16_2_4 (bs : vec Z 8) (v : Z) : vec Z 8 :=
  vinsert 3%fin (uint8 (v ≫ 8)) (vinsert 2%fin (uint8 v) bs).

Definition PutUint32_4_8 (bs : vec Z 8) (v : Z) : vec Z 8 :=
  vinsert 7%fin (uint8 (v ≫ 24))
    (vinsert 6%fin (uint8 (v ≫ 16))
       (vinsert 5%fin (uint8 (v ≫ 8)) (vinsert 4%fin (uint8 v) bs))).

Definition Uint16_2_4 (bs : vec Z 8) : Z :=
  Z.lor (bs !!! 2%fin) ((bs !!! 3%fin) ≪ 8).

Definition Uint32_4_8 (bs : vec Z 8) : Z :=
  Z.lor (Z.lor (Z.lor (bs !!! 4%fin) ((bs !!! 5%fin) ≪ 8))
                ((bs !!! 6%fin) ≪ 16))
        ((bs !!! 7%fin) ≪ 24).

Record Insn := mkInsn {
  Instruction : vec Z 8;
  Labels : list string;
  Comments : list string;
  Annotation : string
}.

(** [Insns], a series of BPF instructions. *)
Abbreviation Insns := (list Insn) (only parsing).

Definition with_Instruction (bs : vec Z 8) (n : Insn) : Insn :=
  mkInsn bs (Labels n) (Comments n) (Annotation n).
Definition with_Labels (ls : list string) (n : Insn) : Insn :=
  mkInsn (Instruction n) ls (Comments n) (Annotation n).
Definition with_Comments (cs : list string) (n : Insn) : Insn :=
  mkInsn (Instruction n) (Labels n) cs (Annotation n).
Definition with_Annotation (a : string) (n : Insn) : Insn :=
  mkInsn (Instruction n) (Labels n) (Comments n) a.

Definition AsBytes (ns : Insns) : list Z :=
  foldl (fun bs n => bs ++ vec_to_list (Instruction n)) [] ns.

Definition MakeInsn (opcode dst src offset imm : Z) : Insn :=
  let bytes : vec Z 8 :=
    [# uint8 opcode; uint8 (Z.lor (int (src ≪ 4)) dst); 0; 0; 0; 0; 0; 0] in
  let bytes := PutUint16_2_4 bytes (uint16 offset) in
  let bytes := PutUint32_4_8 bytes (uint32 imm) in
  mkInsn bytes [] [] "".

Module Insn.
Definition OpCode (n : Insn) : Z := Instruction n !!! 0%fin.
Definition Dst (n : Insn) : Z := Z.land (Instruction n !!! 1%fin) 15.
Definition Src (n : Insn) : Z := Z.land ((Instruction n !!! 1%fin) ≫ 4) 15.
Definition Off (n : Insn) : Z := int16 (Uint16_2_4 (Instruction n)).
Definition Imm (n : Insn) : Z := int32 (Uint32_4_8 (Instruction n)).
Definition IsNoOp (n : Insn) : bool :=
  (OpCode n =? Mov64) && (Dst n =? Src n).
Definition OpClass (n : Insn) : Z := Z.land (OpCode n) OpClassMask.
End Insn.

(** ** The builder *)

Record fixUp := mkFixUp { origInsnIdx : nat }.

(** The errors [applyFixUps] builds with [fmt.Errorf], and the wrapper
    [LabelNextInsn] adds around them. *)
Inductive error :=
| ErrMissingLabel (label : string)
| ErrSameInsn (offset : Z) (label : string)
| ErrExceedRange (offset : Z) (label : string)
| ErrLabelFixups (label : string) (idx : nat) (cause : error).

Record Block := mkBlock {
  insns : Insns;
  fixUps : gmap string (list fixUp);
  labelToInsnIdx : gmap string nat;
  insnIdxToLabels : gmap nat (list string);
  insnIdxToComments : gmap nat (list string);
  inUseJumpTargets : gset string;
  policyDebugEnabled : bool;
  trampolinesEnabled : bool;
  trampolineIdx : nat;
  lastTrampolineAddr : nat;
  deferredErr : option error;
  NumJumps : nat;
  trampolineStride : Z
}.

Definition with_insns (x : Insns) (b : Block) : Block :=
  mkBlock x (fixUps b) (labelToInsnIdx b) (insnIdxToLabels b)
    (insnIdxToComments b) (inUseJumpTargets b) (policyDebugEnabled b)
    (trampolinesEnabled b) (trampolineIdx b) (lastTrampolineAddr b)
    (deferredErr b) (NumJumps b) (trampolineStride b).
Definition with_fixUps (x : gmap string (list fixUp)) (b : Block) : Block :=
  mkBlock (insns b) x (labelToInsnIdx b) (insnIdxToLabels b)
    (insnIdxToComments b) (inUseJumpTargets b) (policyDebugEnabled b)
    (trampolinesEnabled b) (trampolineIdx b) (lastTrampolineAddr b)
    (deferredErr b) (NumJumps b) (trampolineStride b).
Definition with_labelToInsnIdx (x : gmap string nat) (b : Block) : Block :=
  mkBlock (insns b) (fixUps b) x (insnIdxToLabels b)
    (insnIdxToComments b) (inUseJumpTargets b) (policyDebugEnabled b)
    (trampolinesEnabled b) (trampolineIdx b) (lastTrampolineAddr b)
    (deferredErr b) (NumJumps b) (trampolineStride b).
Definition with_insnIdxToLabels (x : gmap nat (list string)) (b : Block)
  : Block :=
  mkBlock (insns b) (fixUps b) (labelToInsnIdx b) x
    (insnIdxToComments b) (inUseJumpTargets b) (policyDebugEnabled b)
    (trampolinesEnabled b) (trampolineIdx b) (lastTrampolineAddr b)
    (deferredErr b) (NumJumps b) (trampolineStride b).
Definition with_insnIdxToComments (x : gmap nat (list string)) (b : Block)
  : Block :=
  mkBlock (insns b) (fixUps b) (labelToInsnIdx b) (insnIdxToLabels b)
    x (inUseJumpTargets b) (policyDebugEnabled b)
    (trampolinesEnabled b) (trampolineIdx b) (lastTrampolineAddr b)
    (deferredErr b) (NumJumps b) (trampolineStride b).
Definition with_inUseJumpTargets (x : gset string) (b : Block) : Block :=
  mkBlock (insns b) (fixUps b) (labelToInsnIdx b) (insnIdxToLabels b)
    (insnIdxToComments b) x (policyDebugEnabled b)
    (trampolinesEnabled b) (trampolineIdx b) (lastTrampolineAddr b)
    (deferredErr b) (NumJumps b) (trampolineStride b).
Definition with_trampolinesEnabled (x : bool) (b : Block) : Block :=
  mkBlock (insns b) (fixUps b) (labelToInsnIdx b) (insnIdxToLabels b)
    (insnIdxToComments b) (inUseJumpTargets b) (policyDebugEnabled b)
    x (trampolineIdx b) (lastTrampolineAddr b)
    (deferredErr b) (NumJumps b) (trampolineStride b).
Definition with_trampolineIdx (x : nat) (b : Block) : Block :=
  mkBlock (insns b) (fixUps b) (labelToInsnIdx b) (insnIdxToLabels b)
    (insnIdxToComments b) (inUseJumpTargets b) (policyDebugEnabled b)
    (trampolinesEnabled b) x (lastTrampolineAddr b)
    (deferredErr b) (NumJumps b) (trampolineStride b).
Definition with_lastTrampolineAddr (x : nat) (b : Block) : Block :=
  mkBlock (insns b) (fixUps b) (labelToInsnIdx b) (insnIdxToLabels b)
    (insnIdxToComments b) (inUseJumpTargets b) (policyDebugEnabled b)
    (trampolinesEnabled b) (trampolineIdx b) x
    (deferredErr b) (NumJumps b) (trampolineStride b).
Definition with_deferredErr (x : option error) (b : Block) : Block :=
  mkBlock (insns b) (fixUps b) (labelToInsnIdx b) (insnIdxToLabels b)
    (insnIdxToComments b) (inUseJumpTargets b) (policyDebugEnabled b)
    (trampolinesEnabled b) (trampolineIdx b) (lastTrampolineAddr b)
    x (NumJumps b) (trampolineStride b).
Definition with_NumJumps (x : nat) (b : Block) : Block :=
  mkBlock (insns b) (fixUps b) (labelToInsnIdx b) (insnIdxToLabels b)
    (insnIdxToComments b) (inUseJumpTargets b) (policyDebugEnabled b)
    (trampolinesEnabled b) (trampolineIdx b) (lastTrampolineAddr b)
    (deferredErr b) x (trampolineStride b).
Definition with_trampolineStride (x : Z) (b : Block) : Block :=
  mkBlock (insns b) (fixUps b) (labelToInsnIdx b) (insnIdxToLabels b)
    (insnIdxToComments b) (inUseJumpTargets b) (policyDebugEnabled b)
    (trampolinesEnabled b) (trampolineIdx b) (lastTrampolineAddr b)
    (deferredErr b) (NumJumps b) x.

Definition trampolineHeadroom : Z := 100.
Definition TrampolineStrideDefault : Z := MaxInt16 - trampolineHeadroom.

Definition NewBlock (policyDebugEnabled : bool) : Block :=
  mkBlock [] ∅ ∅ ∅ ∅ ∅ policyDebugEnabled true 0 0 None 0
    TrampolineStrideDefault.

(** The order in which one [range] loop visits the keys of a map: any
    rearrangement of the keys.  [fair] is what Go guarantees of it. *)
Definition MapOrder := list string → list string.

Definition fair (o : MapOrder) : Prop := ∀ l, o l ≡ₚ l.

Definition range_keys {V} (o : MapOrder) (m : gmap string V) : list string :=
  o (map_to_list m).*1.

(** [sort.Strings]: ascending byte-wise lexicographic order. *)
Definition sort_Strings (l : list string) : list string :=
  merge_sort String.le l.

(** A missing key of a [map[K][]string] reads as the nil slice. *)
Definition slice_at {K V} `{Countable K} (m : gmap K (list V)) (k : K)
  : list V := default [] (m !! k).

Definition nextInsnReachable (b : Block) : bool :=
  match last (insns b) with
  | None => true
  | Some lastInsn =>
      let lastOpCode := Insn.OpCode lastInsn in
      if (lastOpCode =? JumpA) || (lastOpCode =? Exit) then
        existsb (fun l => bool_decide (l ∈ inUseJumpTargets b))
          (slice_at (insnIdxToLabels b) (length (insns b)))
      else true
  end.

Definition addInsnWithOffsetFixupNoTrampoline
    (insn : Insn) (targetLabel : string) (b : Block) : Block :=
  if negb (nextInsnReachable b) then
    let here := length (insns b) in
    let b := with_labelToInsnIdx
               (foldl (fun m l => delete l m) (labelToInsnIdx b)
                  (slice_at (insnIdxToLabels b) here)) b in
    with_insnIdxToLabels (delete here (insnIdxToLabels b)) b
  else
    let b := with_insns (insns b ++ [insn]) b in
    let b :=
      if bool_decide (targetLabel ≠ "") then
        let b :=
          if policyDebugEnabled b then
            with_insns
              (alter (with_Annotation ("goto " +:+ targetLabel))
                 (length (insns b) - 1)%nat (insns b)) b
          else b in
        let b := with_inUseJumpTargets
                   ({[targetLabel]} ∪ inUseJumpTargets b) b in
        with_fixUps
          (<[targetLabel :=
               slice_at (fixUps b) targetLabel
                 ++ [mkFixUp (length (insns b) - 1)%nat]]> (fixUps b)) b
      else b in
    if (Insn.OpClass insn =? OpClassJump64)
       || (Insn.OpClass insn =? OpClassJump32)
    then with_NumJumps (S (NumJumps b)) b
    else b.

Definition TargetIsUsed (label : string) (b : Block) : bool :=
  bool_decide (label ∈ inUseJumpTargets b).

Definition UnresolvedJumpTargets (o : MapOrder) (b : Block) : list string :=
  sort_Strings (range_keys o (fixUps b)).

(** The write of [applyFixUps] into the offset field of an instruction:
    [binary.LittleEndian.PutUint16(insn.Instruction[2:4], uint16(offset))]. *)
Definition patch_offset (offset : Z) (n : Insn) : Insn :=
  with_Instruction (PutUint16_2_4 (Instruction n) (uint16 offset)) n.

(** The loop of [applyFixUps]: the outer [option] is [None] when the index
    [b.insns[f.origInsnIdx]] is out of range, the inner one is the [error]
    the Go function returns. *)
Fixpoint applyFixUps_loop (targetLabel : string) (fs : list fixUp)
    (b : Block) : option (Block * option error) :=
  match fs with
  | [] => Some (b, None)
  | f :: fs' =>
      match labelToInsnIdx b !! targetLabel with
      | None => Some (b, Some (ErrMissingLabel targetLabel))
      | Some labelIdx =>
          let offset := Z.of_nat labelIdx - Z.of_nat (origInsnIdx f) - 1 in
          if offset =? -1 then
            Some (b, Some (ErrSameInsn offset targetLabel))
          else if (offset >? MaxInt16) || (offset <? MinInt16) then
            Some (b, Some (ErrExceedRange offset targetLabel))
          else
            match insns b !! origInsnIdx f with
            | None => None
            | Some _ =>
                applyFixUps_loop targetLabel fs'
                  (with_insns
                     (alter (patch_offset offset) (origInsnIdx f) (insns b))
                     b)
            end
      end
  end.

Definition applyFixUps (targetLabel : string) (b : Block)
  : option (Block * option error) :=
  match applyFixUps_loop targetLabel (slice_at (fixUps b) targetLabel) b with
  | Some (b, None) =>
      Some (with_fixUps (delete targetLabel (fixUps b)) b, None)
  | r => r
  end.

Definition LabelNextInsn (label : string) (b : Block) : option Block :=
  let b := with_labelToInsnIdx
             (<[label := length (insns b)]> (labelToInsnIdx b)) b in
  let b := with_insnIdxToLabels
             (<[length (insns b) :=
                  slice_at (insnIdxToLabels b) (length (insns b)) ++ [label]]>
                (insnIdxToLabels b)) b in
  '(b, err) ← applyFixUps label b;
  match err with
  | Some e =>
      match deferredErr b with
      | None =>
          Some (with_deferredErr
                  (Some (ErrLabelFixups label (length (insns b)) e)) b)
      | Some _ => Some b
      end
  | None => Some b
  end.

Definition AddComment (comment : string) (b : Block) : Block :=
  if negb (policyDebugEnabled b) then b
  else
    with_insnIdxToComments
      (<[length (insns b) :=
           slice_at (insnIdxToComments b) (length (insns b)) ++ [comment]]>
         (insnIdxToComments b)) b.

Definition JumpNoTrampoline (endLabel : string) (b : Block) : Block :=
  let insn := MakeInsn JumpA 0 0 0 0 in
  addInsnWithOffsetFixupNoTrampoline insn endLabel b.

Fixpoint writeTrampoline_loop (labels : list string) (b : Block)
  : option Block :=
  match labels with
  | [] => Some b
  | label :: rest =>
      b ← LabelNextInsn label b;
      writeTrampoline_loop rest (JumpNoTrampoline label b)
  end.

Definition writeTrampoline (o : MapOrder) (b : Block) : option Block :=
  let b := with_lastTrampolineAddr (length (insns b)) b in
  if (size (fixUps b) =? 0)%nat then Some b
  else
    let labels := range_keys o (fixUps b) in
    let labels := sort_Strings labels in
    let endLabel := "skip-trampoline-" +:+ pretty (trampolineIdx b) in
    let b := with_trampolineIdx (S (trampolineIdx b)) b in
    let b := JumpNoTrampoline endLabel b in
    b ← writeTrampoline_loop labels b;
    LabelNextInsn endLabel b.

Definition maybeWriteTrampoline (o : MapOrder) (nextInsn : Insn) (b : Block)
  : option Block :=
  if negb (trampolinesEnabled b) then Some b
  else if Z.of_nat (length (insns b)) - Z.of_nat (lastTrampolineAddr b)
          <? trampolineStride b then Some b
  else if Insn.OpCode nextInsn =? LoadImm64Pt2 then Some b
  else writeTrampoline o b.

Definition addInsnWithOffsetFixup (o : MapOrder) (insn : Insn)
    (targetLabel : string) (b : Block) : option Block :=
  b ← maybeWriteTrampoline o insn b;
  Some (addInsnWithOffsetFixupNoTrampoline insn targetLabel b).

Definition addInsn (o : MapOrder) (insn : Insn) (b : Block) : option Block :=
  addInsnWithOffsetFixup o insn "" b.

(** [add] and [addWithOffsetFixup] also hand the instruction they built back
    to the caller. *)
Definition add (o : MapOrder) (opcode dst src offset imm : Z)
    (annotation : string) (b : Block) : option (Insn * Block) :=
  let insn := MakeInsn opcode dst src offset imm in
  let insn := with_Annotation annotation insn in
  b ← addInsn o insn b;
  Some (insn, b).

Definition Instr (o : MapOrder) (opcode dst src offset imm : Z)
    (annotation : string) (b : Block) : option (Insn * Block) :=
  add o opcode dst src offset imm annotation b.

Definition addWithOffsetFixup (o : MapOrder) (opcode dst src : Z)
    (offsetLabel : string) (imm : Z) (b : Block) : option (Insn * Block) :=
  let insn := MakeInsn opcode dst src 0 imm in
  b ← addInsnWithOffsetFixup o insn offsetLabel b;
  Some (insn, b).

Definition InstrWithOffsetFixup (o : MapOrder) (opcode dst src : Z)
    (offsetLabel : string) (imm : Z) (b : Block) : option (Insn * Block) :=
  addWithOffsetFixup o opcode dst src offsetLabel imm b.

(** The first loop of [Assemble], over [range b.fixUps]; the entry being
    visited is the only one deleted on the way, so every key present at
    the start is visited once. *)
Fixpoint Assemble_fixUps (labels : list string) (b : Block)
  : option (Block * option error) :=
  match labels with
  | [] => Some (b, None)
  | label :: rest =>
      '(b, err) ← applyFixUps label b;
      match err with
      | Some e => Some (b, Some e)
      | None => Assemble_fixUps rest b
      end
  end.

(** The second loop of [Assemble]: debug labels and comments. *)
Definition Assemble_debug (b : Block) : Insns :=
  imap (fun idx n =>
          let n := match insnIdxToLabels b !! idx with
                   | Some labels => with_Labels (Labels n ++ labels) n
                   | None => n
                   end in
          match insnIdxToComments b !! idx with
          | Some comments => with_Comments (Comments n ++ comments) n
          | None => n
          end) (insns b).

(** [Assemble] returns the pair [(Insns, error)]; a nil component is
    [None]. *)
Definition Assemble (o : MapOrder) (b : Block)
  : option (option Insns * option error) :=
  match deferredErr b with
  | Some e => Some (None, Some e)
  | None =>
      '(b, err) ← Assemble_fixUps (range_keys o (fixUps b)) b;
      match err with
      | Some e => Some (None, Some e)
      | None =>
          let b := if policyDebugEnabled b
                   then with_insns (Assemble_debug b) b else b in
          Some (Some (insns b), None)
      end
  end.

(** [make(Insns, len, n)] panics when [n] elements are more than the
    runtime allocates at all: an [Insn] is an [[8]uint8], two slices and a
    string, 72 bytes on the 64-bit targets, and the limit there is [2^48]
    bytes. *)
Definition maxInsnsCap : Z := (1 ≪ 48) / 72.

(** The capacity of a slice is not observable in the block, and no slice
    has a capacity above [maxInsnsCap].  So a request within the capacity
    is within the limit, and returns at once; a request above the limit is
    above the capacity, reaches [make] and panics ([None]); a request in
    between copies the instructions to a larger array, which leaves the
    block's fields as they are.  Running out of memory is not modelled,
    here as for [append]. *)
Definition ReserveInstructionCapacity (n : Z) (b : Block) : option Block :=
  if n <=? maxInsnsCap then Some b else None.

Definition SetTrampolinesEnabled (en : bool) (b : Block) : Block :=
  with_trampolinesEnabled en b.

Definition SetTrampolineStride (s : Z) (b : Block) : Block :=
  if (s >? 0) && (s <? 1 ≪ 14) then with_trampolineStride s b else b.

(** ** The instruction-named methods of [Block] *)

Module Block.

(** The loads, stores and [Call] annotate their instruction with a text
    built from [Reg.String()] (generated by stringer) and the table
    [HelperString]; neither is part of asm.go, so both are taken as
    given. *)
Section Annotated.
Variable RegString : Z → string.
Variable HelperString : Z → string.

Definition buildAnnotation (b : Block) (opcode src dst : Z)
    (fo : FieldOffset) (imm : Z) : string :=
  if negb (policyDebugEnabled b) then ""
  else
    let eq op := opcode =? op in
    let cast :=
      if eq StoreReg8 || eq LoadReg8 || eq StoreImm8 then "u8"
      else if eq StoreReg16 || eq LoadReg16 || eq StoreImm16 then "u16"
      else if eq StoreReg32 || eq LoadReg32 || eq StoreImm32 then "u32"
      else if eq StoreReg64 || eq LoadReg64 || eq StoreImm64
              || eq LoadImm64 then "u64"
      else "" in
    if eq StoreReg8 || eq StoreReg16 || eq StoreReg32 || eq StoreReg64 then
      "*(" +:+ cast +:+ " *) (" +:+ RegString dst +:+ " + "
        +:+ pretty (Offset fo) +:+ ") /* " +:+ Field fo +:+ " */ = "
        +:+ RegString src
    else if eq LoadReg8 || eq LoadReg16 || eq LoadReg32 || eq LoadReg64
    then
      RegString dst +:+ " = *(" +:+ cast +:+ " *)(" +:+ RegString src
        +:+ " + " +:+ pretty (Offset fo) +:+ ") /* " +:+ Field fo
        +:+ " */"
    else if eq StoreImm8 || eq StoreImm16 || eq StoreImm32
            || eq StoreImm64 then
      "*(" +:+ cast +:+ " *) (" +:+ RegString dst +:+ " + "
        +:+ pretty (Offset fo) +:+ ") /* " +:+ Field fo +:+ " */ = "
        +:+ pretty imm
    else if eq Call then "call " +:+ HelperString imm
    else "".

Definition Load8 (o : MapOrder) (dst ptrReg : Z) (fo : FieldOffset)
    (b : Block) : option Block :=
  let annotation := buildAnnotation b LoadReg8 ptrReg dst fo 0 in
  snd <$> add o LoadReg8 dst ptrReg (Offset fo) 0 annotation b.
Definition Load16 (o : MapOrder) (dst ptrReg : Z) (fo : FieldOffset)
    (b : Block) : option Block :=
  let annotation := buildAnnotation b LoadReg16 ptrReg dst fo 0 in
  snd <$> add o LoadReg16 dst ptrReg (Offset fo) 0 annotation b.
Definition Load32 (o : MapOrder) (dst ptrReg : Z) (fo : FieldOffset)
    (b : Block) : option Block :=
  let annotation := buildAnnotation b LoadReg32 ptrReg dst fo 0 in
  snd <$> add o LoadReg32 dst ptrReg (Offset fo) 0 annotation b.
Definition Load64 (o : MapOrder) (dst ptrReg : Z) (fo : FieldOffset)
    (b : Block) : option Block :=
  let annotation := buildAnnotation b LoadReg64 ptrReg dst fo 0 in
  snd <$> add o LoadReg64 dst ptrReg (Offset fo) 0 annotation b.
Definition Load (o : MapOrder) (dst ptrReg : Z) (fo : FieldOffset)
    (size : Z) (b : Block) : option Block :=
  let ins := uint8 (Z.lor (Z.lor OpClassLoadReg MemOpModeMem) size) in
  let annotation := buildAnnotation b ins ptrReg dst fo 0 in
  snd <$> add o ins dst ptrReg (Offset fo) 0 annotation b.
Definition Store8 (o : MapOrder) (dst ptrReg : Z) (fo : FieldOffset)
    (b : Block) : option Block :=
  let annotation := buildAnnotation b StoreReg8 ptrReg dst fo 0 in
  snd <$> add o StoreReg8 dst ptrReg (Offset fo) 0 annotation b.
Definition Store16 (o : MapOrder) (dst ptrReg : Z) (fo : FieldOffset)
    (b : Block) : option Block :=
  let annotation := buildAnnotation b StoreReg16 ptrReg dst fo 0 in
  snd <$> add o StoreReg16 dst ptrReg (Offset fo) 0 annotation b.
Definition Store32 (o : MapOrder) (dst ptrReg : Z) (fo : FieldOffset)
    (b : Block) : option Block :=
  let annotation := buildAnnotation b StoreReg32 ptrReg dst fo 0 in
  snd <$> add o StoreReg32 dst ptrReg (Offset fo) 0 annotation b.
Definition Store64 (o : MapOrder) (dst ptrReg : Z) (fo : FieldOffset)
    (b : Block) : option Block :=
  let annotation := buildAnnotation b StoreReg64 ptrReg dst fo 0 in
  snd <$> add o StoreReg64 dst ptrReg (Offset fo) 0 annotation b.
Definition LoadStack8 (o : MapOrder) (dst : Z) (fo : FieldOffset)
    (b : Block) : option Block := Load8 o dst R10 fo b.
Definition LoadStack16 (o : MapOrder) (dst : Z) (fo : FieldOffset)
    (b : Block) : option Block := Load16 o dst R10 fo b.
Definition LoadStack32 (o : MapOrder) (dst : Z) (fo : FieldOffset)
    (b : Block) : option Block := Load32 o dst R10 fo b.
Definition LoadStack64 (o : MapOrder) (dst : Z) (fo : FieldOffset)
    (b : Block) : option Block := Load64 o dst R10 fo b.
Definition Call (o : MapOrder) (helperID : Z) (b : Block) : option Block :=
  snd <$> add o Call 0 0 0 (int32 helperID)
            (buildAnnotation b Call 0 0 (mkFieldOffset 0 "")
               (int32 helperID)) b.
End Annotated.

Definition FromBE (o : MapOrder) (dst size : Z) (b : Block) : option Block :=
  snd <$> add o (Z.lor (Z.lor OpClassALU32 ALUOpEndian) OpEndianFromBE)
            dst 0 0 size "" b.
Definition And32 (o : MapOrder) (dst src : Z) (b : Block) : option Block :=
  snd <$> add o And32 dst src 0 0 "" b.
Definition AndImm32 (o : MapOrder) (dst imm : Z) (b : Block) : option Block :=
  snd <$> add o AndImm32 dst 0 0 imm "" b.
Definition AndImm64 (o : MapOrder) (dst imm : Z) (b : Block) : option Block :=
  snd <$> add o AndImm64 dst 0 0 imm "" b.
Definition OrImm64 (o : MapOrder) (dst imm : Z) (b : Block) : option Block :=
  snd <$> add o OrImm64 dst 0 0 imm "" b.
Definition ShiftRImm64 (o : MapOrder) (dst imm : Z) (b : Block)
  : option Block :=
  snd <$> add o ShiftRImm64 dst 0 0 imm "" b.

(** [fd] is a [uint32]. *)
Definition LoadMapFD (o : MapOrder) (dst fd : Z) (b : Block)
  : option Block :=
  '(_, b) ← add o LoadImm64 dst RPseudoMapFD 0 (int32 fd) "" b;
  snd <$> add o LoadImm64Pt2 0 0 0 0 "" b.

(** The only double-length instruction; [imm] is an [int64]. *)
Definition LoadImm64 (o : MapOrder) (dst imm : Z) (b : Block)
  : option Block :=
  '(_, b) ← add o LoadImm64 dst 0 0 (int32 imm) "" b;
  snd <$> add o LoadImm64Pt2 0 0 0 (int32 (imm ≫ 32)) "" b.

Definition StoreStack8 (o : MapOrder) (src offset : Z) (b : Block)
  : option Block :=
  snd <$> add o StoreReg8 R10 src offset 0 "" b.
Definition StoreStack16 (o : MapOrder) (src offset : Z) (b : Block)
  : option Block :=
  snd <$> add o StoreReg16 R10 src offset 0 "" b.
Definition StoreStack32 (o : MapOrder) (src offset : Z) (b : Block)
  : option Block :=
  snd <$> add o StoreReg32 R10 src offset 0 "" b.
Definition StoreStack64 (o : MapOrder) (src offset : Z) (b : Block)
  : option Block :=
  snd <$> add o StoreReg64 R10 src offset 0 "" b.

Definition Mov64 (o : MapOrder) (dst src : Z) (b : Block) : option Block :=
  snd <$> add o Mov64 dst src 0 0 "" b.
Definition NoOp (o : MapOrder) (b : Block) : option Block :=
  Mov64 o R0 R0 b.
Definition MovImm64 (o : MapOrder) (dst imm : Z) (b : Block) : option Block :=
  snd <$> add o MovImm64 dst 0 0 imm "" b.
Definition MovImm32 (o : MapOrder) (dst imm : Z) (b : Block) : option Block :=
  snd <$> add o MovImm32 dst 0 0 imm "" b.
Definition Add64 (o : MapOrder) (dst src : Z) (b : Block) : option Block :=
  snd <$> add o Add64 dst src 0 0 "" b.
Definition AddImm64 (o : MapOrder) (dst imm : Z) (b : Block) : option Block :=
  snd <$> add o AddImm64 dst 0 0 imm "" b.
Definition ShiftLImm64 (o : MapOrder) (dst imm : Z) (b : Block)
  : option Block :=
  snd <$> add o ShiftLImm64 dst 0 0 imm "" b.

Definition Jump (o : MapOrder) (label : string) (b : Block) : option Block :=
  snd <$> addWithOffsetFixup o JumpA 0 0 label 0 b.
Definition JumpEq64 (o : MapOrder) (ra rb : Z) (label : string) (b : Block)
  : option Block :=
  snd <$> addWithOffsetFixup o JumpEq64 ra rb label 0 b.
Definition JumpEqImm64 (o : MapOrder) (ra imm : Z) (label : string)
    (b : Block) : option Block :=
  snd <$> addWithOffsetFixup o JumpEqImm64 ra 0 label imm b.
Definition JumpLEImm64 (o : MapOrder) (ra imm : Z) (label : string)
    (b : Block) : option Block :=
  snd <$> addWithOffsetFixup o JumpLEImm64 ra 0 label imm b.
Definition JumpLTImm64 (o : MapOrder) (ra imm : Z) (label : string)
    (b : Block) : option Block :=
  snd <$> addWithOffsetFixup o JumpLTImm64 ra 0 label imm b.
Definition JumpGEImm64 (o : MapOrder) (ra imm : Z) (label : string)
    (b : Block) : option Block :=
  snd <$> addWithOffsetFixup o JumpGEImm64 ra 0 label imm b.
Definition JumpNEImm64 (o : MapOrder) (ra imm : Z) (label : string)
    (b : Block) : option Block :=
  snd <$> addWithOffsetFixup o JumpNEImm64 ra 0 label imm b.
Definition JumpLE64 (o : MapOrder) (ra rb : Z) (label : string) (b : Block)
  : option Block :=
  snd <$> addWithOffsetFixup o JumpLE64 ra rb label 0 b.
Definition JumpLT64 (o : MapOrder) (ra rb : Z) (label : string) (b : Block)
  : option Block :=
  snd <$> addWithOffsetFixup o JumpLT64 ra rb label 0 b.
Definition JumpGE64 (o : MapOrder) (ra rb : Z) (label : string) (b : Block)
  : option Block :=
  snd <$> addWithOffsetFixup o JumpGE64 ra rb label 0 b.
Definition JumpGT64 (o : MapOrder) (ra rb : Z) (label : string) (b : Block)
  : option Block :=
  snd <$> addWithOffsetFixup o JumpGT64 ra rb label 0 b.
Definition JumpEq32 (o : MapOrder) (ra rb : Z) (label : string) (b : Block)
  : option Block :=
  snd <$> addWithOffsetFixup o JumpEq32 ra rb label 0 b.
Definition JumpEqImm32 (o : MapOrder) (ra imm : Z) (label : string)
    (b : Block) : option Block :=
  snd <$> addWithOffsetFixup o JumpEqImm32 ra 0 label imm b.
Definition JumpNEImm32 (o : MapOrder) (ra imm : Z) (label : string)
    (b : Block) : option Block :=
  snd <$> addWithOffsetFixup o JumpNEImm32 ra 0 label imm b.
Definition JumpLE32 (o : MapOrder) (ra rb : Z) (label : string) (b : Block)
  : option Block :=
  snd <$> addWithOffsetFixup o JumpLE32 ra rb label 0 b.
Definition JumpLT32 (o : MapOrder) (ra rb : Z) (label : string) (b : Block)
  : option Block :=
  snd <$> addWithOffsetFixup o JumpLT32 ra rb label 0 b.
Definition JumpGE32 (o : MapOrder) (ra rb : Z) (label : string) (b : Block)
  : option Block :=
  snd <$> addWithOffsetFixup o JumpGE32 ra rb label 0 b.
Definition JumpGT32 (o : MapOrder) (ra rb : Z) (label : string) (b : Block)
  : option Block :=
  snd <$> addWithOffsetFixup o JumpGT32 ra rb label 0 b.

Definition Exit (o : MapOrder) (b : Block) : option Block :=
  snd <$> add o Exit 0 0 0 0 "" b.


End Block.

(** ** Call sequences *)

(** One call of the builder API.  Every instruction-named method is
    [Instr] or [InstrWithOffsetFixup] at a fixed opcode (or the pair
    [LoadImm64]/[LoadMapFD]), so these constructors cover the methods that
    write the program or configure the builder.
    [ReserveInstructionCapacity], which writes nothing and panics when
    asked for too much, is added by [MethodCall] below. *)
Inductive BuilderCall :=
| CInstr (opcode dst src offset imm : Z) (annotation : string)
| CInstrWithOffsetFixup (opcode dst src : Z) (offsetLabel : string) (imm : Z)
| CLoadImm64 (dst imm : Z)
| CLoadMapFD (dst fd : Z)
| CJumpNoTrampoline (endLabel : string)
| CLabelNextInsn (label : string)
| CAddComment (comment : string)
| CSetTrampolinesEnabled (en : bool)
| CSetTrampolineStride (s : Z).

Definition exec (o : MapOrder) (c : BuilderCall) (b : Block) : option Block :=
  match c with
  | CInstr opcode dst src offset imm annotation =>
      snd <$> Instr o opcode dst src offset imm annotation b
  | CInstrWithOffsetFixup opcode dst src offsetLabel imm =>
      snd <$> InstrWithOffsetFixup o opcode dst src offsetLabel imm b
  | CLoadImm64 dst imm => Block.LoadImm64 o dst imm b
  | CLoadMapFD dst fd => Block.LoadMapFD o dst fd b
  | CJumpNoTrampoline endLabel => Some (JumpNoTrampoline endLabel b)
  | CLabelNextInsn label => LabelNextInsn label b
  | CAddComment comment => Some (AddComment comment b)
  | CSetTrampolinesEnabled en => Some (SetTrampolinesEnabled en b)
  | CSetTrampolineStride s => Some (SetTrampolineStride s b)
  end.

(** A run of calls; [os k] is the map order met by the [k]-th call. *)
Fixpoint run (os : nat → MapOrder) (cs : list BuilderCall) (b : Block)
  : option Block :=
  match cs with
  | [] => Some b
  | c :: cs' => b ← exec (os 0%nat) c b; run (fun k => os (S k)) cs' b
  end.

(** A whole assembly: build from a fresh block, then [Assemble]. *)
Definition assemble (os : nat → MapOrder) (o : MapOrder) (debug : bool)
    (cs : list BuilderCall) : option (option Insns * option error) :=
  b ← run os cs (NewBlock debug); Assemble o b.

(** One call of any method of the block. *)
Inductive MethodCall :=
| CBuild (c : BuilderCall)
| CReserveInstructionCapacity (n : Z).

Definition call (o : MapOrder) (m : MethodCall) (b : Block) : option Block :=
  match m with
  | CBuild c => exec o c b
  | CReserveInstructionCapacity n => ReserveInstructionCapacity n b
  end.

(** A run of method calls; [os k] is the map order met by the [k]-th
    call. *)
Fixpoint calls (os : nat → MapOrder) (ms : list MethodCall) (b : Block)
  : option Block :=
  match ms with
  | [] => Some b
  | m :: ms' => b ← call (os 0%nat) m b; calls (fun k => os (S k)) ms' b
  end.

(** The call asks for no capacity beyond what [make] accepts. *)
Definition fits (m : MethodCall) : bool :=
  match m with
  | CBuild _ => true
  | CReserveInstructionCapacity n => n <=? maxInsnsCap
  end.

(** The builder calls of a run of method calls, in order. *)
Fixpoint builds (ms : list MethodCall) : list BuilderCall :=
  match ms with
  | [] => []
  | CBuild c :: ms' => c :: builds ms'
  | CReserveInstructionCapacity _ :: ms' => builds ms'
  end.

(** ** Vocabulary of the specification *)

(** Reachability of the next instruction in the words of the
    specification, to be compared with [nextInsnReachable]. *)
Definition reachable (b : Block) : Prop :=
  length (insns b) = 0%nat
  ∨ (∃ prev, last (insns b) = Some prev
             ∧ Insn.OpCode prev ≠ JumpA ∧ Insn.OpCode prev ≠ Exit)
  ∨ (∃ l, l ∈ slice_at (insnIdxToLabels b) (length (insns b))
          ∧ l ∈ inUseJumpTargets b).

(** The relative offset of a jump at index [i] to a label bound at [t]. *)
Definition jump_offset (t i : nat) : Z := Z.of_nat t - Z.of_nat i - 1.

Definition offset_ok (offset : Z) : Prop :=
  offset ≠ -1 ∧ MinInt16 ≤ offset ≤ MaxInt16.

(** The two errors the specification calls RangeError, and the one it
    calls UnboundLabelError, possibly wrapped by [LabelNextInsn]. *)
Fixpoint is_RangeError (e : error) : Prop :=
  match e with
  | ErrSameInsn _ _ | ErrExceedRange _ _ => True
  | ErrLabelFixups _ _ cause => is_RangeError cause
  | ErrMissingLabel _ => False
  end.

Fixpoint is_UnboundLabelError (e : error) : Prop :=
  match e with
  | ErrMissingLabel _ => True
  | ErrLabelFixups _ _ cause => is_UnboundLabelError cause
  | _ => False
  end.

(** All the fix-ups [fs] of a label bound at [t], applied in order. *)
Definition patch_all (t : nat) (fs : list fixUp) (ns : list Insn)
  : list Insn :=
  foldl (fun ns f =>
           alter (patch_offset (jump_offset t (origInsnIdx f)))
             (origInsnIdx f) ns) ns fs.

(** The bytes of an instruction outside its offset field. *)
Definition skeleton (n : Insn) : vec Z 8 := PutUint16_2_4 (Instruction n) 0.

(** Every pending fix-up points at an emitted instruction, and no
    instruction is awaited under two labels. *)
Definition wf (b : Block) : Prop :=
  (∀ L fs f, fixUps b !! L = Some fs → f ∈ fs →
             (origInsnIdx f < length (insns b))%nat)
  ∧ (∀ L1 L2 fs1 fs2 f, fixUps b !! L1 = Some fs1 → fixUps b !! L2 = Some fs2 →
                        f ∈ fs1 → f ∈ fs2 → L1 = L2).

(** [b'] continues [b]: the instructions of [b] are still there, up to
    their offset fields, and a latched error has stayed. *)
Definition extends (b b' : Block) : Prop :=
  skeleton <$> insns b `prefix_of` skeleton <$> insns b'
  ∧ (∀ e, deferredErr b = Some e → deferredErr b' = Some e).

(** A pending entry that [applyFixUps] resolves without error: its label
    is bound and every offset fits (or there is nothing to resolve). *)
Definition resolvable (b : Block) (L : string) : Prop :=
  match labelToInsnIdx b !! L with
  | Some t =>
      Forall (fun f => offset_ok (jump_offset t (origInsnIdx f)))
        (slice_at (fixUps b) L)
  | None => slice_at (fixUps b) L = []
  end.

#[global] Instance offset_ok_dec off : Decision (offset_ok off).
Proof. unfold offset_ok. apply _. Defined.

(** A method that keeps [wf], continues the block and never panics. *)
Definition safe (f : Block → option Block) : Prop :=
  ∀ b, wf b → ∃ b', f b = Some b' ∧ wf b' ∧ extends b b'.

(** The block after the two map writes of [LabelNextInsn], before the
    fix-ups of the label are applied. *)
Definition bind_label (label : string) (b : Block) : Block :=
  with_insnIdxToLabels
    (<[length (insns b) :=
         slice_at (insnIdxToLabels b) (length (insns b)) ++ [label]]>
       (insnIdxToLabels b))
    (with_labelToInsnIdx (<[label := length (insns b)]> (labelToInsnIdx b)) b).

(** A filler instruction: a plain [Instr] call whose opcode byte is
    neither [JumpA] nor [Exit], so that control falls through it, nor the
    continuation marker of [LoadImm64]. *)
Definition filler (c : BuilderCall) : Prop :=
  match c with
  | CInstr opcode _ _ _ _ _ =>
      uint8 opcode ≠ JumpA ∧ uint8 opcode ≠ Exit ∧ uint8 opcode ≠ LoadImm64Pt2
  | _ => False
  end.

(** A forward jump over the instructions [fill]: the builder is configured,
    a conditional jump to "L" is emitted, then [fill], then "L" is bound
    in front of a final [Exit]. *)
Definition long_jump (en : bool) (s : Z) (jump ra rb : Z)
    (fill : list BuilderCall) : list BuilderCall :=
  CSetTrampolinesEnabled en :: CSetTrampolineStride s
    :: CInstrWithOffsetFixup jump ra rb "L" 0
    :: fill ++ [CLabelNextInsn "L"; CInstr Exit 0 0 0 0 ""].

(** The block while the jump to "L" is pending and trampolines are on:
    the one fix-up [i], the jump itself or the latest relay, is not older
    than the last trampoline, which is at most a stride behind. *)
Definition tramp_inv (st : Z) (b : Block) (i : nat) : Prop :=
  trampolinesEnabled b = true ∧ trampolineStride b = st
  ∧ deferredErr b = None
  ∧ fixUps b = {["L" := [mkFixUp i]]}
  ∧ "L" ∈ inUseJumpTargets b
  ∧ (lastTrampolineAddr b ≤ i < length (insns b))%nat
  ∧ Z.of_nat (length (insns b)) - Z.of_nat (lastTrampolineAddr b)
    ≤ Z.max st 3
  ∧ ∃ prev, last (insns b) = Some prev
            ∧ Insn.OpCode prev ≠ JumpA ∧ Insn.OpCode prev ≠ Exit.

(** The same while trampolines are off: the fix-up is the jump at 0. *)
Definition plain_inv (b : Block) (k : nat) : Prop :=
  trampolinesEnabled b = false
  ∧ deferredErr b = None
  ∧ fixUps b = {["L" := [mkFixUp 0]]}
  ∧ length (insns b) = S k
  ∧ ∃ prev, last (insns b) = Some prev
            ∧ Insn.OpCode prev ≠ JumpA ∧ Insn.OpCode prev ≠ Exit.

(** Two blocks that differ at most in their trampoline stride. *)
Definition same_but_stride (b b' : Block) : Prop :=
  insns b' = insns b ∧ fixUps b' = fixUps b
  ∧ labelToInsnIdx b' = labelToInsnIdx b
  ∧ insnIdxToLabels b' = insnIdxToLabels b
  ∧ insnIdxToComments b' = insnIdxToComments b
  ∧ inUseJumpTargets b' = inUseJumpTargets b
  ∧ policyDebugEnabled b' = policyDebugEnabled b
  ∧ trampolinesEnabled b' = trampolinesEnabled b
  ∧ trampolineIdx b' = trampolineIdx b
  ∧ lastTrampolineAddr b' = lastTrampolineAddr b
  ∧ deferredErr b' = deferredErr b
  ∧ NumJumps b' = NumJumps b.

(** The map orders used in examples: as enumerated, and reversed. *)
Definition in_order : MapOrder := fun l => l.
Definition backwards : MapOrder := fun l => reverse l.

(** ** Proof tactics *)

(** Projections of an updated block. *)
Ltac blk :=
  cbn [insns fixUps labelToInsnIdx insnIdxToLabels insnIdxToComments
       inUseJumpTargets policyDebugEnabled trampolinesEnabled trampolineIdx
       lastTrampolineAddr deferredErr NumJumps trampolineStride
       with_insns with_fixUps with_labelToInsnIdx with_insnIdxToLabels
       with_insnIdxToComments with_inUseJumpTargets with_trampolinesEnabled
       with_trampolineIdx with_lastTrampolineAddr with_deferredErr
       with_NumJumps with_trampolineStride] in *.

(** Bit-by-bit equality of two integers built from masks and shifts. *)
Ltac bit_cases :=
  repeat match goal with
  | |- context [?a <? ?b] => destruct (Z.ltb_spec a b)
  end;
  try lia;
  repeat match goal with
  | |- context [Z.testbit ?a ?n] => rewrite (Z.testbit_neg_r a n) by lia
  | |- context [Z.testbit (?a ≫ ?k) ?n] => rewrite (Z.shiftr_spec a k n) by lia
  end;
  rewrite ?Z.add_simpl_r, ?Z.sub_simpl_r, ?Z.bits_0;
  repeat match goal with
  | |- context [Z.testbit ?a ?i] => destruct (Z.testbit a i)
  end;
  try reflexivity.

Ltac bits :=
  apply Z.bits_inj'; intros ?i ?Hi;
  repeat (first
    [ rewrite Z.land_spec | rewrite Z.lor_spec
    | rewrite Z.testbit_mod_pow2 by lia
    | rewrite Z.testbit_ones_nonneg by lia
    | rewrite Z.shiftl_spec by lia
    | rewrite Z.shiftr_spec by lia ]);
  bit_cases.

(** ** Vocabulary of the invariants *)

(** The instruction [n'] is [n], possibly with its offset field written. *)
Definition patched (n n' : Insn) : Prop :=
  n' = n ∨ ∃ off, n' = patch_offset off n.

(** Two blocks that agree on everything but the trampoline bookkeeping
    and the comments kept for the debug output. *)
Definition same_core (b b' : Block) : Prop :=
  insns b' = insns b ∧ fixUps b' = fixUps b
  ∧ labelToInsnIdx b' = labelToInsnIdx b
  ∧ insnIdxToLabels b' = insnIdxToLabels b
  ∧ inUseJumpTargets b' = inUseJumpTargets b
  ∧ policyDebugEnabled b' = policyDebugEnabled b
  ∧ deferredErr b' = deferredErr b
  ∧ NumJumps b' = NumJumps b.

(** A method under which the property [P] of well-formed blocks is kept. *)
Definition keeps (P : Block → Prop) (f : Block → option Block) : Prop :=
  ∀ b b', wf b → P b → f b = Some b' → P b'.

(** The test [addInsnWithOffsetFixupNoTrampoline] makes before it counts
    an instruction in [NumJumps]. *)
Definition is_jump (n : Insn) : bool :=
  (Insn.OpClass n =? OpClassJump64) || (Insn.OpClass n =? OpClassJump32).

(** [NumJumps] counts the instructions of the two jump classes. *)
Definition jumps_counted (b : Block) : Prop :=
  NumJumps b = length (filter (fun n => is_jump n = true) (insns b)).

(** Every pending entry is a non-empty list of fix-ups under a non-empty
    label that is marked as in use. *)
Definition pending_used (b : Block) : Prop :=
  ∀ L fs, fixUps b !! L = Some fs →
          fs ≠ [] ∧ L ≠ "" ∧ L ∈ inUseJumpTargets b.

(** The two label maps agree, and no label is bound beyond the position
    of the next instruction. *)
Definition labels_bound (b : Block) : Prop :=
  (∀ L t, labelToInsnIdx b !! L = Some t →
          (t ≤ length (insns b))%nat ∧ L ∈ slice_at (insnIdxToLabels b) t)
  ∧ (∀ i ls, insnIdxToLabels b !! i = Some ls → (i ≤ length (insns b))%nat).

(** An instruction without its debug fields, a block without its debug
    state, and a call without its debug argument. *)
Definition strip (n : Insn) : Insn := mkInsn (Instruction n) [] [] "".

Definition erase (b : Block) : Block :=
  mkBlock (strip <$> insns b) (fixUps b) (labelToInsnIdx b)
    (insnIdxToLabels b) ∅ (inUseJumpTargets b) false
    (trampolinesEnabled b) (trampolineIdx b) (lastTrampolineAddr b)
    (deferredErr b) (NumJumps b) (trampolineStride b).

Definition erase_call (c : BuilderCall) : BuilderCall :=
  match c with
  | CInstr opcode dst src offset imm _ => CInstr opcode dst src offset imm ""
  | CAddComment _ => CAddComment ""
  | c => c
  end.

Definition strip_result (r : option Insns * option error)
  : option Insns * option error :=
  ((fun ns : list Insn => strip <$> ns) <$> r.1, r.2).

(** No instruction in the block carries labels or comments yet, and the
    block was created with the given debug flag. *)
Definition undecorated (debug : bool) (b : Block) : Prop :=
  policyDebugEnabled b = debug
  ∧ Forall (fun n => Labels n = [] ∧ Comments n = []) (insns b).

(** ** Programs without labels *)

(** Control does not fall through an unconditional jump or an exit. *)
Definition ends_flow (n : Insn) : bool :=
  (Insn.OpCode n =? JumpA) || (Insn.OpCode n =? Exit).

(** The calls that emit instructions without naming a label, and the
    calls that configure the builder. *)
Definition plain_call (c : BuilderCall) : Prop :=
  match c with
  | CInstr _ _ _ _ _ _ | CLoadImm64 _ _ | CLoadMapFD _ _
  | CSetTrampolinesEnabled _ | CSetTrampolineStride _ => True
  | _ => False
  end.

(** The instructions a call asks for. *)
Definition insns_of (c : BuilderCall) : list Insn :=
  match c with
  | CInstr opcode dst src offset imm annotation =>
      [with_Annotation annotation (MakeInsn opcode dst src offset imm)]
  | CLoadImm64 dst imm =>
      [with_Annotation "" (MakeInsn LoadImm64 dst 0 0 (int32 imm));
       with_Annotation "" (MakeInsn LoadImm64Pt2 0 0 0 (int32 (imm ≫ 32)))]
  | CLoadMapFD dst fd =>
      [with_Annotation "" (MakeInsn LoadImm64 dst RPseudoMapFD 0 (int32 fd));
       with_Annotation "" (MakeInsn LoadImm64Pt2 0 0 0 0)]
  | _ => []
  end.

(** What a program without labels keeps of the instructions asked for:
    everything up to and including the first one that ends the flow. *)
Fixpoint straight (ns : list Insn) : list Insn :=
  match ns with
  | [] => []
  | n :: ns' => n :: (if ends_flow n then [] else straight ns')
  end.

(** A block without labels, pending fix-ups, comments or latched error. *)
Definition bare (b : Block) : Prop :=
  fixUps b = ∅ ∧ labelToInsnIdx b = ∅ ∧ insnIdxToLabels b = ∅
  ∧ insnIdxToComments b = ∅ ∧ deferredErr b = None.

(** ** The control flow of the assembled program *)

(** The index at which the jump at index [i] lands: the program counter
    is advanced by one more than the offset. *)
Definition lands (ns : list Insn) (i : nat) : option nat :=
  n ← ns !! i;
  let t := Z.of_nat i + 1 + Insn.Off n in
  if t <? 0 then None else Some (Z.to_nat t).

(** Where control ends up from index [i], following unconditional jumps
    until the first other instruction. *)
Fixpoint follow (fuel : nat) (ns : list Insn) (i : nat) : option nat :=
  match fuel with
  | O => None
  | S fuel =>
      n ← ns !! i;
      if Insn.OpCode n =? JumpA then t ← lands ns i; follow fuel ns t
      else Some i
  end.

(** Where control ends up when the jump at [i] is taken. *)
Definition taken (fuel : nat) (ns : list Insn) (i : nat) : option nat :=
  t ← lands ns i; follow fuel ns t.

(** The instructions met from index [i] on when no conditional jump is
    taken, up to the first exit; unconditional jumps are taken and not
    listed. *)
Fixpoint fall (fuel : nat) (ns : list Insn) (i : nat) : list Insn :=
  match fuel with
  | O => []
  | S fuel =>
      match ns !! i with
      | None => []
      | Some n =>
          if Insn.OpCode n =? JumpA then
            match lands ns i with
            | Some t => fall fuel ns t
            | None => []
            end
          else n :: (if Insn.OpCode n =? Exit then [] else fall fuel ns (S i))
      end
  end.

(** The list [ns'] begins with the instructions [ns], up to the offset
    field of the instruction at [i]. *)
Definition agree (ns : list Insn) (i : nat) (ns' : list Insn) : Prop :=
  ∀ k n, ns !! k = Some n →
         ∃ n', ns' !! k = Some n' ∧ skeleton n' = skeleton n
               ∧ (k ≠ i → Instruction n' = Instruction n).

(** Whatever offset the pending jump at [i] is given later, taking the
    jump at 0 leads to where taking the jump at [i] leads. *)
Definition chain_inv (ns : list Insn) (i : nat) : Prop :=
  ∀ ns' fuel T,
    agree ns i ns' → taken fuel ns' i = Some T →
    ∃ fuel', taken fuel' ns' 0 = Some T.

(** Whatever offset the pending jump at [i] is given later, falling
    through from 0 meets the jump [J] and the instructions [done], and
    arrives behind the instructions emitted so far. *)
Definition fall_inv (J : Insn) (done : list Insn) (ns : list Insn) (i : nat)
  : Prop :=
  ∀ ns',
    agree ns i ns' →
    ∃ fuel0 n0 rest,
      skeleton n0 = skeleton J
      ∧ Instruction <$> rest = Instruction <$> done
      ∧ ∀ fuel, fall (fuel0 + fuel) ns' 0
                = n0 :: rest ++ fall fuel ns' (length ns).

(** ** A label that is never bound *)

(** A jump to "L" followed by plain instructions; "L" is not bound. *)
Definition dangling (en : bool) (s jump ra rb : Z)
    (fill : list BuilderCall) : list BuilderCall :=
  CSetTrampolinesEnabled en :: CSetTrampolineStride s
    :: CInstrWithOffsetFixup jump ra rb "L" 0 :: fill.

(** The stride in force after [SetTrampolineStride s] on a fresh block. *)
Definition stride_of (s : Z) : Z :=
  if (s >? 0) && (s <? 1 ≪ 14) then s else TrampolineStrideDefault.

(** After [k] plain instructions behind the jump: either no trampoline
    has been written yet and "L" is unbound, or one has, and "L" is bound
    to the pending relay [i] itself. *)
Definition dangling_inv (st : Z) (k : nat) (b : Block) (i : nat) : Prop :=
  (lastTrampolineAddr b = 0%nat ∧ length (insns b) = S k
   ∧ Z.of_nat (S k) ≤ st ∧ labelToInsnIdx b !! "L" = None)
  ∨ (lastTrampolineAddr b ≠ 0%nat ∧ st ≤ Z.of_nat k
     ∧ labelToInsnIdx b !! "L" = Some i).

(** ** More invariants *)

(** The fix-ups pending under each label are in the order in which their
    jumps were emitted. *)
Definition fixups_sorted (b : Block) : Prop :=
  ∀ L fs, fixUps b !! L = Some fs →
          StronglySorted lt (origInsnIdx <$> fs).

(** The instructions [ns0] are still in the block, at most with their
    offset fields written. *)
Definition kept (ns0 : list Insn) (b : Block) : Prop :=
  ∀ k n, ns0 !! k = Some n →
         ∃ n', insns b !! k = Some n' ∧ patched n n'.

(** ** A jump back *)

(** A loop: "L" is bound in front of plain instructions, and a jump to
    "L" closes the block. *)
Definition loop_back (en : bool) (s jump ra rb : Z)
    (fill : list BuilderCall) : list BuilderCall :=
  CSetTrampolinesEnabled en :: CSetTrampolineStride s :: CLabelNextInsn "L"
    :: fill ++ [CInstrWithOffsetFixup jump ra rb "L" 0].

(** The block while the body of the loop is emitted: "L" is bound to the
    first instruction and nothing is pending. *)
Definition bound_inv (b : Block) (done : list Insn) : Prop :=
  fixUps b = ∅ ∧ deferredErr b = None
  ∧ labelToInsnIdx b !! "L" = Some 0%nat
  ∧ insns b = done ∧ nextInsnReachable b = true.

(** ** Dead code between an exit and a label *)

Definition is_Instr (c : BuilderCall) : Prop :=
  match c with
  | CInstr _ _ _ _ _ _ => True
  | _ => False
  end.

(** A conditional jump to "L", plain instructions and an [Exit], then
    instructions that no jump reaches, then "L" in front of a final
    [Exit]; trampolines are off. *)
Definition skip_dead (s jump ra rb : Z) (fill dead : list BuilderCall)
  : list BuilderCall :=
  CSetTrampolinesEnabled false :: CSetTrampolineStride s
    :: CInstrWithOffsetFixup jump ra rb "L" 0
    :: fill ++ CInstr Exit 0 0 0 0 ""
    :: dead ++ [CLabelNextInsn "L"; CInstr Exit 0 0 0 0 ""].

(** ** A trampoline for several labels *)

(** The block [bj] while [writeTrampoline] walks the pending labels of
    [b]: the jump over the relays is emitted and pending under [sk]; each
    label already visited has its relay as only fix-up, and its earlier
    jumps land on that relay; the labels to come are as in [b]. *)
Definition relay_inv (b : Block) (sk : string) (done : list string)
    (bj : Block) : Prop :=
  let t := length (insns b) in
  wf bj
  ∧ length (insns bj) = (t + 1 + length done)%nat
  ∧ deferredErr bj = deferredErr b
  ∧ inUseJumpTargets b ⊆ inUseJumpTargets bj
  ∧ fixUps bj !! sk = Some [mkFixUp t]
  ∧ (∀ p L, done !! p = Some L →
            fixUps bj !! L = Some [mkFixUp (t + 1 + p)])
  ∧ (∀ L, L ∉ done → L ≠ sk → fixUps bj !! L = fixUps b !! L)
  ∧ (∀ p L fs f,
       done !! p = Some L → fixUps b !! L = Some fs → f ∈ fs →
       lands (insns bj) (origInsnIdx f) = Some (t + 1 + p)%nat)
  ∧ (∀ p L, done !! p = Some L →
            Insn.OpCode <$> insns bj !! (t + 1 + p)%nat = Some JumpA)
  ∧ Insn.OpCode <$> insns bj !! t = Some JumpA.

(** The fix-ups pending in [b] are near enough for a trampoline written
    now: each is within reach of the last relay. *)
Definition in_reach (b : Block) : Prop :=
  ∀ L fs f, fixUps b !! L = Some fs → f ∈ fs →
    Z.of_nat (length (insns b)) + Z.of_nat (size (fixUps b))
    - Z.of_nat (origInsnIdx f) ≤ MaxInt16.

(** * Properties *)

(** ** Instruction encoding *)

Lemma uint8_int a : uint8 (int a) = uint8 a.
Proof.
  unfold uint8, int.
  pose proof (Z.div_mod (a + 2 ^ 63) (2 ^ 64) ltac:(lia)) as Hdm.
  replace ((a + 2 ^ 63) `mod` 2 ^ 64 - 2 ^ 63)
    with (a + (- ((a + 2 ^ 63) `div` 2 ^ 64) * 2 ^ 56) * 2 ^ 8) by lia.
  apply Z_mod_plus_full.
Qed.

Lemma packed_byte dst src :
  uint8 (Z.lor (int (src ≪ 4)) dst)
  = Z.lor ((src ≪ 4) mod 2 ^ 8) (dst mod 2 ^ 8).
Proof.
  unfold uint8 at 1.
  rewrite <- (Z.land_ones _ 8) by lia.
  rewrite Z.land_lor_distr_l, !Z.land_ones by lia.
  fold (uint8 (int (src ≪ 4))). now rewrite uint8_int.
Qed.

Lemma packed_byte_low dst src :
  Z.land (uint8 (Z.lor (int (src ≪ 4)) dst)) 15 = dst mod 2 ^ 4.
Proof. rewrite packed_byte. change 15 with (Z.ones 4). bits. Qed.

Lemma packed_byte_high dst src :
  Z.land (uint8 (Z.lor (int (src ≪ 4)) dst) ≫ 4) 15
  = Z.lor src (dst ≫ 4) mod 2 ^ 4.
Proof. rewrite packed_byte. change 15 with (Z.ones 4). bits. Qed.

Lemma packed_byte_value dst src :
  0 ≤ dst ≤ 15 → 0 ≤ src ≤ 15 →
  uint8 (Z.lor (int (src ≪ 4)) dst) = dst + 16 * src.
Proof.
  intros Hd Hs. rewrite packed_byte.
  assert (Hl : Z.land (src ≪ 4) dst = 0).
  { replace dst with (dst mod 2 ^ 4) by (apply Z.mod_small; lia). bits. }
  rewrite (Z.mod_small dst) by lia.
  rewrite (Z.mod_small (src ≪ 4)) by (rewrite Z.shiftl_mul_pow2; lia).
  rewrite <- Z.lxor_lor, <- Z.add_nocarry_lxor by exact Hl.
  rewrite Z.shiftl_mul_pow2; lia.
Qed.

Lemma little_endian_16 v :
  Z.lor (uint8 v) (uint8 (v ≫ 8) ≪ 8) = v mod 2 ^ 16.
Proof. unfold uint8. bits. Qed.

Lemma little_endian_32 v :
  Z.lor (Z.lor (Z.lor (uint8 v) (uint8 (v ≫ 8) ≪ 8)) (uint8 (v ≫ 16) ≪ 16))
        (uint8 (v ≫ 24) ≪ 24) = v mod 2 ^ 32.
Proof. unfold uint8. bits. Qed.

Lemma int16_uint16 v : MinInt16 ≤ v ≤ MaxInt16 → int16 (uint16 v) = v.
Proof.
  unfold int16, uint16, MinInt16, MaxInt16. intros Hv.
  rewrite Zplus_mod_idemp_l. rewrite Z.mod_small; lia.
Qed.

Lemma int32_uint32 v : - 2 ^ 31 ≤ v < 2 ^ 31 → int32 (uint32 v) = v.
Proof.
  unfold int32, uint32. intros Hv.
  rewrite Zplus_mod_idemp_l. rewrite Z.mod_small; lia.
Qed.

Lemma uint16_idemp v : uint16 (uint16 v) = uint16 v.
Proof. unfold uint16. apply Z.mod_mod. lia. Qed.

Lemma Uint16_PutUint16 bs v :
  Uint16_2_4 (PutUint16_2_4 bs v) = uint16 v.
Proof.
  inv_vec bs; intros. apply little_endian_16.
Qed.

Lemma MakeInsn_bytes opcode dst src offset imm :
  Instruction (MakeInsn opcode dst src offset imm)
  = [# uint8 opcode; uint8 (Z.lor (int (src ≪ 4)) dst);
       uint8 (uint16 offset); uint8 (uint16 offset ≫ 8);
       uint8 (uint32 imm); uint8 (uint32 imm ≫ 8);
       uint8 (uint32 imm ≫ 16); uint8 (uint32 imm ≫ 24)].
Proof. reflexivity. Qed.

Lemma MakeInsn_OpCode opcode dst src offset imm :
  Insn.OpCode (MakeInsn opcode dst src offset imm) = uint8 opcode.
Proof. reflexivity. Qed.

Lemma MakeInsn_Dst opcode dst src offset imm :
  Insn.Dst (MakeInsn opcode dst src offset imm) = dst mod 2 ^ 4.
Proof. apply packed_byte_low. Qed.

Lemma MakeInsn_Src opcode dst src offset imm :
  Insn.Src (MakeInsn opcode dst src offset imm)
  = Z.lor src (dst ≫ 4) mod 2 ^ 4.
Proof. apply packed_byte_high. Qed.

Lemma MakeInsn_Off opcode dst src offset imm :
  Insn.Off (MakeInsn opcode dst src offset imm) = int16 (uint16 offset).
Proof.
  unfold Insn.Off, Uint16_2_4, MakeInsn. cbn [Instruction].
  change (int16 (Z.lor (uint8 (uint16 offset))
                       (uint8 (uint16 offset ≫ 8) ≪ 8))
          = int16 (uint16 offset)).
  rewrite little_endian_16. fold (uint16 (uint16 offset)).
  now rewrite uint16_idemp.
Qed.

Lemma MakeInsn_Imm opcode dst src offset imm :
  Insn.Imm (MakeInsn opcode dst src offset imm) = int32 (uint32 imm).
Proof.
  unfold Insn.Imm, Uint32_4_8, MakeInsn. cbn [Instruction].
  change (int32 (Z.lor (Z.lor (Z.lor (uint8 (uint32 imm))
                                     (uint8 (uint32 imm ≫ 8) ≪ 8))
                              (uint8 (uint32 imm ≫ 16) ≪ 16))
                       (uint8 (uint32 imm ≫ 24) ≪ 24))
          = int32 (uint32 imm)).
  rewrite little_endian_32. unfold uint32. now rewrite Z.mod_mod by lia.
Qed.

(** ** The reachability filter *)

Lemma opcode_JumpA : JumpA = 5.
Proof. reflexivity. Qed.

Lemma opcode_Exit : Exit = 149.
Proof. reflexivity. Qed.

Lemma opcode_LoadImm64 : LoadImm64 = 24.
Proof. reflexivity. Qed.

Lemma last_length_0 {A} (l : list A) : last l = None ↔ length l = 0%nat.
Proof.
  rewrite last_None. split; [intros ->; reflexivity|].
  destruct l; [reflexivity | discriminate].
Qed.

Lemma labels_in_use_exists (b : Block) (ls : list string) :
  existsb (fun l => bool_decide (l ∈ inUseJumpTargets b)) ls = true
  ↔ ∃ l, l ∈ ls ∧ l ∈ inUseJumpTargets b.
Proof.
  rewrite existsb_exists. split; intros (l & Hl & Hin); exists l.
  - split; [now apply list_elem_of_In | now apply bool_decide_eq_true in Hin].
  - split; [now apply list_elem_of_In | now apply bool_decide_eq_true].
Qed.

Lemma nextInsnReachable_reachable b :
  nextInsnReachable b = true ↔ reachable b.
Proof.
  unfold nextInsnReachable, reachable.
  destruct (last (insns b)) as [prev|] eqn:Hlast.
  - assert (Hlen : length (insns b) ≠ 0%nat).
    { intros H0. apply last_length_0 in H0. congruence. }
    destruct (Z.eqb_spec (Insn.OpCode prev) JumpA) as [HJ|HJ];
      [|destruct (Z.eqb_spec (Insn.OpCode prev) Exit) as [HE|HE]]; cbn [orb].
    + rewrite labels_in_use_exists. split; [auto|].
      intros [H0|[(p & Hp & HpJ & _)|H]]; [done| |done]. congruence.
    + rewrite labels_in_use_exists. split; [auto|].
      intros [H0|[(p & Hp & _ & HpE)|H]]; [done| |done]. congruence.
    + split; [|done]. intros _. right; left. eauto.
  - split; [|done]. intros _. left. now apply last_length_0.
Qed.

Lemma NoTrampoline_unreachable insn targetLabel b :
  nextInsnReachable b = false →
  addInsnWithOffsetFixupNoTrampoline insn targetLabel b
  = with_insnIdxToLabels (delete (length (insns b)) (insnIdxToLabels b))
      (with_labelToInsnIdx
         (foldl (fun m l => delete l m) (labelToInsnIdx b)
            (slice_at (insnIdxToLabels b) (length (insns b)))) b).
Proof.
  intros H. unfold addInsnWithOffsetFixupNoTrampoline. now rewrite H.
Qed.

(** What the reachable branch does to each field of the block. *)
Lemma NoTrampoline_reachable insn targetLabel b :
  nextInsnReachable b = true →
  let b' := addInsnWithOffsetFixupNoTrampoline insn targetLabel b in
  (∃ insn', insns b' = insns b ++ [insn']
            ∧ Instruction insn' = Instruction insn)
  ∧ fixUps b'
    = (if bool_decide (targetLabel ≠ "") then
         <[targetLabel := slice_at (fixUps b) targetLabel
                          ++ [mkFixUp (length (insns b))]]> (fixUps b)
       else fixUps b)
  ∧ inUseJumpTargets b'
    = (if bool_decide (targetLabel ≠ "") then
         {[targetLabel]} ∪ inUseJumpTargets b
       else inUseJumpTargets b)
  ∧ labelToInsnIdx b' = labelToInsnIdx b
  ∧ insnIdxToLabels b' = insnIdxToLabels b
  ∧ insnIdxToComments b' = insnIdxToComments b
  ∧ policyDebugEnabled b' = policyDebugEnabled b
  ∧ trampolinesEnabled b' = trampolinesEnabled b
  ∧ trampolineIdx b' = trampolineIdx b
  ∧ lastTrampolineAddr b' = lastTrampolineAddr b
  ∧ deferredErr b' = deferredErr b
  ∧ trampolineStride b' = trampolineStride b.
Proof.
  intros H b'. subst b'. unfold addInsnWithOffsetFixupNoTrampoline.
  rewrite H. cbn [negb].
  assert (Hidx : (length (insns b ++ [insn]) - 1)%nat = length (insns b))
    by (rewrite length_app; cbn; lia).
  assert (Halt : alter (with_Annotation ("goto " +:+ targetLabel))
                   (length (insns b)) (insns b ++ [insn])
                 = insns b ++ [with_Annotation ("goto " +:+ targetLabel) insn]).
  { rewrite alter_app_r_alt by lia.
    now replace (length (insns b) - length (insns b))%nat with 0%nat by lia. }
  destruct (bool_decide (targetLabel ≠ "")), (policyDebugEnabled b) eqn:Hdbg,
    ((Insn.OpClass insn =? OpClassJump64) || (Insn.OpClass insn =? OpClassJump32));
    blk; rewrite ?Hdbg; blk; rewrite ?Hidx, ?Halt;
    rewrite ?length_app; cbn [length];
    rewrite ?Nat.add_sub; repeat split;
    try reflexivity; try assumption;
    eexists; (split; [reflexivity|reflexivity]).
Qed.

Lemma foldl_delete_lookup {V} (m : gmap string V) (ls : list string) l :
  foldl (fun m l => delete l m) m ls !! l
  = if bool_decide (l ∈ ls) then None else m !! l.
Proof.
  revert m. induction ls as [|x ls IH]; intros m; cbn [foldl].
  - rewrite bool_decide_eq_false_2 by apply not_elem_of_nil. reflexivity.
  - rewrite IH. destruct (decide (l = x)) as [->|Hne].
    + rewrite lookup_delete_eq.
      rewrite (bool_decide_eq_true_2 (x ∈ x :: ls)) by apply list_elem_of_here.
      now destruct (bool_decide (x ∈ ls)).
    + rewrite lookup_delete_ne by done.
      destruct (decide (l ∈ ls)) as [Hin|Hnin].
      * rewrite !bool_decide_eq_true_2; [done| |done].
        now apply list_elem_of_further.
      * rewrite !bool_decide_eq_false_2; [done| |done].
        rewrite elem_of_cons. tauto.
Qed.

(** ** Fix-ups *)

Lemma with_insns_id b : with_insns (insns b) b = b.
Proof. now destruct b. Qed.

Lemma with_insns_twice x y b : with_insns x (with_insns y b) = with_insns x b.
Proof. reflexivity. Qed.

Lemma skeleton_patch_offset off n : skeleton (patch_offset off n) = skeleton n.
Proof.
  unfold skeleton, patch_offset. cbn [Instruction with_Instruction].
  generalize (Instruction n) as bs. intros bs. inv_vec bs. reflexivity.
Qed.

Lemma patch_offset_idemp off n :
  patch_offset off (patch_offset off n) = patch_offset off n.
Proof.
  destruct n as [bs ls cs a]. unfold patch_offset, with_Instruction.
  cbn [Instruction Labels Comments Annotation].
  f_equal. inv_vec bs. reflexivity.
Qed.

Lemma skeleton_alter_patch off i (ns : list Insn) :
  skeleton <$> alter (patch_offset off) i ns = skeleton <$> ns.
Proof.
  rewrite (list_fmap_alter skeleton _ id).
  - now apply list_alter_id.
  - apply Forall_forall. intros n _. apply skeleton_patch_offset.
Qed.

Lemma patch_all_cons t f fs ns :
  patch_all t (f :: fs) ns
  = patch_all t fs
      (alter (patch_offset (jump_offset t (origInsnIdx f))) (origInsnIdx f) ns).
Proof. reflexivity. Qed.

Lemma length_patch_all t fs ns : length (patch_all t fs ns) = length ns.
Proof.
  revert ns. induction fs as [|f fs IH]; intros ns; [reflexivity|].
  rewrite patch_all_cons, IH. apply length_alter.
Qed.

Lemma skeleton_patch_all t fs ns :
  skeleton <$> patch_all t fs ns = skeleton <$> ns.
Proof.
  revert ns. induction fs as [|f fs IH]; intros ns; [reflexivity|].
  rewrite patch_all_cons, IH. apply skeleton_alter_patch.
Qed.

Lemma patch_all_lookup t fs (ns : list Insn) k :
  patch_all t fs ns !! k
  = if bool_decide (k ∈ origInsnIdx <$> fs)
    then patch_offset (jump_offset t k) <$> ns !! k
    else ns !! k.
Proof.
  revert ns. induction fs as [|f fs IH]; intros ns.
  - cbn. rewrite bool_decide_eq_false_2 by apply not_elem_of_nil. reflexivity.
  - rewrite patch_all_cons, IH, fmap_cons. clear IH.
    destruct (decide (origInsnIdx f = k)) as [<-|Hne].
    + rewrite list_lookup_alter_eq.
      rewrite (bool_decide_eq_true_2 (_ ∈ _ :: _)) by apply list_elem_of_here.
      destruct (bool_decide _); [|reflexivity].
      destruct (ns !! origInsnIdx f); [|reflexivity].
      cbn. now rewrite patch_offset_idemp.
    + rewrite list_lookup_alter_ne by done.
      destruct (decide (k ∈ origInsnIdx <$> fs)) as [Hin|Hnin].
      * rewrite !bool_decide_eq_true_2; [done| |done].
        now apply list_elem_of_further.
      * rewrite !bool_decide_eq_false_2; [done| |done].
        rewrite elem_of_cons. intros [?|?]; congruence.
Qed.

Lemma offset_ok_tests off :
  offset_ok off ↔ (off =? -1) = false
                   ∧ ((off >? MaxInt16) || (off <? MinInt16)) = false.
Proof.
  unfold offset_ok, MaxInt16, MinInt16.
  destruct (Z.eqb_spec off (-1)), (Z.gtb_spec off 32767),
    (Z.ltb_spec off (-32768)); cbn; split; intros [? ?];
    try discriminate; try lia; split; (reflexivity || lia).
Qed.

(** The loop of [applyFixUps] on fix-ups that are in range: it never
    panics, touches nothing but offset fields, and its outcome is decided
    by the binding of the label and by [offset_ok]. *)
Lemma applyFixUps_loop_spec L fs b :
  Forall (fun f => (origInsnIdx f < length (insns b))%nat) fs →
  ∃ ns err,
    applyFixUps_loop L fs b = Some (with_insns ns b, err)
    ∧ length ns = length (insns b)
    ∧ skeleton <$> ns = skeleton <$> insns b
    ∧ match labelToInsnIdx b !! L with
      | None =>
          ns = insns b
          ∧ (fs = [] ∧ err = None
             ∨ fs ≠ [] ∧ err = Some (ErrMissingLabel L))
      | Some t =>
          Forall (fun f => offset_ok (jump_offset t (origInsnIdx f))) fs
          ∧ err = None ∧ ns = patch_all t fs (insns b)
          ∨ ¬ Forall (fun f => offset_ok (jump_offset t (origInsnIdx f))) fs
            ∧ ∃ e, err = Some e ∧ is_RangeError e
      end.
Proof.
  revert b. induction fs as [|f fs IH]; intros b Hin.
  - exists (insns b), None. cbn [applyFixUps_loop]. rewrite with_insns_id.
    repeat split; try reflexivity.
    destruct (labelToInsnIdx b !! L); [left|]; repeat split; auto.
  - apply Forall_cons in Hin as [Hf Hin]. cbn [applyFixUps_loop].
    destruct (labelToInsnIdx b !! L) as [t|] eqn:Ht.
    + change (Z.of_nat t - Z.of_nat (origInsnIdx f) - 1)
        with (jump_offset t (origInsnIdx f)).
      destruct (decide (offset_ok (jump_offset t (origInsnIdx f)))) as [Hok|Hbad].
      * pose proof Hok as Hok'. apply offset_ok_tests in Hok' as [-> ->].
        destruct (lookup_lt_is_Some_2 _ _ Hf) as [n Hn]. rewrite Hn.
        set (b1 := with_insns _ b).
        destruct (IH b1) as (ns & err & Hrun & Hlen & Hskel & Hcase).
        { subst b1; blk. now rewrite length_alter. }
        exists ns, err. rewrite Hrun. subst b1; blk.
        rewrite length_alter in Hlen. rewrite skeleton_alter_patch in Hskel.
        repeat split; try assumption.
        rewrite Ht in Hcase. destruct Hcase as [(Hall & -> & ->)|(Hnall & He)].
        -- left. repeat split. now constructor.
        -- right. split; [|assumption].
           intros Hall. apply Hnall. now apply Forall_cons in Hall as [_ ?].
      * exists (insns b). rewrite with_insns_id.
        assert (Hnall : ¬ Forall (fun f => offset_ok (jump_offset t (origInsnIdx f)))
                          (f :: fs)).
        { intros Hall. apply Hbad. now apply Forall_cons in Hall as [? _]. }
        destruct (jump_offset t (origInsnIdx f) =? -1) eqn:H1.
        { eexists. repeat split; try reflexivity. right. split; [done|].
          eexists. split; [reflexivity|exact I]. }
        destruct ((jump_offset t (origInsnIdx f) >? MaxInt16)
                  || (jump_offset t (origInsnIdx f) <? MinInt16)) eqn:H2.
        { eexists. repeat split; try reflexivity. right. split; [done|].
          eexists. split; [reflexivity|exact I]. }
        exfalso. apply Hbad. apply offset_ok_tests. now split.
    + exists (insns b), (Some (ErrMissingLabel L)). rewrite with_insns_id.
      repeat split; try reflexivity. right. split; [discriminate|reflexivity].
Qed.

Lemma applyFixUps_spec L b :
  Forall (fun f => (origInsnIdx f < length (insns b))%nat)
    (slice_at (fixUps b) L) →
  ∃ ns err,
    applyFixUps L b
    = Some (with_fixUps
              (match err with
               | None => delete L (fixUps b)
               | Some _ => fixUps b
               end) (with_insns ns b), err)
    ∧ length ns = length (insns b)
    ∧ skeleton <$> ns = skeleton <$> insns b
    ∧ match labelToInsnIdx b !! L with
      | None =>
          ns = insns b
          ∧ (slice_at (fixUps b) L = [] ∧ err = None
             ∨ slice_at (fixUps b) L ≠ [] ∧ err = Some (ErrMissingLabel L))
      | Some t =>
          Forall (fun f => offset_ok (jump_offset t (origInsnIdx f)))
            (slice_at (fixUps b) L)
          ∧ err = None ∧ ns = patch_all t (slice_at (fixUps b) L) (insns b)
          ∨ ¬ Forall (fun f => offset_ok (jump_offset t (origInsnIdx f)))
                (slice_at (fixUps b) L)
            ∧ ∃ e, err = Some e ∧ is_RangeError e
      end.
Proof.
  intros Hin.
  destruct (applyFixUps_loop_spec L _ b Hin)
    as (ns & err & Hrun & Hlen & Hskel & Hcase).
  exists ns, err. unfold applyFixUps. rewrite Hrun.
  repeat split; try assumption.
  destruct err; [|reflexivity]. now destruct b.
Qed.

(** *** The invariant [wf] and the order [extends] *)

Lemma wf_NewBlock debug : wf (NewBlock debug).
Proof.
  split.
  - intros L fs f H. cbn in H. now rewrite lookup_empty in H.
  - intros L1 L2 fs1 fs2 f H. cbn in H. now rewrite lookup_empty in H.
Qed.

Lemma wf_slice b L :
  wf b →
  Forall (fun f => (origInsnIdx f < length (insns b))%nat)
    (slice_at (fixUps b) L).
Proof.
  intros [Hr _]. unfold slice_at.
  destruct (fixUps b !! L) as [fs|] eqn:HL; cbn; [|constructor].
  apply Forall_forall. intros f Hf. eauto.
Qed.

#[global] Instance extends_refl : Reflexive extends.
Proof. intros b. split; [reflexivity|auto]. Qed.

#[global] Instance extends_trans : Transitive extends.
Proof.
  intros b1 b2 b3 [Hp1 He1] [Hp2 He2]. split; [|auto].
  now transitivity (skeleton <$> insns b2).
Qed.

Lemma extends_length b b' :
  extends b b' → (length (insns b) ≤ length (insns b'))%nat.
Proof.
  intros [Hp _]. apply prefix_length in Hp. now rewrite !length_fmap in Hp.
Qed.

Lemma applyFixUps_wf L b :
  wf b →
  ∃ b' err,
    applyFixUps L b = Some (b', err)
    ∧ wf b' ∧ extends b b'
    ∧ length (insns b') = length (insns b)
    ∧ deferredErr b' = deferredErr b
    ∧ fixUps b' ⊆ fixUps b.
Proof.
  intros Hwf.
  destruct (applyFixUps_spec L b (wf_slice b L Hwf))
    as (ns & err & Hrun & Hlen & Hskel & _).
  eexists _, err. split; [exact Hrun|]. blk.
  assert (Hsub : match err with
                 | None => delete L (fixUps b)
                 | Some _ => fixUps b
                 end ⊆ fixUps b).
  { destruct err; [reflexivity|apply delete_subseteq]. }
  repeat split; blk; try assumption; try reflexivity.
  - intros L' fs f HL' Hf. rewrite Hlen.
    eapply (proj1 Hwf); [|exact Hf].
    eapply lookup_weaken; [exact HL'|exact Hsub].
  - intros L1 L2 fs1 fs2 f H1 H2 Hf1 Hf2.
    eapply (proj2 Hwf); [| |exact Hf1|exact Hf2];
      (eapply lookup_weaken; [eassumption|exact Hsub]).
  - rewrite Hskel. reflexivity.
  - auto.
Qed.

Lemma LabelNextInsn_wf label b :
  wf b →
  ∃ b',
    LabelNextInsn label b = Some b'
    ∧ wf b' ∧ extends b b'
    ∧ length (insns b') = length (insns b).
Proof.
  intros Hwf. unfold LabelNextInsn. blk.
  set (b2 := with_insnIdxToLabels _ _).
  assert (Hwf2 : wf b2) by exact Hwf.
  destruct (applyFixUps_wf label b2 Hwf2)
    as (b' & err & Hrun & Hwf' & Hext & Hlen & Herr & _).
  rewrite Hrun. cbn [mbind option_bind].
  assert (Hext0 : extends b b') by exact Hext.
  assert (Hlen0 : length (insns b') = length (insns b)) by exact Hlen.
  destruct err as [e|]; [|eauto].
  destruct (deferredErr b') eqn:Hd; [eauto|].
  eexists. split; [reflexivity|]. repeat split; blk; try apply Hwf'; auto.
  - apply Hext0.
  - intros e' He'. destruct Hext0 as [_ Hk]. apply Hk in He'. congruence.
Qed.

Lemma NoTrampoline_wf insn targetLabel b :
  wf b →
  wf (addInsnWithOffsetFixupNoTrampoline insn targetLabel b)
  ∧ extends b (addInsnWithOffsetFixupNoTrampoline insn targetLabel b).
Proof.
  intros Hwf. destruct (nextInsnReachable b) eqn:Hr.
  - destruct (NoTrampoline_reachable insn targetLabel b Hr)
      as ((insn' & Hins & Hbytes) & Hfix & _ & _ & _ & _ & _ & _ & _ & _ & Herr & _).
    set (b' := addInsnWithOffsetFixupNoTrampoline insn targetLabel b) in *.
    assert (Hlen : length (insns b') = S (length (insns b)))
      by (rewrite Hins, length_app; cbn; lia).
    split; [split|split].
    + intros L fs f HL Hf. rewrite Hlen. rewrite Hfix in HL.
      destruct (bool_decide (targetLabel ≠ "")).
      * destruct (decide (targetLabel = L)) as [->|Hne].
        -- rewrite lookup_insert_eq in HL. injection HL as <-.
           apply elem_of_app in Hf as [Hf|Hf].
           ++ apply Nat.lt_lt_succ_r. unfold slice_at in Hf.
              destruct (fixUps b !! L) eqn:HL; [|now apply not_elem_of_nil in Hf].
              eapply (proj1 Hwf); eauto.
           ++ apply list_elem_of_singleton in Hf as ->. cbn. lia.
        -- rewrite lookup_insert_ne in HL by done.
           apply Nat.lt_lt_succ_r. eapply (proj1 Hwf); eauto.
      * apply Nat.lt_lt_succ_r. eapply (proj1 Hwf); eauto.
    + intros L1 L2 fs1 fs2 f H1 H2 Hf1 Hf2. rewrite Hfix in H1, H2.
      destruct (bool_decide (targetLabel ≠ ""));
        [|eapply (proj2 Hwf); eauto].
      assert (Hold : ∀ L fs, fixUps b !! L = Some fs → f ∈ fs →
                             origInsnIdx f ≠ length (insns b)).
      { intros L fs HL Hf. pose proof (proj1 Hwf L fs f HL Hf). lia. }
      assert (Hnew : ∀ L fs, <[targetLabel := slice_at (fixUps b) targetLabel
                                  ++ [mkFixUp (length (insns b))]]> (fixUps b)
                             !! L = Some fs → f ∈ fs →
                 (∃ fs0, fixUps b !! L = Some fs0 ∧ f ∈ fs0)
                 ∨ (L = targetLabel ∧ origInsnIdx f = length (insns b))).
      { intros L fs HL Hf. destruct (decide (targetLabel = L)) as [->|Hne].
        - rewrite lookup_insert_eq in HL. injection HL as <-.
          apply elem_of_app in Hf as [Hf|Hf].
          + left. unfold slice_at in Hf.
            destruct (fixUps b !! L) eqn:HL; [eauto|now apply not_elem_of_nil in Hf].
          + right. apply list_elem_of_singleton in Hf as ->. auto.
        - rewrite lookup_insert_ne in HL by done. eauto. }
      destruct (Hnew _ _ H1 Hf1) as [(g1 & Hg1 & Hfg1)|[-> Hi1]],
        (Hnew _ _ H2 Hf2) as [(g2 & Hg2 & Hfg2)|[-> Hi2]].
      * eapply (proj2 Hwf); eauto.
      * exfalso. eapply Hold; eauto.
      * exfalso. eapply Hold; eauto.
      * reflexivity.
    + rewrite Hins, fmap_app. now apply prefix_app_r.
    + intros e He. now rewrite Herr.
  - rewrite (NoTrampoline_unreachable _ _ _ Hr).
    split; [exact Hwf|split; [reflexivity|auto]].
Qed.

(** *** Every method is [safe] *)

Lemma safe_bind (f g : Block → option Block) :
  safe f → safe g → safe (fun b => b' ← f b; g b').
Proof.
  intros Hf Hg b Hwf.
  destruct (Hf b Hwf) as (b1 & -> & Hwf1 & Hext1).
  destruct (Hg b1 Hwf1) as (b2 & Hrun & Hwf2 & Hext2).
  exists b2. cbn. split; [exact Hrun|]. split; [exact Hwf2|].
  now transitivity b1.
Qed.

Lemma safe_pure (f : Block → Block) :
  (∀ b, wf b → wf (f b) ∧ extends b (f b)) → safe (fun b => Some (f b)).
Proof. intros Hf b Hwf. exists (f b). split; [reflexivity|auto]. Qed.

Lemma safe_LabelNextInsn label : safe (LabelNextInsn label).
Proof.
  intros b Hwf. destruct (LabelNextInsn_wf label b Hwf) as (b' & ? & ? & ? & _).
  eauto.
Qed.

Lemma safe_JumpNoTrampoline label :
  safe (fun b => Some (JumpNoTrampoline label b)).
Proof. apply safe_pure. intros b. apply NoTrampoline_wf. Qed.

Lemma safe_writeTrampoline_loop labels : safe (writeTrampoline_loop labels).
Proof.
  induction labels as [|label rest IH]; intros b Hwf; cbn [writeTrampoline_loop].
  - exists b. split; [reflexivity|]. split; [assumption|reflexivity].
  - destruct (safe_LabelNextInsn label b Hwf) as (b1 & -> & Hwf1 & Hext1).
    cbn [mbind option_bind].
    destruct (NoTrampoline_wf (MakeInsn JumpA 0 0 0 0) label b1 Hwf1)
      as [Hwf2 Hext2].
    destruct (IH _ Hwf2) as (b3 & Hrun & Hwf3 & Hext3).
    exists b3. split; [exact Hrun|]. split; [assumption|].
    transitivity b1; [assumption|]. etransitivity; eassumption.
Qed.

Lemma safe_writeTrampoline o : safe (writeTrampoline o).
Proof.
  intros b Hwf. unfold writeTrampoline. blk.
  set (b0 := with_lastTrampolineAddr (length (insns b)) b).
  assert (Hwf0 : wf b0) by exact Hwf.
  assert (Hext0 : extends b b0) by (split; [reflexivity|auto]).
  destruct (size (fixUps b) =? 0)%nat; [eauto|].
  set (b1 := with_trampolineIdx _ b0).
  assert (Hwf1 : wf b1) by exact Hwf.
  assert (Hext1 : extends b b1) by (split; [reflexivity|auto]).
  destruct (NoTrampoline_wf (MakeInsn JumpA 0 0 0 0)
              ("skip-trampoline-" +:+ pretty (trampolineIdx b)) b1 Hwf1)
    as [Hwf2 Hext2].
  destruct (safe_writeTrampoline_loop
              (sort_Strings (range_keys o (fixUps b))) _ Hwf2)
    as (b3 & Hrun & Hwf3 & Hext3).
  unfold JumpNoTrampoline at 1. rewrite Hrun. cbn [mbind option_bind].
  destruct (safe_LabelNextInsn
              ("skip-trampoline-" +:+ pretty (trampolineIdx b)) b3 Hwf3)
    as (b4 & Hrun4 & Hwf4 & Hext4).
  exists b4. split; [exact Hrun4|]. split; [assumption|].
  transitivity b1; [assumption|]. transitivity b3; [|assumption].
  etransitivity; eassumption.
Qed.

Lemma safe_maybeWriteTrampoline o nextInsn :
  safe (maybeWriteTrampoline o nextInsn).
Proof.
  intros b Hwf. unfold maybeWriteTrampoline.
  destruct (negb (trampolinesEnabled b));
    [exists b; split; [reflexivity|split; [assumption|reflexivity]]|].
  destruct (_ <? _);
    [exists b; split; [reflexivity|split; [assumption|reflexivity]]|].
  destruct (_ =? _);
    [exists b; split; [reflexivity|split; [assumption|reflexivity]]|].
  now apply safe_writeTrampoline.
Qed.

Lemma safe_addInsnWithOffsetFixup o insn targetLabel :
  safe (addInsnWithOffsetFixup o insn targetLabel).
Proof.
  apply (safe_bind (maybeWriteTrampoline o insn)
           (fun b => Some (addInsnWithOffsetFixupNoTrampoline insn targetLabel b))).
  - apply safe_maybeWriteTrampoline.
  - apply safe_pure. intros b. apply NoTrampoline_wf.
Qed.

Lemma safe_add o opcode dst src offset imm annotation :
  safe (fun b => snd <$> add o opcode dst src offset imm annotation b).
Proof.
  intros b Hwf. unfold add, addInsn.
  destruct (safe_addInsnWithOffsetFixup o
              (with_Annotation annotation (MakeInsn opcode dst src offset imm))
              "" b Hwf) as (b' & -> & ? & ?).
  exists b'. cbn. auto.
Qed.

Lemma safe_addWithOffsetFixup o opcode dst src offsetLabel imm :
  safe (fun b => snd <$> addWithOffsetFixup o opcode dst src offsetLabel imm b).
Proof.
  intros b Hwf. unfold addWithOffsetFixup.
  destruct (safe_addInsnWithOffsetFixup o (MakeInsn opcode dst src 0 imm)
              offsetLabel b Hwf) as (b' & -> & ? & ?).
  exists b'. cbn. auto.
Qed.

Lemma add_pair o opcode1 dst1 src1 offset1 imm1 annotation1
    opcode2 dst2 src2 offset2 imm2 annotation2 b :
  ('(_, b) ← add o opcode1 dst1 src1 offset1 imm1 annotation1 b;
   snd <$> add o opcode2 dst2 src2 offset2 imm2 annotation2 b)
  = (b ← snd <$> add o opcode1 dst1 src1 offset1 imm1 annotation1 b;
     snd <$> add o opcode2 dst2 src2 offset2 imm2 annotation2 b).
Proof. now destruct (add o opcode1 dst1 src1 offset1 imm1 annotation1 b) as [[]|]. Qed.

Lemma safe_LoadImm64 o dst imm : safe (Block.LoadImm64 o dst imm).
Proof.
  intros b Hwf. unfold Block.LoadImm64. rewrite add_pair.
  revert b Hwf. apply safe_bind; apply safe_add.
Qed.

Lemma safe_LoadMapFD o dst fd : safe (Block.LoadMapFD o dst fd).
Proof.
  intros b Hwf. unfold Block.LoadMapFD. rewrite add_pair.
  revert b Hwf. apply safe_bind; apply safe_add.
Qed.

Lemma safe_exec o c : safe (exec o c).
Proof.
  destruct c; cbn [exec].
  - apply safe_add.
  - apply safe_addWithOffsetFixup.
  - apply safe_LoadImm64.
  - apply safe_LoadMapFD.
  - apply safe_JumpNoTrampoline.
  - apply safe_LabelNextInsn.
  - apply safe_pure. intros b Hwf. unfold AddComment.
    destruct (negb (policyDebugEnabled b));
      (split; [exact Hwf|split; [reflexivity|auto]]).
  - apply safe_pure. intros b Hwf. split; [exact Hwf|split; [reflexivity|auto]].
  - apply safe_pure. intros b Hwf. unfold SetTrampolineStride.
    destruct (_ && _); (split; [exact Hwf|split; [reflexivity|auto]]).
Qed.

Lemma safe_run os cs : safe (run os cs).
Proof.
  revert os. induction cs as [|c cs IH]; intros os b Hwf; cbn [run].
  - exists b. split; [reflexivity|]. split; [assumption|reflexivity].
  - destruct (safe_exec (os 0%nat) c b Hwf) as (b1 & -> & Hwf1 & Hext1).
    cbn [mbind option_bind].
    destruct (IH (fun k => os (S k)) b1 Hwf1) as (b2 & Hrun & Hwf2 & Hext2).
    exists b2. split; [exact Hrun|]. split; [assumption|].
    now transitivity b1.
Qed.

(** ** [Assemble] *)

Lemma applyFixUps_resolvable L b ns err :
  match labelToInsnIdx b !! L with
  | None =>
      ns = insns b
      ∧ (slice_at (fixUps b) L = [] ∧ err = None
         ∨ slice_at (fixUps b) L ≠ [] ∧ err = Some (ErrMissingLabel L))
  | Some t =>
      Forall (fun f => offset_ok (jump_offset t (origInsnIdx f)))
        (slice_at (fixUps b) L)
      ∧ err = None ∧ ns = patch_all t (slice_at (fixUps b) L) (insns b)
      ∨ ¬ Forall (fun f => offset_ok (jump_offset t (origInsnIdx f)))
            (slice_at (fixUps b) L)
        ∧ ∃ e, err = Some e ∧ is_RangeError e
  end →
  (err = None ↔ resolvable b L)
  ∧ (∀ e, err = Some e →
       e = ErrMissingLabel L ∧ labelToInsnIdx b !! L = None
       ∨ is_RangeError e ∧ is_Some (labelToInsnIdx b !! L))
  ∧ (err = None → ∀ k,
       ns !! k
       = match labelToInsnIdx b !! L with
         | Some t =>
             if bool_decide (k ∈ origInsnIdx <$> slice_at (fixUps b) L)
             then patch_offset (jump_offset t k) <$> insns b !! k
             else insns b !! k
         | None => insns b !! k
         end).
Proof.
  unfold resolvable. destruct (labelToInsnIdx b !! L) as [t|].
  - intros [(Hall & -> & ->)|(Hnall & e & -> & He)].
    + split; [tauto|]. split; [discriminate|]. intros _ k.
      apply patch_all_lookup.
    + split; [split; [discriminate|tauto]|]. split; [|discriminate].
      intros e' [= <-]. right. split; [assumption|eauto].
  - intros [-> [[Hnil ->]|[Hne ->]]].
    + split; [tauto|]. split; [discriminate|]. reflexivity.
    + split; [split; [discriminate|tauto]|]. split; [|discriminate].
      intros e' [= <-]. left. auto.
Qed.

Lemma Assemble_fixUps_spec labels b :
  wf b → NoDup labels →
  ∃ b' err,
    Assemble_fixUps labels b = Some (b', err)
    ∧ (∃ ns fx, b' = with_fixUps fx (with_insns ns b))
    ∧ length (insns b') = length (insns b)
    ∧ skeleton <$> insns b' = skeleton <$> insns b
    ∧ (err = None ↔ ∀ L, L ∈ labels → resolvable b L)
    ∧ (∀ e, err = Some e →
         ∃ L, L ∈ labels ∧ ¬ resolvable b L
              ∧ (e = ErrMissingLabel L ∧ labelToInsnIdx b !! L = None
                 ∨ is_RangeError e ∧ is_Some (labelToInsnIdx b !! L)))
    ∧ (err = None →
         (∀ L, fixUps b' !! L
               = if bool_decide (L ∈ labels) then None else fixUps b !! L)
         ∧ (∀ L fs t k,
              L ∈ labels → fixUps b !! L = Some fs →
              k ∈ origInsnIdx <$> fs → labelToInsnIdx b !! L = Some t →
              insns b' !! k = patch_offset (jump_offset t k) <$> insns b !! k)
         ∧ (∀ k,
              (∀ L fs, L ∈ labels → fixUps b !! L = Some fs →
                       k ∉ origInsnIdx <$> fs) →
              insns b' !! k = insns b !! k)).
Proof.
  revert b. induction labels as [|L1 rest IH]; intros b Hwf Hnd.
  - exists b, None. cbn [Assemble_fixUps].
    split; [reflexivity|]. split; [exists (insns b), (fixUps b); now destruct b|].
    split; [reflexivity|]. split; [reflexivity|].
    split; [split; [intros _ L HL; now apply not_elem_of_nil in HL|done]|].
    split; [discriminate|]. intros _. split; [|split].
    + intros L. now rewrite bool_decide_eq_false_2 by apply not_elem_of_nil.
    + intros L fs t k HL. now apply not_elem_of_nil in HL.
    + reflexivity.
  - apply NoDup_cons in Hnd as [HL1 Hnd]. cbn [Assemble_fixUps].
    destruct (applyFixUps_spec L1 b (wf_slice b L1 Hwf))
      as (ns1 & err1 & Hrun1 & Hlen1 & Hskel1 & Hcase1).
    destruct (applyFixUps_wf L1 b Hwf) as (b1' & err1' & Hrun1' & Hwf1 & _).
    rewrite Hrun1 in Hrun1'. injection Hrun1' as <- <-.
    apply applyFixUps_resolvable in Hcase1 as (Hres1 & Herr1 & Hns1).
    rewrite Hrun1. cbn [mbind option_bind].
    destruct err1 as [e1|].
    + eexists _, (Some e1). split; [reflexivity|].
      split; [eauto|]. blk. split; [assumption|]. split; [assumption|].
      split; [|split; [|discriminate]].
      * split; [discriminate|]. intros Hall. apply Hres1, Hall.
        apply list_elem_of_here.
      * intros e [= <-]. exists L1. split; [apply list_elem_of_here|].
        split; [|now apply Herr1].
        intros Hr. apply Hres1 in Hr. discriminate.
    + set (b1 := with_fixUps (delete L1 (fixUps b)) (with_insns ns1 b)) in *.
      destruct (IH b1 Hwf1 Hnd)
        as (b' & err & Hrun & (ns & fx & Hb') & Hlen & Hskel & Hres & Herr & Hok).
      assert (Hslice : ∀ L, L ∈ rest →
                slice_at (fixUps b1) L = slice_at (fixUps b) L).
      { intros L HL. subst b1; blk. unfold slice_at.
        rewrite lookup_delete_ne; [reflexivity|]. intros ->. contradiction. }
      assert (Hresolv : ∀ L, L ∈ rest → resolvable b1 L ↔ resolvable b L).
      { intros L HL. unfold resolvable. rewrite (Hslice L HL). reflexivity. }
      exists b', err. split; [exact Hrun|].
      split; [exists ns, fx; rewrite Hb'; reflexivity|].
      split; [rewrite Hlen; exact Hlen1|].
      split; [rewrite Hskel; exact Hskel1|].
      split; [|split].
      * rewrite Hres. split.
        -- intros Hall L HL. apply elem_of_cons in HL as [->|HL].
           ++ now apply Hres1.
           ++ apply Hresolv; auto.
        -- intros Hall L HL. apply Hresolv; [assumption|].
           apply Hall. now apply list_elem_of_further.
      * intros e He. destruct (Herr e He) as (L & HL & Hnr & Hcl).
        exists L. split; [now apply list_elem_of_further|].
        split; [|exact Hcl]. intros Hr. apply Hnr. now apply Hresolv.
      * intros ->. destruct (Hok eq_refl) as (Hfx & Hpatched & Hkept).
        specialize (Hns1 eq_refl).
        assert (Hfix1 : ∀ L, L ∈ rest → fixUps b1 !! L = fixUps b !! L).
        { intros L HL. subst b1; blk. rewrite lookup_delete_ne; [reflexivity|].
          intros ->. contradiction. }
        split; [|split].
        -- intros L. rewrite Hfx. destruct (decide (L = L1)) as [->|Hne].
           ++ rewrite (bool_decide_eq_true_2 (L1 ∈ L1 :: rest))
                by apply list_elem_of_here.
              destruct (bool_decide (L1 ∈ rest)); [reflexivity|].
              subst b1; blk. apply lookup_delete_eq.
           ++ destruct (decide (L ∈ rest)) as [Hin|Hnin].
              ** rewrite !bool_decide_eq_true_2; [done| |done].
                 now apply list_elem_of_further.
              ** rewrite !bool_decide_eq_false_2; [|rewrite elem_of_cons; tauto|done].
                 subst b1; blk. now apply lookup_delete_ne.
        -- intros L fs t k HL Hfs Hk Ht.
           apply elem_of_cons in HL as [->|HL].
           ++ rewrite Hkept.
              ** subst b1; blk. rewrite Hns1, Ht. unfold slice_at. rewrite Hfs.
                 cbn [default]. now rewrite bool_decide_eq_true_2.
              ** intros L fs' HL' Hfs' Hk'. rewrite (Hfix1 L HL') in Hfs'.
                 apply list_elem_of_fmap in Hk as (f & -> & Hf).
                 apply list_elem_of_fmap in Hk' as (f' & Heq & Hf').
                 assert (f' = f) as -> by (destruct f, f'; cbn in Heq; congruence).
                 pose proof (proj2 Hwf _ _ _ _ _ Hfs Hfs' Hf Hf') as <-.
                 contradiction.
           ++ rewrite (Hpatched L fs t k HL); [| |assumption|assumption].
              ** subst b1; blk. rewrite Hns1.
                 destruct (labelToInsnIdx b !! L1) as [t1|]; [|reflexivity].
                 rewrite bool_decide_eq_false_2; [reflexivity|].
                 unfold slice_at. intros Hk1.
                 destruct (fixUps b !! L1) as [fs1|] eqn:Hfs1;
                   [|now apply not_elem_of_nil in Hk1].
                 apply list_elem_of_fmap in Hk as (f & -> & Hf).
                 apply list_elem_of_fmap in Hk1 as (f' & Heq & Hf').
                 assert (f' = f) as -> by (destruct f, f'; cbn in Heq; congruence).
                 pose proof (proj2 Hwf _ _ _ _ _ Hfs Hfs1 Hf Hf') as ->.
                 contradiction.
              ** now rewrite Hfix1.
        -- intros k Hk. rewrite Hkept.
           ++ subst b1; blk. rewrite Hns1.
              destruct (labelToInsnIdx b !! L1) as [t1|]; [|reflexivity].
              rewrite bool_decide_eq_false_2; [reflexivity|].
              unfold slice_at. destruct (fixUps b !! L1) as [fs1|] eqn:Hfs1.
              ** apply (Hk L1 fs1); [apply list_elem_of_here|exact Hfs1].
              ** apply not_elem_of_nil.
           ++ intros L fs HL Hfs. rewrite (Hfix1 L HL) in Hfs.
              apply (Hk L fs); [now apply list_elem_of_further|exact Hfs].
Qed.

Lemma range_keys_NoDup {V} o (m : gmap string V) :
  fair o → NoDup (range_keys o m).
Proof.
  intros Ho. unfold range_keys. rewrite (Ho _). apply NoDup_fst_map_to_list.
Qed.

Lemma elem_of_range_keys {V} o (m : gmap string V) L :
  fair o → L ∈ range_keys o m ↔ is_Some (m !! L).
Proof.
  intros Ho. unfold range_keys. rewrite (Ho _), list_elem_of_fmap. split.
  - intros ([L' v] & -> & Hin). apply elem_of_map_to_list in Hin. eauto.
  - intros [v Hv]. exists (L, v). split; [reflexivity|].
    now apply elem_of_map_to_list.
Qed.

Lemma resolvable_unlisted b L : fixUps b !! L = None → resolvable b L.
Proof.
  intros HL. unfold resolvable, slice_at. rewrite HL. cbn.
  destruct (labelToInsnIdx b !! L); [constructor|reflexivity].
Qed.

(** [Assemble] on a block without latched error: the outcome of the final
    pass, for any order of the map iteration. *)
Lemma Assemble_spec o b :
  fair o → wf b → deferredErr b = None →
  ∃ b' err,
    Assemble_fixUps (range_keys o (fixUps b)) b = Some (b', err)
    ∧ Assemble o b
      = Some (match err with
              | None =>
                  (Some (if policyDebugEnabled b then Assemble_debug b'
                         else insns b'), None)
              | Some e => (None, Some e)
              end)
    ∧ (∃ ns fx, b' = with_fixUps fx (with_insns ns b))
    ∧ length (insns b') = length (insns b)
    ∧ skeleton <$> insns b' = skeleton <$> insns b
    ∧ (err = None ↔ ∀ L, resolvable b L)
    ∧ (∀ e, err = Some e →
         ∃ L, is_Some (fixUps b !! L) ∧ ¬ resolvable b L
              ∧ (e = ErrMissingLabel L ∧ labelToInsnIdx b !! L = None
                 ∨ is_RangeError e ∧ is_Some (labelToInsnIdx b !! L)))
    ∧ (err = None →
         fixUps b' = ∅
         ∧ (∀ L fs t k,
              fixUps b !! L = Some fs →
              k ∈ origInsnIdx <$> fs → labelToInsnIdx b !! L = Some t →
              insns b' !! k = patch_offset (jump_offset t k) <$> insns b !! k)
         ∧ (∀ k,
              (∀ L fs, fixUps b !! L = Some fs → k ∉ origInsnIdx <$> fs) →
              insns b' !! k = insns b !! k)).
Proof.
  intros Ho Hwf Hd.
  destruct (Assemble_fixUps_spec (range_keys o (fixUps b)) b Hwf
              (range_keys_NoDup o _ Ho))
    as (b' & err & Hrun & Hb' & Hlen & Hskel & Hres & Herr & Hok).
  exists b', err. split; [exact Hrun|]. split.
  { unfold Assemble. rewrite Hd, Hrun. cbn [mbind option_bind].
    destruct err; [reflexivity|].
    destruct Hb' as (ns & fx & ->). blk.
    now destruct (policyDebugEnabled b). }
  split; [exact Hb'|]. split; [exact Hlen|]. split; [exact Hskel|].
  split; [|split].
  - rewrite Hres. split.
    + intros Hall L. destruct (fixUps b !! L) as [fs|] eqn:HL.
      * apply Hall. apply elem_of_range_keys; eauto.
      * now apply resolvable_unlisted.
    + intros Hall L _. apply Hall.
  - intros e He. destruct (Herr e He) as (L & HL & Hnr & Hcl).
    exists L. split; [now apply (elem_of_range_keys o)|]. split; assumption.
  - intros Hnone. destruct (Hok Hnone) as (Hfx & Hpatched & Hkept).
    split; [|split].
    + apply map_eq. intros L. rewrite Hfx, lookup_empty.
      destruct (fixUps b !! L) as [fs|] eqn:HL.
      * rewrite bool_decide_eq_true_2; [reflexivity|].
        apply elem_of_range_keys; eauto.
      * now destruct (bool_decide _).
    + intros L fs t k HL Hk Ht.
      apply (Hpatched L fs t k); [apply elem_of_range_keys; eauto|done..].
    + intros k Hk. apply Hkept. intros L fs _. apply Hk.
Qed.

Lemma Assemble_latched o b e :
  deferredErr b = Some e → Assemble o b = Some (None, Some e).
Proof. intros Hd. unfold Assemble. now rewrite Hd. Qed.

Lemma resolvable_bound b L fs f :
  resolvable b L → fixUps b !! L = Some fs → f ∈ fs →
  ∃ t, labelToInsnIdx b !! L = Some t
       ∧ Forall (fun f => offset_ok (jump_offset t (origInsnIdx f))) fs.
Proof.
  unfold resolvable, slice_at. intros Hres HL Hf. rewrite HL in Hres.
  cbn in Hres. destruct (labelToInsnIdx b !! L) as [t|]; [eauto|].
  subst fs. now apply not_elem_of_nil in Hf.
Qed.

(** The final pass does not depend on the order of the map iteration. *)
Lemma Assemble_order o1 o2 b :
  fair o1 → fair o2 → wf b →
  ∃ r1 r2, Assemble o1 b = Some r1 ∧ Assemble o2 b = Some r2
           ∧ r1.1 = r2.1
           ∧ (r1.2 = None ↔ r2.2 = None).
Proof.
  intros Ho1 Ho2 Hwf. destruct (deferredErr b) as [e|] eqn:Hd.
  { exists (None, Some e), (None, Some e).
    rewrite !(Assemble_latched _ _ _ Hd). auto. }
  destruct (Assemble_spec o1 b Ho1 Hwf Hd)
    as (b1 & err1 & _ & Hrun1 & (ns1 & fx1 & Hb1) & Hlen1 & _ & Hres1 & _ & Hok1).
  destruct (Assemble_spec o2 b Ho2 Hwf Hd)
    as (b2 & err2 & _ & Hrun2 & (ns2 & fx2 & Hb2) & Hlen2 & _ & Hres2 & _ & Hok2).
  eexists _, _. split; [exact Hrun1|]. split; [exact Hrun2|].
  destruct err1 as [e1|], err2 as [e2|]; cbn [fst snd].
  - split; [reflexivity|]. split; discriminate.
  - exfalso. assert (Some e1 = None) by (apply Hres1, Hres2; reflexivity).
    discriminate.
  - exfalso. assert (Some e2 = None) by (apply Hres2, Hres1; reflexivity).
    discriminate.
  - split; [|tauto].
    assert (Hall : ∀ L, resolvable b L) by now apply Hres1.
    destruct (Hok1 eq_refl) as (_ & Hp1 & Hk1).
    destruct (Hok2 eq_refl) as (_ & Hp2 & Hk2).
    assert (Heq : insns b1 = insns b2).
    { apply list_eq. intros k.
      destruct (decide (Exists (fun p : string * list fixUp =>
                                  k ∈ origInsnIdx <$> p.2)
                          (map_to_list (fixUps b)))) as [Hex|Hnex].
      - apply Exists_exists in Hex as ([L fs] & Hin & Hk). cbn in Hk.
        apply elem_of_map_to_list in Hin.
        pose proof Hk as Hk'. apply list_elem_of_fmap in Hk' as (f & _ & Hf).
        destruct (resolvable_bound b L fs f (Hall L) Hin Hf) as (t & Ht & _).
        now rewrite (Hp1 L fs t k), (Hp2 L fs t k).
      - assert (Hno : ∀ L fs, fixUps b !! L = Some fs → k ∉ origInsnIdx <$> fs).
        { intros L fs HL Hk. apply Hnex. apply Exists_exists.
          exists (L, fs). split; [now apply elem_of_map_to_list|exact Hk]. }
        now rewrite (Hk1 k Hno), (Hk2 k Hno). }
    do 2 f_equal. rewrite Hb1, Hb2 in *. blk. subst ns2.
    destruct (policyDebugEnabled b); reflexivity.
Qed.

Lemma Instruction_Assemble_debug b :
  Instruction <$> Assemble_debug b = Instruction <$> insns b.
Proof.
  apply list_eq. intros k. unfold Assemble_debug.
  rewrite !list_lookup_fmap, list_lookup_imap.
  destruct (insns b !! k) as [n|]; [|reflexivity]. cbn.
  now destruct (insnIdxToLabels b !! k), (insnIdxToComments b !! k).
Qed.

(** *** The map order does not matter to the builder *)

Lemma sort_Strings_fair {V} o1 o2 (m : gmap string V) :
  fair o1 → fair o2 →
  sort_Strings (range_keys o1 m) = sort_Strings (range_keys o2 m).
Proof.
  intros Ho1 Ho2. unfold sort_Strings.
  apply (Sorted_unique String.le); try apply Sorted_merge_sort; try apply _.
  rewrite !merge_sort_Permutation. unfold range_keys.
  now rewrite (Ho1 _), (Ho2 _).
Qed.

Lemma writeTrampoline_order o1 o2 b :
  fair o1 → fair o2 → writeTrampoline o1 b = writeTrampoline o2 b.
Proof.
  intros Ho1 Ho2. unfold writeTrampoline. blk.
  now rewrite (sort_Strings_fair o1 o2).
Qed.

Lemma addInsnWithOffsetFixup_order o1 o2 insn targetLabel b :
  fair o1 → fair o2 →
  addInsnWithOffsetFixup o1 insn targetLabel b
  = addInsnWithOffsetFixup o2 insn targetLabel b.
Proof.
  intros Ho1 Ho2. unfold addInsnWithOffsetFixup, maybeWriteTrampoline.
  now rewrite (writeTrampoline_order o1 o2).
Qed.

Lemma add_order o1 o2 opcode dst src offset imm annotation b :
  fair o1 → fair o2 →
  add o1 opcode dst src offset imm annotation b
  = add o2 opcode dst src offset imm annotation b.
Proof.
  intros Ho1 Ho2. unfold add, addInsn.
  now rewrite (addInsnWithOffsetFixup_order o1 o2).
Qed.

Lemma exec_order o1 o2 c b :
  fair o1 → fair o2 → exec o1 c b = exec o2 c b.
Proof.
  intros Ho1 Ho2. destruct c; cbn [exec]; try reflexivity.
  - unfold Instr. now rewrite (add_order o1 o2).
  - unfold InstrWithOffsetFixup, addWithOffsetFixup.
    now rewrite (addInsnWithOffsetFixup_order o1 o2).
  - unfold Block.LoadImm64. rewrite (add_order o1 o2) by assumption.
    destruct (add o2 _ _ _ _ _ _ b) as [[n b1]|]; [|reflexivity]. cbn.
    now rewrite (add_order o1 o2).
  - unfold Block.LoadMapFD. rewrite (add_order o1 o2) by assumption.
    destruct (add o2 _ _ _ _ _ _ b) as [[n b1]|]; [|reflexivity]. cbn.
    now rewrite (add_order o1 o2).
Qed.

Lemma run_order os1 os2 cs b :
  (∀ k, fair (os1 k)) → (∀ k, fair (os2 k)) → run os1 cs b = run os2 cs b.
Proof.
  revert os1 os2 b. induction cs as [|c cs IH]; intros os1 os2 b H1 H2;
    [reflexivity|]. cbn [run].
  rewrite (exec_order (os1 0%nat) (os2 0%nat)) by auto.
  destruct (exec (os2 0%nat) c b) as [b1|]; [|reflexivity]. cbn.
  apply IH; auto.
Qed.

Lemma fair_in_order : fair in_order.
Proof. intros l. reflexivity. Qed.

Lemma fair_backwards : fair backwards.
Proof. intros l. apply reverse_Permutation. Qed.

Lemma range_keys_empty {V} o : fair o → range_keys o (∅ : gmap string V) = [].
Proof.
  intros Ho. unfold range_keys. rewrite map_to_list_empty. cbn.
  apply Permutation_nil_r. apply Ho.
Qed.

(** With nothing pending and nothing latched, [Assemble] succeeds. *)
Lemma Assemble_resolved o b :
  fair o → deferredErr b = None → fixUps b = ∅ →
  Assemble o b
  = Some (Some (if policyDebugEnabled b then Assemble_debug b else insns b),
          None).
Proof.
  intros Ho Hd Hf. unfold Assemble. rewrite Hd, Hf, range_keys_empty by done.
  cbn [Assemble_fixUps mbind option_bind]. now destruct (policyDebugEnabled b).
Qed.

(** * The claims *)

(** C10.  The register accessors [Dst] and [Src] of any instruction return
    a value in [0, 15], since each masks one nibble of byte 1.  Hence
    [MakeInsn] followed by decoding gives back both registers exactly when
    both lie in [0, 15]; a register outside that range does not come
    back. *)
Theorem C10_register_nibbles :
  (∀ n : Insn, 0 ≤ Insn.Dst n ≤ 15 ∧ 0 ≤ Insn.Src n ≤ 15)
  ∧ (∀ opcode dst src offset imm,
       Insn.Dst (MakeInsn opcode dst src offset imm) = dst
       ∧ Insn.Src (MakeInsn opcode dst src offset imm) = src
       ↔ 0 ≤ dst ≤ 15 ∧ 0 ≤ src ≤ 15).
Proof.
  assert (Hmask : ∀ x, 0 ≤ Z.land x 15 ≤ 15).
  { intros x. change (Z.land x 15) with (Z.land x (Z.ones 4)).
    rewrite Z.land_ones by lia.
    pose proof (Z.mod_pos_bound x (2 ^ 4) ltac:(lia)). lia. }
  split.
  - intros n. split; apply Hmask.
  - intros opcode dst src offset imm. split.
    + intros [Hd Hs]. split.
      * rewrite <- Hd. apply Hmask.
      * rewrite <- Hs. apply Hmask.
    + intros [Hd Hs]. rewrite MakeInsn_Dst, MakeInsn_Src.
      rewrite (Z.shiftr_div_pow2 dst 4) by lia.
      rewrite (Z.div_small dst (2 ^ 4)) by lia.
      rewrite Z.lor_0_r, !Z.mod_small by lia. auto.
Qed.

(** C2.  Round trip of the encoding.  For an 8-bit opcode, registers R0 to
    R10, a 16-bit offset and a 32-bit immediate, the instruction built by
    [MakeInsn] decodes through [OpCode], [Dst], [Src], [Off] and [Imm] to
    the tuple given; byte 0 is the opcode, byte 1 holds [dst] in its low
    and [src] in its high nibble, bytes 2-3 the offset and bytes 4-7 the
    immediate, little-endian in two's complement.  [add] hands back and
    appends exactly this instruction; [addWithOffsetFixup] does the same
    with an offset field of 0, left to the fix-up. *)
Theorem C2_builder_round_trip (opcode dst src offset imm : Z) :
  0 ≤ opcode ≤ 255 → R0 ≤ dst ≤ R10 → R0 ≤ src ≤ R10 →
  MinInt16 ≤ offset ≤ MaxInt16 → - 2 ^ 31 ≤ imm < 2 ^ 31 →
  let n := MakeInsn opcode dst src offset imm in
  (Insn.OpCode n = opcode ∧ Insn.Dst n = dst ∧ Insn.Src n = src
   ∧ Insn.Off n = offset ∧ Insn.Imm n = imm)
  ∧ Instruction n
    = [# opcode; dst + 16 * src;
         (offset mod 2 ^ 16) mod 2 ^ 8; (offset mod 2 ^ 16) / 2 ^ 8;
         (imm mod 2 ^ 32) mod 2 ^ 8; (imm mod 2 ^ 32) / 2 ^ 8 mod 2 ^ 8;
         (imm mod 2 ^ 32) / 2 ^ 16 mod 2 ^ 8; (imm mod 2 ^ 32) / 2 ^ 24]
  ∧ (∀ o annotation b n' b',
       add o opcode dst src offset imm annotation b = Some (n', b') →
       Instruction n' = Instruction n
       ∧ ∃ b1, maybeWriteTrampoline o n' b = Some b1
               ∧ (nextInsnReachable b1 = true →
                  insns b' = insns b1 ++ [n'])
               ∧ (nextInsnReachable b1 = false → insns b' = insns b1))
  ∧ (∀ o label b n' b',
       addWithOffsetFixup o opcode dst src label imm b = Some (n', b') →
       (Insn.OpCode n' = opcode ∧ Insn.Dst n' = dst ∧ Insn.Src n' = src
        ∧ Insn.Off n' = 0 ∧ Insn.Imm n' = imm)
       ∧ ∃ b1, maybeWriteTrampoline o n' b = Some b1
               ∧ (nextInsnReachable b1 = true →
                  ∃ n'', insns b' = insns b1 ++ [n'']
                         ∧ Instruction n'' = Instruction n')
               ∧ (nextInsnReachable b1 = false → insns b' = insns b1)).
Proof.
  intros Hop Hdst Hsrc Hoff Himm n. unfold R0, R10 in Hdst, Hsrc.
  assert (Hdecode : ∀ off, MinInt16 ≤ off ≤ MaxInt16 →
            Insn.OpCode (MakeInsn opcode dst src off imm) = opcode
            ∧ Insn.Dst (MakeInsn opcode dst src off imm) = dst
            ∧ Insn.Src (MakeInsn opcode dst src off imm) = src
            ∧ Insn.Off (MakeInsn opcode dst src off imm) = off
            ∧ Insn.Imm (MakeInsn opcode dst src off imm) = imm).
  { intros off Ho.
    rewrite MakeInsn_OpCode, MakeInsn_Off, MakeInsn_Imm.
    rewrite int16_uint16, int32_uint32 by assumption.
    unfold uint8. rewrite Z.mod_small by lia.
    destruct C10_register_nibbles as [_ Hregs].
    destruct (proj2 (Hregs opcode dst src off imm)) as [-> ->]; [lia|auto]. }
  split; [apply Hdecode; assumption|]. split; [|split].
  - subst n. rewrite MakeInsn_bytes, packed_byte_value by lia.
    unfold uint8 at 1. rewrite (Z.mod_small opcode) by lia.
    unfold uint8, uint16, uint32. rewrite !Z.shiftr_div_pow2 by lia.
    pose proof (Z.mod_pos_bound offset (2 ^ 16) ltac:(lia)).
    pose proof (Z.mod_pos_bound imm (2 ^ 32) ltac:(lia)).
    rewrite (Z.mod_small ((offset `mod` 2 ^ 16) `div` 2 ^ 8)).
    2:{ split; [apply Z.div_pos; lia|apply Z.div_lt_upper_bound; lia]. }
    rewrite (Z.mod_small ((imm `mod` 2 ^ 32) `div` 2 ^ 24)).
    2:{ split; [apply Z.div_pos; lia|apply Z.div_lt_upper_bound; lia]. }
    reflexivity.
  - intros o annotation b n' b' Hadd. unfold add, addInsn in Hadd.
    unfold addInsnWithOffsetFixup in Hadd.
    set (m := with_Annotation annotation (MakeInsn opcode dst src offset imm))
      in Hadd.
    destruct (maybeWriteTrampoline o m b) as [b1|] eqn:Htr; [|discriminate].
    cbn in Hadd. injection Hadd as <- <-.
    split; [reflexivity|]. exists b1. split; [exact Htr|]. split.
    + intros Hr. unfold addInsnWithOffsetFixupNoTrampoline. rewrite Hr.
      cbn [negb]. rewrite bool_decide_eq_false_2 by (intros H; now apply H).
      blk. now destruct (_ || _).
    + intros Hr. now rewrite NoTrampoline_unreachable.
  - intros o label b n' b' Hadd. unfold addWithOffsetFixup in Hadd.
    unfold addInsnWithOffsetFixup in Hadd.
    destruct (maybeWriteTrampoline o (MakeInsn opcode dst src 0 imm) b)
      as [b1|] eqn:Htr; [|discriminate].
    cbn in Hadd. injection Hadd as <- <-.
    split; [apply Hdecode; unfold MinInt16, MaxInt16; lia|].
    exists b1. split; [exact Htr|]. split.
    + intros Hr.
      now destruct (NoTrampoline_reachable (MakeInsn opcode dst src 0 imm)
                      label b1 Hr) as [Hins _].
    + intros Hr. now rewrite NoTrampoline_unreachable.
Qed.

Lemma C2_builder_round_trip_witness :
  let n := MakeInsn StoreReg32 R10 R3 (-8) 0 in
  Insn.OpCode n = StoreReg32 ∧ Insn.Dst n = R10 ∧ Insn.Src n = R3
  ∧ Insn.Off n = -8 ∧ Insn.Imm n = 0.
Proof.
  apply (C2_builder_round_trip StoreReg32 R10 R3 (-8) 0);
    unfold R0, R10, R3, MinInt16, MaxInt16; vm_compute; split; congruence.
Defined.

(** C9.  [SetTrampolineStride s] sets the stride to [s] when
    [0 < s < 16384] and changes nothing else; for any other [s] it leaves
    the whole block, the stride included, as it was. *)
Theorem C9_SetTrampolineStride (s : Z) (b : Block) :
  (0 < s < 16384 →
   trampolineStride (SetTrampolineStride s b) = s
   ∧ same_but_stride b (SetTrampolineStride s b))
  ∧ (¬ 0 < s < 16384 → SetTrampolineStride s b = b).
Proof.
  unfold SetTrampolineStride. change (1 ≪ 14) with 16384.
  destruct (Z.gtb_spec s 0), (Z.ltb_spec s 16384); cbn [andb];
    (split; [intros Hs|intros Hs]); try lia; try reflexivity.
  split; [reflexivity|]. repeat split.
Qed.

Lemma C9_SetTrampolineStride_witness :
  trampolineStride (SetTrampolineStride 100 (NewBlock false)) = 100
  ∧ SetTrampolineStride 16384 (NewBlock false) = NewBlock false
  ∧ SetTrampolineStride 0 (NewBlock false) = NewBlock false.
Proof.
  split; [|split].
  - apply (C9_SetTrampolineStride 100 (NewBlock false)). lia.
  - apply (C9_SetTrampolineStride 16384 (NewBlock false)). lia.
  - apply (C9_SetTrampolineStride 0 (NewBlock false)). lia.
Defined.

(** C5.  The reachability filter.  [nextInsnReachable] holds exactly when
    the block is empty, or the last emitted opcode is neither [JumpA] nor
    [Exit], or a label recorded at the current position is a jump target
    in use.  A reachable instruction is appended; an unreachable one is
    dropped, and every label recorded at the position leaves both
    [labelToInsnIdx] and [insnIdxToLabels].  In [Exit; label X; Mov64 R0 R0]
    the move is absent from the output and X is gone. *)
Theorem C5_reachability_filter (insn : Insn) (targetLabel : string)
    (b : Block) :
  let b' := addInsnWithOffsetFixupNoTrampoline insn targetLabel b in
  let here := length (insns b) in
  (nextInsnReachable b = true ↔ reachable b)
  ∧ (reachable b →
     ∃ insn', insns b' = insns b ++ [insn']
              ∧ Instruction insn' = Instruction insn)
  ∧ (¬ reachable b →
     insns b' = insns b
     ∧ (∀ l, l ∈ slice_at (insnIdxToLabels b) here →
             labelToInsnIdx b' !! l = None)
     ∧ insnIdxToLabels b' !! here = None)
  ∧ (∀ os o debug,
       fair o →
       ∃ b1 ns,
         run os [CInstr Exit 0 0 0 0 ""; CLabelNextInsn "X";
                 CInstr Mov64 R0 R0 0 0 ""] (NewBlock debug) = Some b1
         ∧ Assemble o b1 = Some (Some ns, None)
         ∧ Instruction <$> ns = [Instruction (MakeInsn Exit 0 0 0 0)]
         ∧ labelToInsnIdx b1 !! "X" = None
         ∧ insnIdxToLabels b1 !! 1%nat = None).
Proof.
  intros b' here. split; [apply nextInsnReachable_reachable|].
  split; [|split].
  - intros Hr. apply nextInsnReachable_reachable in Hr.
    now destruct (NoTrampoline_reachable insn targetLabel b Hr) as [Hins _].
  - intros Hr. assert (Hn : nextInsnReachable b = false).
    { destruct (nextInsnReachable b) eqn:E; [|reflexivity].
      exfalso. now apply Hr, nextInsnReachable_reachable. }
    subst b'. rewrite (NoTrampoline_unreachable _ _ _ Hn). blk.
    split; [reflexivity|]. split.
    + intros l Hl. rewrite foldl_delete_lookup.
      now rewrite bool_decide_eq_true_2.
    + apply lookup_delete_eq.
  - clear. intros os o debug Ho.
    assert (Hrun : ∃ b1,
              run os [CInstr Exit 0 0 0 0 ""; CLabelNextInsn "X";
                      CInstr Mov64 R0 R0 0 0 ""] (NewBlock debug) = Some b1
              ∧ deferredErr b1 = None ∧ fixUps b1 = ∅
              ∧ Instruction <$> insns b1 = [Instruction (MakeInsn Exit 0 0 0 0)]
              ∧ labelToInsnIdx b1 !! "X" = None
              ∧ insnIdxToLabels b1 !! 1%nat = None).
    { destruct debug; eexists; (split; [vm_compute; reflexivity|]);
        (split; [|split; [|split; [|split]]]); vm_compute; reflexivity. }
    destruct Hrun as (b1 & Hrun & Hd & Hf & Hins & HX & H1).
    exists b1. eexists. split; [exact Hrun|].
    split; [now apply Assemble_resolved|].
    split; [|split; assumption].
    destruct (policyDebugEnabled b1); [|exact Hins].
    now rewrite Instruction_Assemble_debug.
Qed.

Lemma C5_reachability_filter_witness :
  let b := with_insnIdxToLabels {[1%nat := ["X"]]}
             (with_labelToInsnIdx {["X" := 1%nat]}
                (with_insns [MakeInsn Exit 0 0 0 0] (NewBlock false))) in
  let b' := addInsnWithOffsetFixupNoTrampoline (MakeInsn Mov64 R0 R0 0 0) "" b in
  insns b' = insns b ∧ labelToInsnIdx b' !! "X" = None
  ∧ insnIdxToLabels b' !! 1%nat = None.
Proof.
  intros b b'.
  destruct (C5_reachability_filter (MakeInsn Mov64 R0 R0 0 0) "" b)
    as (Hiff & _ & Hdrop & _).
  assert (Hn : ¬ reachable b).
  { intros Hr. apply Hiff in Hr. vm_compute in Hr. discriminate. }
  destruct (Hdrop Hn) as (Hins & Hlab & Hidx).
  split; [exact Hins|]. split; [|exact Hidx].
  apply Hlab. vm_compute. apply list_elem_of_here.
Defined.

Lemma Off_patch_offset off n :
  MinInt16 ≤ off ≤ MaxInt16 → Insn.Off (patch_offset off n) = off.
Proof.
  intros Hoff. unfold Insn.Off, patch_offset. cbn [Instruction with_Instruction].
  rewrite Uint16_PutUint16, uint16_idemp. now apply int16_uint16.
Qed.

Lemma patch_offset_bytes off n :
  Instruction (patch_offset off n)
  = vinsert 3%fin (uint8 (uint16 off ≫ 8))
      (vinsert 2%fin (uint8 (uint16 off)) (Instruction n)).
Proof. reflexivity. Qed.

Lemma LabelNextInsn_bind_label label b :
  LabelNextInsn label b
  = '(b, err) ← applyFixUps label (bind_label label b);
    match err with
    | Some e =>
        match deferredErr b with
        | None =>
            Some (with_deferredErr
                    (Some (ErrLabelFixups label (length (insns b)) e)) b)
        | Some _ => Some b
        end
    | None => Some b
    end.
Proof. reflexivity. Qed.

Lemma wf_bind_label label b : wf b → wf (bind_label label b).
Proof. intros Hwf. exact Hwf. Qed.

(** C1.  Resolution of the fix-ups of a label [L] bound at index [t].  For
    every fix-up registered from a jump at index [i] the offset is
    [t - i - 1].  If every such offset lies in [-32768, 32767] and is not
    -1, resolution succeeds, the entry of [L] is deleted, and instruction
    [i] has that offset in bytes 2-3 (little-endian) and nothing else
    changed; otherwise it fails with a RangeError and the entry stays.  So
    32767 and -32768 pass, while 32768, -32769 and -1 fail.
    [LabelNextInsn] binds the label at the index of the next instruction
    and runs this resolution at once. *)
Theorem C1_fixup_resolution (b : Block) (L : string) (t : nat)
    (fs : list fixUp) :
  labelToInsnIdx b !! L = Some t →
  fixUps b !! L = Some fs →
  Forall (fun f => (origInsnIdx f < length (insns b))%nat) fs →
  (Forall (fun f => offset_ok (jump_offset t (origInsnIdx f))) fs →
   ∃ b', applyFixUps L b = Some (b', None)
         ∧ fixUps b' = delete L (fixUps b)
         ∧ ∀ f, f ∈ fs →
             ∃ n, insns b !! origInsnIdx f = Some n
                  ∧ insns b' !! origInsnIdx f
                    = Some (patch_offset (jump_offset t (origInsnIdx f)) n)
                  ∧ Insn.Off (patch_offset (jump_offset t (origInsnIdx f)) n)
                    = Z.of_nat t - Z.of_nat (origInsnIdx f) - 1
                  ∧ Instruction (patch_offset (jump_offset t (origInsnIdx f)) n)
                    = vinsert 3%fin
                        (uint8 (uint16 (jump_offset t (origInsnIdx f)) ≫ 8))
                        (vinsert 2%fin
                           (uint8 (uint16 (jump_offset t (origInsnIdx f))))
                           (Instruction n)))
  ∧ (¬ Forall (fun f => offset_ok (jump_offset t (origInsnIdx f))) fs →
     ∃ b' e, applyFixUps L b = Some (b', Some e)
             ∧ is_RangeError e ∧ fixUps b' = fixUps b)
  ∧ (∀ off, offset_ok off ↔ off ≠ -1 ∧ -32768 ≤ off ≤ 32767)
  ∧ (offset_ok 32767 ∧ offset_ok (-32768)
     ∧ ¬ offset_ok 32768 ∧ ¬ offset_ok (-32769) ∧ ¬ offset_ok (-1))
  ∧ (∀ b0,
       labelToInsnIdx (bind_label L b0) !! L = Some (length (insns b0))
       ∧ fixUps (bind_label L b0) = fixUps b0
       ∧ insns (bind_label L b0) = insns b0
       ∧ ∀ b1, applyFixUps L (bind_label L b0) = Some (b1, None) →
               LabelNextInsn L b0 = Some b1).
Proof.
  intros Ht HL Hin.
  assert (Hslice : slice_at (fixUps b) L = fs)
    by (unfold slice_at; now rewrite HL).
  destruct (applyFixUps_spec L b) as (ns & err & Hrun & Hlen & _ & Hcase).
  { now rewrite Hslice. }
  rewrite Ht, Hslice in Hcase.
  split; [|split; [|split; [|split]]].
  - intros Hall. destruct Hcase as [(_ & -> & ->)|[Hnall _]]; [|contradiction].
    eexists. split; [exact Hrun|]. blk. split; [reflexivity|].
    intros f Hf.
    pose proof (proj1 (Forall_forall _ _) Hin f Hf) as Hlt.
    destruct (lookup_lt_is_Some_2 _ _ Hlt) as [n Hn].
    exists n. split; [exact Hn|]. split; [|split].
    + rewrite patch_all_lookup, Hn. rewrite bool_decide_eq_true_2; [reflexivity|].
      apply list_elem_of_fmap. eauto.
    + apply Off_patch_offset.
      apply (proj1 (Forall_forall _ _) Hall f Hf).
    + apply patch_offset_bytes.
  - intros Hnall. destruct Hcase as [(Hall & _)|(_ & e & -> & He)];
      [contradiction|].
    eexists _, e. split; [exact Hrun|]. split; [exact He|reflexivity].
  - intros off. reflexivity.
  - unfold offset_ok, MinInt16, MaxInt16. repeat split; lia.
  - intros b0. split; [apply lookup_insert_eq|]. split; [reflexivity|].
    split; [reflexivity|]. intros b1 Hb1.
    now rewrite LabelNextInsn_bind_label, Hb1.
Qed.

Lemma C1_fixup_resolution_witness :
  let b := with_fixUps {["L" := [mkFixUp 0]]}
             (with_labelToInsnIdx {["L" := 3%nat]}
                (with_insns [MakeInsn JumpEq64 R1 R2 0 0; MakeInsn Mov64 R1 R2 0 0;
                             MakeInsn Mov64 R1 R2 0 0] (NewBlock false))) in
  ∃ b', applyFixUps "L" b = Some (b', None)
        ∧ fixUps b' = delete "L" (fixUps b)
        ∧ Insn.Off <$> insns b' !! 0%nat = Some 2.
Proof.
  intros b.
  destruct (C1_fixup_resolution b "L" 3 [mkFixUp 0]) as (Hok & _).
  - reflexivity.
  - reflexivity.
  - repeat constructor.
  - destruct Hok as (b' & Hrun & Hfix & Hpatched).
    + repeat constructor; vm_compute; congruence.
    + exists b'. split; [exact Hrun|]. split; [exact Hfix|].
      destruct (Hpatched (mkFixUp 0)) as (n & Hn & Hn' & Hoff & _).
      * apply list_elem_of_here.
      * cbn [origInsnIdx] in *. rewrite Hn'. cbn [fmap option_fmap option_map].
        rewrite Hoff. reflexivity.
Defined.

(** ** Runs with [ReserveInstructionCapacity] *)

(** While every request fits, a run of method calls is the run of its
    builder calls, each under the map order it met. *)
Lemma calls_builds ms :
  forallb fits ms = true →
  ∀ os, ∃ os', (∀ k, ∃ j, os' k = os j)
               ∧ ∀ b, calls os ms b = run os' (builds ms) b.
Proof.
  induction ms as [|m ms IH]; intros Hfit os; cbn [calls builds].
  - exists os. split; [intros k; now exists k|reflexivity].
  - cbn [forallb] in Hfit. apply andb_prop in Hfit as [Hm Hfit].
    destruct (IH Hfit (fun k => os (S k))) as (os' & Hsub & Hos').
    destruct m as [c|n]; cbn [call].
    + exists (fun k => match k with O => os 0%nat | S k => os' k end).
      split.
      * intros [|k]; [now exists 0%nat|].
        destruct (Hsub k) as (j & Hj). now exists (S j).
      * intros b. cbn [run]. destruct (exec (os 0%nat) c b) as [b1|];
          cbn [mbind option_bind]; [apply Hos'|reflexivity].
    + exists os'. split.
      * intros k. destruct (Hsub k) as (j & Hj). now exists (S j).
      * intros b. unfold ReserveInstructionCapacity.
        cbn [fits] in Hm. rewrite Hm. cbn [mbind option_bind]. apply Hos'.
Qed.






(** The claim C8 as stated: with no error latched, a non-empty pending
    entry makes [Assemble] fail with the unbound-label error. *)
Lemma C8_counterexample :
  ∃ b ns,
    run (fun _ => in_order)
      [CLabelNextInsn "L"; CInstr Mov64 R1 R2 0 0 ""; CInstr Mov64 R1 R2 0 0 "";
       CInstrWithOffsetFixup JumpEq64 R1 R2 "L" 0; CInstr Exit 0 0 0 0 ""]
      (NewBlock false) = Some b
    ∧ deferredErr b = None
    ∧ fixUps b !! "L" = Some [mkFixUp 2]
    ∧ Assemble in_order b = Some (Some ns, None)
    ∧ Insn.Off <$> ns !! 2%nat = Some (-3)
    ∧ ¬ (∃ e, Assemble in_order b = Some (None, Some e)
              ∧ is_UnboundLabelError e).
Proof.
  eexists _, _. split; [vm_compute; reflexivity|].
  split; [vm_compute; reflexivity|]. split; [vm_compute; reflexivity|].
  split; [vm_compute; reflexivity|]. split; [vm_compute; reflexivity|].
  intros (e & He & _). vm_compute in He. discriminate.
Qed.

(** C8, amended.  With no error latched, [Assemble] runs a final pass over
    every pending entry.  It succeeds exactly when each entry is
    resolvable: its label is bound, as for a backward jump, and its
    offsets fit; the pass then patches those offsets and empties the map.
    A non-empty entry whose label is not bound makes [Assemble] fail, and
    the error returned always comes from a pending entry: the
    unbound-label error of an entry without binding, or a range error of a
    bound one. *)
Theorem C8_final_pass (o : MapOrder) (b : Block) :
  fair o → wf b → deferredErr b = None →
  ((∀ L, resolvable b L) →
   ∃ ns b',
     Assemble o b = Some (Some ns, None)
     ∧ Assemble_fixUps (range_keys o (fixUps b)) b = Some (b', None)
     ∧ fixUps b' = ∅
     ∧ Instruction <$> ns = Instruction <$> insns b'
     ∧ ∀ L fs t k,
         fixUps b !! L = Some fs → k ∈ origInsnIdx <$> fs →
         labelToInsnIdx b !! L = Some t →
         insns b' !! k = patch_offset (jump_offset t k) <$> insns b !! k)
  ∧ (∀ L fs,
       fixUps b !! L = Some fs → fs ≠ [] → labelToInsnIdx b !! L = None →
       ∃ e, Assemble o b = Some (None, Some e))
  ∧ (∀ r, Assemble o b = Some r →
       (∃ ns, r = (Some ns, None) ∧ ∀ L, resolvable b L)
       ∨ (∃ e L fs,
            r = (None, Some e) ∧ fixUps b !! L = Some fs ∧ fs ≠ []
            ∧ (e = ErrMissingLabel L ∧ labelToInsnIdx b !! L = None
               ∨ is_RangeError e ∧ is_Some (labelToInsnIdx b !! L)))).
Proof.
  intros Ho Hwf Hd.
  destruct (Assemble_spec o b Ho Hwf Hd)
    as (b' & err & Hfix & Hasm & (ns & fx & Hb') & _ & _ & Hres & Herr & Hok).
  assert (Hfail : ∀ L, ¬ resolvable b L → ∃ e, err = Some e).
  { intros L Hn. destruct err as [e|]; [eauto|].
    exfalso. apply Hn. now apply Hres. }
  split; [|split].
  - intros Hall. apply Hres in Hall. subst err.
    destruct (Hok eq_refl) as (Hempty & Hpatched & _).
    eexists _, b'. split; [exact Hasm|]. split; [exact Hfix|].
    split; [exact Hempty|]. split; [|exact Hpatched].
    rewrite Hb'. blk. destruct (policyDebugEnabled b); [|reflexivity].
    apply Instruction_Assemble_debug.
  - intros L fs HL Hne Hunbound. destruct (Hfail L) as [e ->]; [|eauto].
    unfold resolvable, slice_at. now rewrite Hunbound, HL.
  - intros r Hr. rewrite Hasm in Hr. injection Hr as <-.
    destruct err as [e|].
    + right. destruct (Herr e eq_refl) as (L & [fs HL] & Hnr & Hcl).
      exists e, L, fs. split; [reflexivity|]. split; [exact HL|].
      split; [|exact Hcl]. intros ->. apply Hnr.
      unfold resolvable, slice_at. rewrite HL. cbn.
      destruct (labelToInsnIdx b !! L); [constructor|reflexivity].
    + left. eexists. split; [reflexivity|]. now apply Hres.
Qed.

Lemma C8_final_pass_witness :
  let b := with_fixUps {["L" := [mkFixUp 2]]}
             (with_labelToInsnIdx {["L" := 0%nat]}
                (with_insns [MakeInsn Mov64 R1 R2 0 0; MakeInsn Mov64 R1 R2 0 0;
                             MakeInsn JumpEq64 R1 R2 0 0; MakeInsn Exit 0 0 0 0]
                   (NewBlock false))) in
  ∃ ns b', Assemble in_order b = Some (Some ns, None)
           ∧ fixUps b' = ∅
           ∧ insns b' !! 2%nat
             = Some (patch_offset (-3) (MakeInsn JumpEq64 R1 R2 0 0)).
Proof.
  intros b.
  assert (Hwf : wf b).
  { split; unfold b; blk.
    - intros L fs f HL Hf. apply lookup_singleton_Some in HL as [<- <-].
      apply list_elem_of_singleton in Hf as ->. cbn. lia.
    - intros L1 L2 fs1 fs2 f H1 H2 _ _.
      apply lookup_singleton_Some in H1 as [<- _].
      now apply lookup_singleton_Some in H2 as [<- _]. }
  destruct (C8_final_pass in_order b fair_in_order Hwf eq_refl) as (Hok & _).
  destruct Hok as (ns & b' & Hasm & _ & Hempty & _ & Hpatched).
  - intros L. unfold resolvable, slice_at, b; blk.
    destruct (decide (L = "L")) as [->|Hne].
    + rewrite !lookup_singleton_eq. cbn. repeat constructor; vm_compute; congruence.
    + rewrite !lookup_singleton_ne by done. reflexivity.
  - exists ns, b'. split; [exact Hasm|]. split; [exact Hempty|].
    rewrite (Hpatched "L" [mkFixUp 2] 0%nat 2%nat); try reflexivity.
    apply list_elem_of_here.
Defined.

(** C6.  Assembly is deterministic.  Whatever order the map iterations
    take in two runs of the same call sequence, both runs build the same
    block, [Assemble] returns the same instructions, hence the same bytes,
    and fails in the one run exactly when it fails in the other.  The
    trampoline writer walks the pending labels in ascending order, the
    same list for every iteration order. *)
Theorem C6_deterministic_assembly (os1 os2 : nat → MapOrder)
    (o1 o2 : MapOrder) (debug : bool) (cs : list BuilderCall) :
  (∀ k, fair (os1 k)) → (∀ k, fair (os2 k)) → fair o1 → fair o2 →
  (∃ b r1 r2,
     run os1 cs (NewBlock debug) = Some b
     ∧ run os2 cs (NewBlock debug) = Some b
     ∧ assemble os1 o1 debug cs = Some r1
     ∧ assemble os2 o2 debug cs = Some r2
     ∧ r1.1 = r2.1
     ∧ AsBytes <$> r1.1 = AsBytes <$> r2.1
     ∧ (r1.2 = None ↔ r2.2 = None))
  ∧ (∀ b, Sorted String.le (sort_Strings (range_keys o1 (fixUps b)))
          ∧ sort_Strings (range_keys o1 (fixUps b))
            = sort_Strings (range_keys o2 (fixUps b))
          ∧ writeTrampoline o1 b = writeTrampoline o2 b).
Proof.
  intros H1 H2 Ho1 Ho2. split.
  - destruct (safe_run os1 cs (NewBlock debug) (wf_NewBlock debug))
      as (b & Hrun1 & Hwf & _).
    assert (Hrun2 : run os2 cs (NewBlock debug) = Some b)
      by now rewrite <- (run_order os1 os2).
    destruct (Assemble_order o1 o2 b Ho1 Ho2 Hwf)
      as (r1 & r2 & Ha1 & Ha2 & Hfst & Hsnd).
    exists b, r1, r2. unfold assemble. rewrite Hrun1, Hrun2.
    cbn [mbind option_bind]. rewrite Hfst.
    split; [reflexivity|]. split; [reflexivity|]. split; [exact Ha1|].
    split; [exact Ha2|]. split; [reflexivity|]. split; [reflexivity|exact Hsnd].
  - intros b. split; [|split].
    + apply Sorted_merge_sort; apply _.
    + now apply sort_Strings_fair.
    + now apply writeTrampoline_order.
Qed.

Lemma C6_deterministic_assembly_witness :
  ∃ b r1 r2,
    let cs := [CSetTrampolineStride 3;
               CInstrWithOffsetFixup JumpEq64 R1 R2 "b" 0;
               CInstrWithOffsetFixup JumpEq64 R1 R2 "a" 0;
               CInstr Mov64 R1 R2 0 0 ""; CInstr Mov64 R1 R2 0 0 "";
               CLabelNextInsn "a"; CInstr Exit 0 0 0 0 "";
               CLabelNextInsn "b"; CInstr Exit 0 0 0 0 ""] in
    run (fun _ => in_order) cs (NewBlock false) = Some b
    ∧ run (fun _ => backwards) cs (NewBlock false) = Some b
    ∧ assemble (fun _ => in_order) in_order false cs = Some r1
    ∧ assemble (fun _ => backwards) backwards false cs = Some r2
    ∧ r1.1 = r2.1
    ∧ AsBytes <$> r1.1 = AsBytes <$> r2.1
    ∧ (r1.2 = None ↔ r2.2 = None).
Proof.
  apply (C6_deterministic_assembly (fun _ => in_order) (fun _ => backwards)
           in_order backwards false);
    intros; (apply fair_in_order || apply fair_backwards).
Defined.

(** ** The double-length load *)

Lemma run_app os cs1 cs2 b :
  run os (cs1 ++ cs2) b
  = b' ← run os cs1 b; run (fun k => os (length cs1 + k)%nat) cs2 b'.
Proof.
  revert os b. induction cs1 as [|c cs1 IH]; intros os b; cbn [run app].
  - reflexivity.
  - destruct (exec (os 0%nat) c b) as [b1|]; [|reflexivity].
    cbn [mbind option_bind]. now rewrite IH.
Qed.

Lemma skeleton_fields n m :
  skeleton n = skeleton m →
  Insn.OpCode n = Insn.OpCode m ∧ Insn.Dst n = Insn.Dst m
  ∧ Insn.Src n = Insn.Src m ∧ Insn.Imm n = Insn.Imm m.
Proof.
  unfold skeleton, Insn.OpCode, Insn.Dst, Insn.Src, Insn.Imm, Uint32_4_8.
  generalize (Instruction n) (Instruction m). intros bs cs.
  inv_vec bs; intros b0 b1 b2 b3 b4 b5 b6 b7.
  inv_vec cs; intros c0 c1 c2 c3 c4 c5 c6 c7 H.
  injection H as -> -> -> -> -> ->. repeat split.
Qed.

Lemma skeleton_Assemble_debug b :
  skeleton <$> Assemble_debug b = skeleton <$> insns b.
Proof.
  apply list_eq. intros k. unfold Assemble_debug.
  rewrite !list_lookup_fmap, list_lookup_imap.
  destruct (insns b !! k) as [n|]; [|reflexivity]. cbn.
  now destruct (insnIdxToLabels b !! k), (insnIdxToComments b !! k).
Qed.

(** The trampoline check never fires in front of the second half. *)
Lemma maybeWriteTrampoline_Pt2 o dst src offset imm annotation b :
  maybeWriteTrampoline o
    (with_Annotation annotation (MakeInsn LoadImm64Pt2 dst src offset imm)) b
  = Some b.
Proof.
  unfold maybeWriteTrampoline. destruct (negb _); [reflexivity|].
  destruct (_ <? _); reflexivity.
Qed.

Lemma add_plain o opcode dst src offset imm annotation b :
  add o opcode dst src offset imm annotation b
  = b1 ← maybeWriteTrampoline o
           (with_Annotation annotation (MakeInsn opcode dst src offset imm)) b;
    Some (with_Annotation annotation (MakeInsn opcode dst src offset imm),
          addInsnWithOffsetFixupNoTrampoline
            (with_Annotation annotation (MakeInsn opcode dst src offset imm))
            "" b1).
Proof.
  unfold add, addInsn, addInsnWithOffsetFixup.
  now destruct (maybeWriteTrampoline _ _ b).
Qed.

Lemma NoTrampoline_plain_insns insn b :
  insns (addInsnWithOffsetFixupNoTrampoline insn "" b)
  = if nextInsnReachable b then insns b ++ [insn] else insns b.
Proof.
  unfold addInsnWithOffsetFixupNoTrampoline.
  destruct (nextInsnReachable b); cbn [negb]; [|reflexivity].
  rewrite bool_decide_eq_false_2 by (intros H; now apply H).
  now destruct (_ || _).
Qed.

(** Both halves of the pair share the fate of the first. *)
Lemma NoTrampoline_pair h1 h2 b :
  Insn.OpCode h1 ≠ JumpA → Insn.OpCode h1 ≠ Exit →
  insns (addInsnWithOffsetFixupNoTrampoline h2 ""
           (addInsnWithOffsetFixupNoTrampoline h1 "" b))
  = if nextInsnReachable b then insns b ++ [h1; h2] else insns b.
Proof.
  intros HJ HE. rewrite NoTrampoline_plain_insns.
  destruct (nextInsnReachable b) eqn:Hr.
  - assert (Hr' : nextInsnReachable
                    (addInsnWithOffsetFixupNoTrampoline h1 "" b) = true).
    { apply nextInsnReachable_reachable. right; left. exists h1.
      rewrite NoTrampoline_plain_insns, Hr, last_snoc. auto. }
    rewrite Hr', NoTrampoline_plain_insns, Hr, <- app_assoc. reflexivity.
  - rewrite (NoTrampoline_unreachable h1 "" b Hr).
    set (b' := with_insnIdxToLabels _ _).
    assert (Hr' : nextInsnReachable b' = false).
    { unfold nextInsnReachable in *. subst b'; blk.
      destruct (last (insns b)) as [prev|]; [|discriminate].
      destruct ((Insn.OpCode prev =? JumpA) || (Insn.OpCode prev =? Exit));
        [|discriminate].
      unfold slice_at. now rewrite lookup_delete_eq. }
    rewrite Hr'. reflexivity.
Qed.

(** C4.  A trampoline never separates the two halves of [LoadImm64].  The
    check in front of the second half writes nothing, whatever the count of
    instructions since the last trampoline; a trampoline that is due goes in
    front of the first half.  If the first half is emitted the second
    follows it at once, and if it is dropped as unreachable so is the
    second.  After any further calls, in the output of [Assemble], the
    first half still sits right before its continuation of opcode 0, each
    with its half of the immediate. *)
Theorem C4_LoadImm64_not_split (os : nat → MapOrder) (o : MapOrder)
    (debug : bool) (cs1 cs2 : list BuilderCall) (dst imm : Z) :
  fair o →
  let h1 := with_Annotation "" (MakeInsn LoadImm64 dst 0 0 (int32 imm)) in
  let h2 := with_Annotation ""
              (MakeInsn LoadImm64Pt2 0 0 0 (int32 (imm ≫ 32))) in
  (∀ o' b, maybeWriteTrampoline o' h2 b = Some b)
  ∧ ∃ b0 b1 b2 b3,
      run os cs1 (NewBlock debug) = Some b0
      ∧ maybeWriteTrampoline (os (length cs1)) h1 b0 = Some b1
      ∧ Block.LoadImm64 (os (length cs1)) dst imm b0 = Some b2
      ∧ insns b2
        = (if nextInsnReachable b1 then insns b1 ++ [h1; h2] else insns b1)
      ∧ run os (cs1 ++ CLoadImm64 dst imm :: cs2) (NewBlock debug) = Some b3
      ∧ ∀ ns,
          Assemble o b3 = Some (Some ns, None) →
          nextInsnReachable b1 = true →
          ∃ n1 n2,
            ns !! length (insns b1) = Some n1
            ∧ ns !! S (length (insns b1)) = Some n2
            ∧ Insn.OpCode n1 = LoadImm64 ∧ Insn.OpCode n2 = LoadImm64Pt2
            ∧ Insn.Imm n1 = int32 imm ∧ Insn.Imm n2 = int32 (imm ≫ 32).
Proof.
  intros Ho h1 h2. split; [intros o' b; apply maybeWriteTrampoline_Pt2|].
  destruct (safe_run os cs1 (NewBlock debug) (wf_NewBlock debug))
    as (b0 & Hrun0 & Hwf0 & _).
  destruct (safe_maybeWriteTrampoline (os (length cs1)) h1 b0 Hwf0)
    as (b1 & Htr & Hwf1 & _).
  destruct (safe_LoadImm64 (os (length cs1)) dst imm b0 Hwf0)
    as (b2 & Hload & Hwf2 & _).
  assert (Hins2 : insns b2
            = if nextInsnReachable b1 then insns b1 ++ [h1; h2] else insns b1).
  { unfold Block.LoadImm64 in Hload. unfold h1, h2 in *.
    rewrite add_plain, Htr in Hload. cbn [mbind option_bind] in Hload.
    rewrite add_plain, maybeWriteTrampoline_Pt2 in Hload.
    cbn [mbind option_bind fmap option_fmap option_map snd] in Hload.
    injection Hload as <-.
    apply NoTrampoline_pair; vm_compute; congruence. }
  destruct (safe_run (fun k => os (length cs1 + S k)%nat) cs2 b2 Hwf2)
    as (b3 & Hrun3 & Hwf3 & Hext3).
  exists b0, b1, b2, b3. split; [exact Hrun0|]. split; [exact Htr|].
  split; [exact Hload|]. split; [exact Hins2|]. split.
  { rewrite run_app, Hrun0. cbn [mbind option_bind run].
    rewrite Nat.add_0_r. cbn [exec]. rewrite Hload. exact Hrun3. }
  intros ns Hasm Hr. rewrite Hr in Hins2.
  assert (Hd : deferredErr b3 = None).
  { destruct (deferredErr b3) as [e|] eqn:Hd; [|reflexivity].
    rewrite (Assemble_latched o b3 e Hd) in Hasm. discriminate. }
  destruct (Assemble_spec o b3 Ho Hwf3 Hd)
    as (b' & err & _ & Hasm' & (ns' & fx & Hb') & _ & Hskel & _).
  rewrite Hasm in Hasm'. destruct err as [e|]; [discriminate|].
  injection Hasm' as ->.
  assert (Hskel' : skeleton <$> (if policyDebugEnabled b3
                                 then Assemble_debug b' else insns b')
                   = skeleton <$> insns b3).
  { destruct (policyDebugEnabled b3); [|exact Hskel].
    now rewrite skeleton_Assemble_debug. }
  destruct Hext3 as [[rest Hpre] _].
  rewrite Hins2, fmap_app in Hpre. cbn [fmap list_fmap] in Hpre.
  set (out := if policyDebugEnabled b3 then Assemble_debug b' else insns b')
    in *.
  assert (H1 : (skeleton <$> out) !! length (insns b1) = Some (skeleton h1)).
  { rewrite Hskel', Hpre, <- app_assoc.
    rewrite lookup_app_r by now rewrite length_fmap.
    now rewrite length_fmap, Nat.sub_diag. }
  assert (H2 : (skeleton <$> out) !! S (length (insns b1))
               = Some (skeleton h2)).
  { rewrite Hskel', Hpre, <- app_assoc.
    rewrite lookup_app_r by (rewrite length_fmap; lia).
    rewrite length_fmap.
    now replace (S (length (insns b1)) - length (insns b1))%nat with 1%nat
      by lia. }
  rewrite list_lookup_fmap in H1, H2.
  destruct (out !! length (insns b1)) as [n1|]; [|discriminate].
  destruct (out !! S (length (insns b1))) as [n2|]; [|discriminate].
  cbn [fmap option_fmap option_map] in H1, H2.
  injection H1 as H1. injection H2 as H2.
  apply skeleton_fields in H1 as (Hop1 & _ & _ & Himm1).
  apply skeleton_fields in H2 as (Hop2 & _ & _ & Himm2).
  exists n1, n2. split; [reflexivity|]. split; [reflexivity|].
  rewrite Hop1, Hop2, Himm1, Himm2. subst h1 h2.
  split; [reflexivity|]. split; [reflexivity|].
  assert (Hint32 : ∀ x, Insn.Imm (with_Annotation ""
                          (MakeInsn LoadImm64 dst 0 0 (int32 x))) = int32 x
                        ∧ Insn.Imm (with_Annotation ""
                            (MakeInsn LoadImm64Pt2 0 0 0 (int32 x))) = int32 x).
  { intros x.
    change (Insn.Imm (MakeInsn LoadImm64 dst 0 0 (int32 x)) = int32 x
            ∧ Insn.Imm (MakeInsn LoadImm64Pt2 0 0 0 (int32 x)) = int32 x).
    rewrite !MakeInsn_Imm.
    assert (- 2 ^ 31 ≤ int32 x < 2 ^ 31).
    { unfold int32. pose proof (Z.mod_pos_bound (x + 2 ^ 31) (2 ^ 32)). lia. }
    now rewrite int32_uint32. }
  split; [exact (proj1 (Hint32 imm))|exact (proj2 (Hint32 (imm ≫ 32)))].
Qed.

Lemma C4_LoadImm64_not_split_witness :
  let cs1 := [CSetTrampolineStride 3;
              CInstrWithOffsetFixup JumpEq64 R1 R2 "L" 0;
              CInstr Mov64 R1 R2 0 0 ""; CInstr Mov64 R1 R2 0 0 ""] in
  let cs2 := [CInstr Mov64 R1 R2 0 0 ""; CLabelNextInsn "L";
              CInstr Exit 0 0 0 0 ""] in
  ∃ b0 b1 b3,
    run (fun _ => in_order) cs1 (NewBlock false) = Some b0
    ∧ (Z.of_nat (length (insns b0)) - Z.of_nat (lastTrampolineAddr b0)
       >= trampolineStride b0)
    ∧ maybeWriteTrampoline in_order
        (with_Annotation "" (MakeInsn LoadImm64 R3 0 0 (int32 (2 ^ 40 + 7))))
        b0 = Some b1
    ∧ length (insns b1) = 5%nat
    ∧ run (fun _ => in_order) (cs1 ++ CLoadImm64 R3 (2 ^ 40 + 7) :: cs2)
        (NewBlock false) = Some b3
    ∧ ∀ ns, Assemble in_order b3 = Some (Some ns, None) →
        ∃ n1 n2, ns !! 5%nat = Some n1 ∧ ns !! 6%nat = Some n2
                 ∧ Insn.OpCode n1 = LoadImm64 ∧ Insn.OpCode n2 = LoadImm64Pt2
                 ∧ Insn.Imm n1 = 7 ∧ Insn.Imm n2 = 256.
Proof.
  intros cs1 cs2.
  destruct (C4_LoadImm64_not_split (fun _ => in_order) in_order false
              cs1 cs2 R3 (2 ^ 40 + 7) fair_in_order)
    as (_ & b0 & b1 & b2 & b3 & Hrun0 & Htr & _ & _ & Hrun3 & Hout).
  vm_compute in Hrun0. injection Hrun0 as <-.
  vm_compute in Htr. injection Htr as <-.
  eexists _, _, b3. split; [reflexivity|]. split; [vm_compute; congruence|].
  split; [vm_compute; reflexivity|]. split; [reflexivity|].
  split; [exact Hrun3|]. intros ns Hns.
  destruct (Hout ns Hns) as (n1 & n2 & H1 & H2 & Hop1 & Hop2 & Hi1 & Hi2);
    [reflexivity|].
  exists n1, n2. repeat split; assumption.
Defined.

(** ** Trampolines on a long forward jump *)

Lemma JumpNoTrampoline_form label b :
  nextInsnReachable b = true → label ≠ "" →
  ∃ j, Insn.OpCode j = JumpA
       ∧ JumpNoTrampoline label b
         = with_NumJumps (S (NumJumps b))
             (with_fixUps
                (<[label := slice_at (fixUps b) label
                            ++ [mkFixUp (length (insns b))]]> (fixUps b))
                (with_inUseJumpTargets ({[label]} ∪ inUseJumpTargets b)
                   (with_insns (insns b ++ [j]) b))).
Proof.
  intros Hr Hne. unfold JumpNoTrampoline, addInsnWithOffsetFixupNoTrampoline.
  rewrite Hr. cbn [negb]. rewrite bool_decide_eq_true_2 by exact Hne.
  change ((Insn.OpClass (MakeInsn JumpA 0 0 0 0) =? OpClassJump64)
          || (Insn.OpClass (MakeInsn JumpA 0 0 0 0) =? OpClassJump32))
    with true.
  blk. destruct (policyDebugEnabled b) eqn:Hdbg.
  - exists (with_Annotation ("goto " +:+ label) (MakeInsn JumpA 0 0 0 0)).
    split; [reflexivity|]. blk.
    rewrite length_alter, !length_app. cbn [length].
    rewrite Nat.add_sub. rewrite alter_app_r_alt by lia.
    rewrite Nat.sub_diag. reflexivity.
  - exists (MakeInsn JumpA 0 0 0 0). split; [reflexivity|]. blk.
    rewrite !length_app. cbn [length]. rewrite Nat.add_sub. reflexivity.
Qed.

Lemma NoTrampoline_plain_form insn b :
  nextInsnReachable b = true →
  ∃ nj, addInsnWithOffsetFixupNoTrampoline insn "" b
        = with_NumJumps nj (with_insns (insns b ++ [insn]) b).
Proof.
  intros Hr. unfold addInsnWithOffsetFixupNoTrampoline. rewrite Hr.
  cbn [negb]. rewrite bool_decide_eq_false_2 by (intros H; now apply H).
  destruct (_ || _); [exists (S (NumJumps b))|exists (NumJumps b)];
    reflexivity.
Qed.

Lemma NoTrampoline_plain_frame insn b :
  fixUps (addInsnWithOffsetFixupNoTrampoline insn "" b) = fixUps b
  ∧ deferredErr (addInsnWithOffsetFixupNoTrampoline insn "" b)
    = deferredErr b.
Proof.
  destruct (nextInsnReachable b) eqn:Hr.
  - destruct (NoTrampoline_plain_form insn b Hr) as [nj ->]. auto.
  - rewrite (NoTrampoline_unreachable insn "" b Hr). auto.
Qed.

Lemma LabelNextInsn_single label i b :
  fixUps b !! label = Some [mkFixUp i] →
  (i < length (insns b))%nat →
  offset_ok (jump_offset (length (insns b)) i) →
  LabelNextInsn label b
  = Some (with_fixUps (delete label (fixUps b))
            (with_insns
               (alter (patch_offset (jump_offset (length (insns b)) i)) i
                  (insns b))
               (bind_label label b))).
Proof.
  intros HL Hi Hok. rewrite LabelNextInsn_bind_label.
  unfold applyFixUps, slice_at, bind_label. blk. rewrite HL.
  cbn [default from_option id applyFixUps_loop]. blk.
  rewrite lookup_insert_eq.
  cbn [origInsnIdx].
  change (Z.of_nat (length (insns b)) - Z.of_nat i - 1)
    with (jump_offset (length (insns b)) i).
  apply offset_ok_tests in Hok as [-> ->].
  destruct (lookup_lt_is_Some_2 _ _ Hi) as [n ->]. reflexivity.
Qed.


Lemma skip_label_neq_L x : "skip-trampoline-" +:+ x ≠ "L".
Proof. discriminate. Qed.

Lemma skip_label_neq_empty x : "skip-trampoline-" +:+ x ≠ "".
Proof. discriminate. Qed.

Lemma range_keys_singleton {V} o (v : V) :
  fair o → range_keys o ({["L" := v]} : gmap string V) = ["L"].
Proof.
  intros Ho. unfold range_keys. rewrite map_to_list_singleton. cbn.
  apply Permutation_singleton_r. apply Ho.
Qed.

Lemma exec_CInstr o opcode dst src offset imm annotation b :
  exec o (CInstr opcode dst src offset imm annotation) b
  = b1 ← maybeWriteTrampoline o
           (with_Annotation annotation (MakeInsn opcode dst src offset imm)) b;
    Some (addInsnWithOffsetFixupNoTrampoline
            (with_Annotation annotation (MakeInsn opcode dst src offset imm))
            "" b1).
Proof.
  cbn [exec]. unfold Instr. rewrite add_plain.
  now destruct (maybeWriteTrampoline _ _ b).
Qed.

Lemma reachable_after prev b :
  last (insns b) = Some prev →
  Insn.OpCode prev ≠ JumpA → Insn.OpCode prev ≠ Exit →
  nextInsnReachable b = true.
Proof.
  intros Hl HJ HE. apply nextInsnReachable_reachable. right; left. eauto.
Qed.

Lemma reachable_labelled l b :
  l ∈ slice_at (insnIdxToLabels b) (length (insns b)) →
  l ∈ inUseJumpTargets b →
  nextInsnReachable b = true.
Proof.
  intros Hl Hu. apply nextInsnReachable_reachable. right; right. eauto.
Qed.

Lemma sort_Strings_singleton x : sort_Strings [x] = [x].
Proof. reflexivity. Qed.

Lemma max_stride_bound st :
  0 < st ≤ TrampolineStrideDefault → Z.max st 3 ≤ 32667.
Proof. unfold TrampolineStrideDefault, MaxInt16, trampolineHeadroom. lia. Qed.

(** A trampoline written while only "L" is pending: a skip jump, the
    relay for "L", and the skip label, with the old fix-up resolved to the
    relay and the relay as the new fix-up. *)
Lemma writeTrampoline_single o st b i :
  fair o → 0 < st ≤ TrampolineStrideDefault → tramp_inv st b i →
  ∃ b',
    writeTrampoline o b = Some b'
    ∧ trampolinesEnabled b' = true ∧ trampolineStride b' = st
    ∧ deferredErr b' = None
    ∧ fixUps b' = {["L" := [mkFixUp (S (length (insns b)))]]}
    ∧ "L" ∈ inUseJumpTargets b'
    ∧ lastTrampolineAddr b' = length (insns b)
    ∧ length (insns b') = S (S (length (insns b)))
    ∧ nextInsnReachable b' = true.
Proof.
  intros Ho Hst (Hen & Hstride & Hd & Hfix & Huse & Hi & Hdist & prev & Hlast & HJ & HE).
  pose proof (max_stride_bound st Hst) as Hmax.
  unfold writeTrampoline. blk. rewrite Hfix, map_size_singleton.
  cbn [Nat.eqb]. rewrite (range_keys_singleton o _ Ho), sort_Strings_singleton.
  set (sk := "skip-trampoline-" +:+ pretty (trampolineIdx b)).
  assert (HskL : sk ≠ "L") by apply skip_label_neq_L.
  assert (Hsk0 : sk ≠ "") by apply skip_label_neq_empty.
  set (t := length (insns b)) in *.
  (* the skip jump *)
  destruct (JumpNoTrampoline_form sk
              (with_trampolineIdx (S (trampolineIdx b))
                 (with_lastTrampolineAddr t b)))
    as (j1 & Hj1 & ->); [now apply (reachable_after prev)|exact Hsk0|].
  blk. rewrite Hfix. fold t.
  assert (Hs1 : slice_at ({["L" := [mkFixUp i]]} : gmap string (list fixUp)) sk = []).
  { unfold slice_at. now rewrite lookup_singleton_ne. }
  rewrite Hs1. cbn [app].
  (* the bind of "L" and its relay *)
  cbn [writeTrampoline_loop].
  rewrite (LabelNextInsn_single "L" i); blk.
  2:{ rewrite lookup_insert_ne by done. now rewrite lookup_singleton_eq. }
  2:{ rewrite length_app. cbn. lia. }
  2:{ rewrite length_app. cbn [length]. unfold offset_ok, jump_offset, MinInt16, MaxInt16. lia. }
  cbn [mbind option_bind].
  match goal with
  | |- context [JumpNoTrampoline "L" ?b0] =>
      destruct (JumpNoTrampoline_form "L" b0) as (j2 & Hj2 & ->)
  end.
  { apply (reachable_labelled "L"); unfold bind_label; blk.
    - rewrite length_alter. unfold slice_at at 1. rewrite lookup_insert_eq.
      cbn [default from_option id]. apply elem_of_app. right.
      apply list_elem_of_here.
    - apply elem_of_union_r. exact Huse. }
  { discriminate. }
  unfold bind_label. blk. rewrite length_alter, length_app. cbn [length].
  assert (Hs2 : slice_at (delete "L" (<[sk := [mkFixUp t]]>
                            ({["L" := [mkFixUp i]]} : gmap string (list fixUp))))
                  "L" = []).
  { unfold slice_at. now rewrite lookup_delete_eq. }
  rewrite Hs2. cbn [app].
  (* the bind of the skip label *)
  rewrite (LabelNextInsn_single sk t); blk.
  2:{ rewrite lookup_insert_ne by done. rewrite lookup_delete_ne by done.
      now rewrite lookup_insert_eq. }
  2:{ rewrite length_app, length_alter, length_app. cbn. lia. }
  2:{ rewrite length_app, length_alter, length_app. cbn [length].
      unfold offset_ok, jump_offset, MinInt16, MaxInt16. lia. }
  eexists. split; [reflexivity|]. unfold bind_label. blk.
  rewrite !length_alter, !length_app, !length_alter, !length_app. cbn [length].
  split; [exact Hen|]. split; [exact Hstride|]. split; [exact Hd|].
  split; [|split; [|split; [|split]]].
  - apply map_eq. intros k.
    destruct (decide (k = sk)) as [->|Hk1].
    + rewrite lookup_delete_eq. now rewrite lookup_singleton_ne.
    + rewrite lookup_delete_ne by done.
      destruct (decide (k = "L")) as [->|Hk2].
      * rewrite lookup_insert_eq, lookup_singleton_eq. do 3 f_equal. lia.
      * rewrite lookup_insert_ne by done. rewrite lookup_delete_ne by done.
        rewrite lookup_insert_ne by done. now rewrite !lookup_singleton_ne.
  - apply elem_of_union_l. now apply elem_of_singleton.
  - reflexivity.
  - lia.
  - apply (reachable_labelled sk); blk.
    + rewrite !length_alter, !length_app, !length_alter, !length_app.
      cbn [length]. unfold slice_at at 1. rewrite lookup_insert_eq.
      cbn [default from_option id]. apply elem_of_app. right.
      apply list_elem_of_here.
    + apply elem_of_union_r, elem_of_union_l. now apply elem_of_singleton.
Qed.

Lemma OpCode_with_Annotation a n :
  Insn.OpCode (with_Annotation a n) = Insn.OpCode n.
Proof. reflexivity. Qed.







(** The effective stride after [SetTrampolineStride s] on a fresh block. *)
Lemma stride_after_set s en debug :
  0 < trampolineStride
        (SetTrampolineStride s (SetTrampolinesEnabled en (NewBlock debug)))
    ≤ TrampolineStrideDefault.
Proof.
  unfold SetTrampolineStride. change (1 ≪ 14) with 16384.
  destruct (Z.gtb_spec s 0), (Z.ltb_spec s 16384); cbn [andb];
    unfold SetTrampolinesEnabled, NewBlock; blk;
    unfold TrampolineStrideDefault, MaxInt16, trampolineHeadroom; lia.
Qed.

Lemma configured_fields s en debug :
  let b := SetTrampolineStride s (SetTrampolinesEnabled en (NewBlock debug)) in
  insns b = [] ∧ fixUps b = ∅ ∧ inUseJumpTargets b = ∅
  ∧ trampolinesEnabled b = en ∧ lastTrampolineAddr b = 0%nat
  ∧ deferredErr b = None.
Proof.
  unfold SetTrampolineStride. destruct (_ && _); repeat split.
Qed.

(** The block after the configuration calls and the jump to "L". *)
Lemma jump_emitted o s en debug jump ra rb :
  uint8 jump ≠ JumpA → uint8 jump ≠ Exit →
  ∃ b,
    exec o (CInstrWithOffsetFixup jump ra rb "L" 0)
      (SetTrampolineStride s (SetTrampolinesEnabled en (NewBlock debug)))
    = Some b
    ∧ trampolinesEnabled b = en
    ∧ trampolineStride b
      = trampolineStride
          (SetTrampolineStride s (SetTrampolinesEnabled en (NewBlock debug)))
    ∧ deferredErr b = None
    ∧ fixUps b = {["L" := [mkFixUp 0]]}
    ∧ "L" ∈ inUseJumpTargets b
    ∧ lastTrampolineAddr b = 0%nat
    ∧ length (insns b) = 1%nat
    ∧ ∃ prev, last (insns b) = Some prev
              ∧ Insn.OpCode prev ≠ JumpA ∧ Insn.OpCode prev ≠ Exit.
Proof.
  intros HJ HE.
  pose proof (stride_after_set s en debug) as Hst.
  destruct (configured_fields s en debug)
    as (Hins & Hfix & Huse & Hen & Hlt & Hd).
  set (b0 := SetTrampolineStride s (SetTrampolinesEnabled en (NewBlock debug)))
    in *.
  cbn [exec]. unfold InstrWithOffsetFixup, addWithOffsetFixup,
    addInsnWithOffsetFixup.
  assert (Htr : maybeWriteTrampoline o (MakeInsn jump ra rb 0 0) b0 = Some b0).
  { unfold maybeWriteTrampoline. destruct (negb _); [reflexivity|].
    rewrite Hins, Hlt. cbn [length].
    destruct (Z.ltb_spec (Z.of_nat 0 - Z.of_nat 0)
                (trampolineStride b0)); [reflexivity|lia]. }
  rewrite Htr. cbn [mbind option_bind fmap option_fmap option_map snd].
  assert (Hr : nextInsnReachable b0 = true).
  { unfold nextInsnReachable. now rewrite Hins. }
  destruct (NoTrampoline_reachable (MakeInsn jump ra rb 0 0) "L" b0 Hr)
    as ((insn' & Hins' & Hbytes) & Hfix' & Huse' & _ & _ & _ & _ & Hen'
        & _ & Hlt' & Hd' & Hstride').
  rewrite bool_decide_eq_true_2 in Hfix', Huse' by discriminate.
  eexists. split; [reflexivity|].
  rewrite Hen', Hstride', Hd', Hfix', Huse', Hlt', Hins', Hins, Hfix.
  repeat (split; [first [assumption|reflexivity]|]).
  split; [apply elem_of_union_l; now apply elem_of_singleton|].
  split; [assumption|]. split; [reflexivity|].
  exists insn'. split; [reflexivity|].
  unfold Insn.OpCode. rewrite Hbytes. fold (Insn.OpCode (MakeInsn jump ra rb 0 0)).
  rewrite MakeInsn_OpCode. auto.
Qed.

Lemma long_jump_app en s jump ra rb fill :
  long_jump en s jump ra rb fill
  = [CSetTrampolinesEnabled en; CSetTrampolineStride s]
      ++ [CInstrWithOffsetFixup jump ra rb "L" 0]
      ++ fill ++ [CLabelNextInsn "L"; CInstr Exit 0 0 0 0 ""].
Proof. reflexivity. Qed.




(** ** Invariants of the builder *)

(** *** What [applyFixUps] can change *)

Lemma patched_refl n : patched n n.
Proof. now left. Qed.

Lemma patch_offset_twice off off' n :
  patch_offset off (patch_offset off' n) = patch_offset off n.
Proof.
  unfold patch_offset, with_Instruction, PutUint16_2_4. cbn [Instruction Labels Comments Annotation].
  f_equal. generalize (Instruction n). intros v.
  inv_vec v; intros. reflexivity.
Qed.

Lemma patched_patch_offset off n n' :
  patched n n' → patched n (patch_offset off n').
Proof.
  intros [->|[off' ->]]; right; exists off; [reflexivity|].
  apply patch_offset_twice.
Qed.

Lemma Forall2_patched_refl ns : Forall2 patched ns ns.
Proof. apply Forall2_same_length_lookup_2; [reflexivity|]. intros i x y H1 H2. simplify_eq. apply patched_refl. Qed.

Lemma Forall2_patched_alter off i ns ns' :
  Forall2 patched ns ns' → Forall2 patched ns (alter (patch_offset off) i ns').
Proof.
  intros H. revert i. induction H as [|n n' ns ns' Hn H IH]; intros i; [constructor|].
  destruct i as [|i]; cbn.
  - constructor; [now apply patched_patch_offset|assumption].
  - constructor; [assumption|apply IH].
Qed.

Lemma applyFixUps_loop_shape L fs b b' err :
  applyFixUps_loop L fs b = Some (b', err) →
  ∃ ns, b' = with_insns ns b ∧ Forall2 patched (insns b) ns.
Proof.
  revert b. induction fs as [|f fs IH]; intros b; cbn [applyFixUps_loop].
  - intros [= <- <-]. exists (insns b). split; [now rewrite with_insns_id|].
    apply Forall2_patched_refl.
  - destruct (labelToInsnIdx b !! L) as [t|];
      [|intros [= <- <-]; exists (insns b); split;
        [now rewrite with_insns_id|apply Forall2_patched_refl]].
    destruct (_ =? -1);
      [intros [= <- <-]; exists (insns b); split;
        [now rewrite with_insns_id|apply Forall2_patched_refl]|].
    destruct (_ || _);
      [intros [= <- <-]; exists (insns b); split;
        [now rewrite with_insns_id|apply Forall2_patched_refl]|].
    destruct (insns b !! origInsnIdx f); [|discriminate].
    intros Hrun. apply IH in Hrun as (ns & -> & Hns). blk.
    exists ns. split; [now rewrite with_insns_twice|].
    revert Hns. generalize (Z.of_nat t - Z.of_nat (origInsnIdx f) - 1).
    intros off Hns.
    apply Forall2_same_length_lookup_2.
    { apply Forall2_length in Hns. now rewrite length_alter in Hns. }
    intros k x y Hx Hy.
    pose proof (Forall2_lookup_r _ _ _ _ _ Hns Hy) as (x' & Hx' & Hp).
    destruct (decide (k = origInsnIdx f)) as [->|Hne].
    + rewrite list_lookup_alter, Hx in Hx'. cbn in Hx'.
      rewrite decide_True in Hx' by done. simplify_eq.
      destruct Hp as [->|[off' ->]]; right; eexists; [reflexivity|].
      apply patch_offset_twice.
    + rewrite list_lookup_alter_ne in Hx' by done. now simplify_eq.
Qed.

Lemma applyFixUps_shape L b b' err :
  applyFixUps L b = Some (b', err) →
  ∃ ns, Forall2 patched (insns b) ns
        ∧ (err = None
           ∧ b' = with_fixUps (delete L (fixUps b)) (with_insns ns b)
           ∨ err ≠ None ∧ b' = with_insns ns b).
Proof.
  unfold applyFixUps.
  destruct (applyFixUps_loop L _ b) as [[b1 [e|]]|] eqn:Hrun; [| |discriminate].
  - intros [= <- <-]. apply applyFixUps_loop_shape in Hrun as (ns & -> & Hns).
    exists ns. split; [assumption|]. now right.
  - intros [= <- <-]. apply applyFixUps_loop_shape in Hrun as (ns & -> & Hns).
    exists ns. split; [assumption|]. now left.
Qed.

(** *** A property kept by the primitive updates is kept by every call *)

Section Keeps.
Variable P : Block → Prop.
Hypothesis P_cfg : ∀ b b', P b → same_core b b' → P b'.
Hypothesis P_bind : ∀ label b, P b → P (bind_label label b).
Hypothesis P_patch :
  ∀ ns b, P b → Forall2 patched (insns b) ns → P (with_insns ns b).
Hypothesis P_resolve :
  ∀ L b, P b → P (with_fixUps (delete L (fixUps b)) b).
Hypothesis P_err : ∀ e b, P b → P (with_deferredErr e b).
Hypothesis P_emit :
  ∀ opcode dst src offset imm annotation targetLabel b,
    wf b → P b →
    P (addInsnWithOffsetFixupNoTrampoline
         (with_Annotation annotation (MakeInsn opcode dst src offset imm))
         targetLabel b).

Lemma keeps_bind (f g : Block → option Block) :
  safe f → keeps P f → keeps P g → keeps P (fun b => b' ← f b; g b').
Proof.
  intros Hs Hf Hg b b' Hwf HP Hrun.
  destruct (Hs b Hwf) as (b1 & Hb1 & Hwf1 & _).
  rewrite Hb1 in Hrun. cbn in Hrun.
  eapply Hg; [exact Hwf1| |exact Hrun]. exact (Hf b b1 Hwf HP Hb1).
Qed.

Lemma keeps_applyFixUps L b b' err :
  P b → applyFixUps L b = Some (b', err) → P b'.
Proof.
  intros HP Hrun. apply applyFixUps_shape in Hrun as (ns & Hns & [[_ ->]|[_ ->]]).
  - apply (P_resolve L (with_insns ns b)). now apply P_patch.
  - now apply P_patch.
Qed.

Lemma keeps_LabelNextInsn label : keeps P (LabelNextInsn label).
Proof.
  intros b b' _ HP. rewrite LabelNextInsn_bind_label.
  destruct (applyFixUps label (bind_label label b)) as [[b1 err]|] eqn:Hrun;
    [|discriminate].
  apply keeps_applyFixUps in Hrun; [|now apply P_bind].
  cbn. destruct err; [destruct (deferredErr b1)|]; intros [= <-];
    try assumption.
  now apply P_err.
Qed.

Lemma keeps_JumpNoTrampoline label :
  keeps P (fun b => Some (JumpNoTrampoline label b)).
Proof.
  intros b b' Hwf HP [= <-].
  exact (P_emit JumpA 0 0 0 0 "" label b Hwf HP).
Qed.

Lemma keeps_writeTrampoline_loop labels :
  keeps P (writeTrampoline_loop labels).
Proof.
  induction labels as [|label rest IH]; cbn [writeTrampoline_loop].
  - now intros b b' _ HP [= <-].
  - apply (keeps_bind (LabelNextInsn label)
             (fun b => writeTrampoline_loop rest (JumpNoTrampoline label b))).
    + apply safe_LabelNextInsn.
    + apply keeps_LabelNextInsn.
    + intros b b' Hwf HP Hrun.
      eapply IH; [| |exact Hrun].
      * now apply NoTrampoline_wf.
      * now apply (keeps_JumpNoTrampoline label b).
Qed.

Lemma keeps_writeTrampoline o : keeps P (writeTrampoline o).
Proof.
  intros b b' Hwf HP. unfold writeTrampoline. blk.
  set (b0 := with_lastTrampolineAddr (length (insns b)) b).
  assert (HP0 : P b0) by (apply (P_cfg b); [assumption|now repeat split]).
  destruct (size (fixUps b) =? 0)%nat; [now intros [= <-]|].
  set (b1 := with_trampolineIdx _ b0).
  assert (Hwf1 : wf b1) by exact Hwf.
  assert (HP1 : P b1) by (apply (P_cfg b); [assumption|now repeat split]).
  set (endLabel := "skip-trampoline-" +:+ pretty (trampolineIdx b)).
  pose proof (NoTrampoline_wf (MakeInsn JumpA 0 0 0 0) endLabel b1 Hwf1)
    as [Hwf2 _].
  pose proof (keeps_JumpNoTrampoline endLabel b1 _ Hwf1 HP1 eq_refl) as HP2.
  destruct (safe_writeTrampoline_loop
              (sort_Strings (range_keys o (fixUps b))) _ Hwf2)
    as (b3 & Hrun3 & Hwf3 & _).
  change (addInsnWithOffsetFixupNoTrampoline _ endLabel b1)
    with (JumpNoTrampoline endLabel b1) in Hrun3, Hwf2.
  rewrite Hrun3. cbn [mbind option_bind].
  apply keeps_LabelNextInsn; [assumption|].
  eapply keeps_writeTrampoline_loop; [exact Hwf2|exact HP2|exact Hrun3].
Qed.

Lemma keeps_maybeWriteTrampoline o nextInsn :
  keeps P (maybeWriteTrampoline o nextInsn).
Proof.
  intros b b' Hwf HP. unfold maybeWriteTrampoline.
  destruct (negb (trampolinesEnabled b)); [now intros [= <-]|].
  destruct (_ <? _); [now intros [= <-]|].
  destruct (_ =? _); [now intros [= <-]|].
  now apply keeps_writeTrampoline.
Qed.

Lemma keeps_addInsnWithOffsetFixup o opcode dst src offset imm annotation
    targetLabel :
  keeps P (addInsnWithOffsetFixup o
             (with_Annotation annotation (MakeInsn opcode dst src offset imm))
             targetLabel).
Proof.
  unfold addInsnWithOffsetFixup.
  apply (keeps_bind (maybeWriteTrampoline o _)
           (fun b => Some (addInsnWithOffsetFixupNoTrampoline _ targetLabel b))).
  - apply safe_maybeWriteTrampoline.
  - apply keeps_maybeWriteTrampoline.
  - intros b b' Hwf HP [= <-]. now apply P_emit.
Qed.

Lemma keeps_add o opcode dst src offset imm annotation :
  keeps P (fun b => snd <$> add o opcode dst src offset imm annotation b).
Proof.
  intros b b' Hwf HP. unfold add, addInsn.
  destruct (addInsnWithOffsetFixup _ _ _ b) as [b1|] eqn:Hrun; [|discriminate].
  intros [= <-]. eapply keeps_addInsnWithOffsetFixup; eassumption.
Qed.

Lemma keeps_addWithOffsetFixup o opcode dst src offsetLabel imm :
  keeps P
    (fun b => snd <$> addWithOffsetFixup o opcode dst src offsetLabel imm b).
Proof.
  intros b b' Hwf HP. unfold addWithOffsetFixup.
  destruct (addInsnWithOffsetFixup _ _ _ b) as [b1|] eqn:Hrun; [|discriminate].
  intros [= <-].
  exact (keeps_addInsnWithOffsetFixup o opcode dst src 0 imm "" offsetLabel
           b b1 Hwf HP Hrun).
Qed.

Lemma keeps_exec o c : keeps P (exec o c).
Proof.
  intros b b'. destruct c; cbn [exec].
  - apply keeps_add.
  - apply keeps_addWithOffsetFixup.
  - unfold Block.LoadImm64. rewrite add_pair. revert b b'.
    apply (keeps_bind (fun b => snd <$> add o LoadImm64 dst 0 0 (int32 imm) "" b)
             (fun b => snd <$> add o LoadImm64Pt2 0 0 0 (int32 (imm ≫ 32)) "" b));
      [apply safe_add|apply keeps_add..].
  - unfold Block.LoadMapFD. rewrite add_pair. revert b b'.
    apply (keeps_bind
             (fun b => snd <$> add o LoadImm64 dst RPseudoMapFD 0 (int32 fd) "" b)
             (fun b => snd <$> add o LoadImm64Pt2 0 0 0 0 "" b));
      [apply safe_add|apply keeps_add..].
  - apply keeps_JumpNoTrampoline.
  - apply keeps_LabelNextInsn.
  - intros _ HP [= <-]. unfold AddComment.
    destruct (negb (policyDebugEnabled b)); [assumption|].
    apply (P_cfg b); [assumption|now repeat split].
  - intros _ HP [= <-].
    apply (P_cfg b); [assumption|now repeat split].
  - intros _ HP [= <-]. unfold SetTrampolineStride.
    destruct (_ && _); [|assumption].
    apply (P_cfg b); [assumption|now repeat split].
Qed.

Lemma keeps_run os cs : keeps P (run os cs).
Proof.
  revert os. induction cs as [|c cs IH]; intros os; cbn [run].
  - now intros b b' _ HP [= <-].
  - apply (keeps_bind (exec (os 0%nat) c) (run (fun k => os (S k)) cs)).
    + apply safe_exec.
    + apply keeps_exec.
    + apply IH.
Qed.

End Keeps.

(** *** The reachable branch, instruction and counter *)

Lemma NoTrampoline_reachable_insn insn targetLabel b :
  nextInsnReachable b = true →
  ∃ a,
    insns (addInsnWithOffsetFixupNoTrampoline insn targetLabel b)
    = insns b ++ [with_Annotation a insn]
    ∧ NumJumps (addInsnWithOffsetFixupNoTrampoline insn targetLabel b)
      = (if is_jump insn then S (NumJumps b) else NumJumps b).
Proof.
  intros H. unfold addInsnWithOffsetFixupNoTrampoline, is_jump.
  rewrite H. cbn [negb].
  assert (Hidx : (length (insns b ++ [insn]) - 1)%nat = length (insns b))
    by (rewrite length_app; cbn; lia).
  assert (Halt : alter (with_Annotation ("goto " +:+ targetLabel))
                   (length (insns b)) (insns b ++ [insn])
                 = insns b ++ [with_Annotation ("goto " +:+ targetLabel) insn]).
  { rewrite alter_app_r_alt by lia.
    now replace (length (insns b) - length (insns b))%nat with 0%nat by lia. }
  assert (Hid : insn = with_Annotation (Annotation insn) insn) by now destruct insn.
  destruct (bool_decide (targetLabel ≠ "")), (policyDebugEnabled b) eqn:Hdbg,
    ((Insn.OpClass insn =? OpClassJump64) || (Insn.OpClass insn =? OpClassJump32));
    blk; rewrite ?Hdbg; blk; rewrite ?Hidx, ?Halt;
    first [ exists ("goto " +:+ targetLabel); split; reflexivity
          | exists (Annotation insn); rewrite <- Hid; split; reflexivity ].
Qed.

Lemma NoTrampoline_unreachable_insn insn targetLabel b :
  nextInsnReachable b = false →
  insns (addInsnWithOffsetFixupNoTrampoline insn targetLabel b) = insns b
  ∧ NumJumps (addInsnWithOffsetFixupNoTrampoline insn targetLabel b)
    = NumJumps b
  ∧ fixUps (addInsnWithOffsetFixupNoTrampoline insn targetLabel b) = fixUps b
  ∧ inUseJumpTargets (addInsnWithOffsetFixupNoTrampoline insn targetLabel b)
    = inUseJumpTargets b
  ∧ policyDebugEnabled (addInsnWithOffsetFixupNoTrampoline insn targetLabel b)
    = policyDebugEnabled b
  ∧ deferredErr (addInsnWithOffsetFixupNoTrampoline insn targetLabel b)
    = deferredErr b.
Proof. intros H. rewrite NoTrampoline_unreachable by done. now repeat split. Qed.

(** *** [NumJumps] *)

Lemma is_jump_patched n n' : patched n n' → is_jump n' = is_jump n.
Proof.
  intros [->|[off ->]]; [reflexivity|].
  unfold is_jump, Insn.OpClass.
  now rewrite (proj1 (skeleton_fields _ _ (skeleton_patch_offset off n))).
Qed.

Lemma is_jump_with_Annotation a n : is_jump (with_Annotation a n) = is_jump n.
Proof. reflexivity. Qed.

Lemma count_jumps_patched ns ns' :
  Forall2 patched ns ns' →
  length (filter (fun n => is_jump n = true) ns')
  = length (filter (fun n => is_jump n = true) ns).
Proof.
  induction 1 as [|n n' ns ns' Hn _ IH]; [reflexivity|].
  rewrite !filter_cons, (is_jump_patched _ _ Hn).
  destruct (decide (is_jump n = true)); cbn; now rewrite IH.
Qed.

Lemma jumps_counted_run os cs :
  keeps jumps_counted (run os cs).
Proof.
  apply keeps_run; unfold jumps_counted.
  - intros b b' HP (-> & _ & _ & _ & _ & _ & _ & ->). exact HP.
  - intros label b HP. exact HP.
  - intros ns b HP Hns. blk. now rewrite (count_jumps_patched _ _ Hns).
  - intros L b HP. exact HP.
  - intros e b HP. exact HP.
  - intros opcode dst src offset imm annotation targetLabel b _ HP.
    destruct (nextInsnReachable b) eqn:Hr.
    + destruct (NoTrampoline_reachable_insn
                  (with_Annotation annotation (MakeInsn opcode dst src offset imm))
                  targetLabel b Hr) as (a & -> & ->).
      rewrite filter_app, length_app, <- HP, filter_cons, filter_nil.
      rewrite !is_jump_with_Annotation.
      destruct (is_jump (MakeInsn opcode dst src offset imm)) eqn:Hj.
      * rewrite decide_True by done. cbn. lia.
      * rewrite decide_False by done. cbn. lia.
    + destruct (NoTrampoline_unreachable_insn
                  (with_Annotation annotation (MakeInsn opcode dst src offset imm))
                  targetLabel b Hr) as (-> & -> & _). exact HP.
Qed.

(** X1. [NumJumps] is, after any sequence of calls on a fresh block, the
    number of emitted instructions whose class is [OpClassJump64] or
    [OpClassJump32]: dropped instructions are not counted, the jumps of
    trampolines are, and so are [Exit] and [Call], which are of class
    [OpClassJump64]. *)
Theorem NumJumps_counts (os : nat → MapOrder) (debug : bool)
    (cs : list BuilderCall) :
  (∃ b, run os cs (NewBlock debug) = Some b
        ∧ NumJumps b
          = length (filter (fun n => is_jump n = true) (insns b)))
  ∧ (∀ dst src offset imm,
       is_jump (MakeInsn Exit dst src offset imm) = true
       ∧ is_jump (MakeInsn Call dst src offset imm) = true
       ∧ is_jump (MakeInsn JumpA dst src offset imm) = true
       ∧ is_jump (MakeInsn Mov64 dst src offset imm) = false).
Proof.
  split.
  - destruct (safe_run os cs (NewBlock debug) (wf_NewBlock debug))
      as (b & Hrun & _). exists b. split; [exact Hrun|].
    exact (jumps_counted_run os cs _ b (wf_NewBlock debug) eq_refl Hrun).
  - intros dst src offset imm. repeat split.
Qed.

(** *** Pending fix-ups and labels in use *)

Lemma Forall2_patched_length ns ns' :
  Forall2 patched ns ns' → length ns' = length ns.
Proof. intros H. symmetry. exact (Forall2_length _ _ _ H). Qed.

Lemma pending_used_run os cs : keeps pending_used (run os cs).
Proof.
  apply keeps_run; unfold pending_used.
  - intros b b' HP (_ & -> & _ & _ & -> & _) L fs. apply HP.
  - intros label b HP. exact HP.
  - intros ns b HP _. exact HP.
  - intros L0 b HP L fs. blk. intros H.
    apply lookup_delete_Some in H as [_ H]. now apply HP.
  - intros e b HP. exact HP.
  - intros opcode dst src offset imm annotation targetLabel b _ HP L fs.
    destruct (nextInsnReachable b) eqn:Hr.
    + destruct (NoTrampoline_reachable
                  (with_Annotation annotation (MakeInsn opcode dst src offset imm))
                  targetLabel b Hr) as (_ & -> & -> & _).
      destruct (bool_decide_reflect (targetLabel ≠ "")) as [Hne|_];
        [|apply HP].
      destruct (decide (targetLabel = L)) as [->|HL].
      * rewrite lookup_insert_eq. intros [= <-].
        split; [now destruct (slice_at (fixUps b) L)|].
        split; [assumption|]. apply elem_of_union_l. now apply elem_of_singleton.
      * rewrite lookup_insert_ne by done. intros H.
        destruct (HP _ _ H) as (? & ? & ?).
        repeat split; try assumption. now apply elem_of_union_r.
    + destruct (NoTrampoline_unreachable_insn
                  (with_Annotation annotation (MakeInsn opcode dst src offset imm))
                  targetLabel b Hr) as (_ & _ & -> & -> & _). apply HP.
Qed.

Lemma in_use_run (S : gset string) os cs :
  keeps (fun b => S ⊆ inUseJumpTargets b) (run os cs).
Proof.
  apply keeps_run.
  - now intros b b' HP (_ & _ & _ & _ & -> & _).
  - intros label b HP. exact HP.
  - intros ns b HP _. exact HP.
  - intros L0 b HP. exact HP.
  - intros e b HP. exact HP.
  - intros opcode dst src offset imm annotation targetLabel b _ HP.
    destruct (nextInsnReachable b) eqn:Hr.
    + destruct (NoTrampoline_reachable
                  (with_Annotation annotation (MakeInsn opcode dst src offset imm))
                  targetLabel b Hr) as (_ & _ & -> & _).
      destruct (bool_decide (targetLabel ≠ "")); [|exact HP].
      intros x Hx. apply elem_of_union_r. now apply HP.
    + destruct (NoTrampoline_unreachable_insn
                  (with_Annotation annotation (MakeInsn opcode dst src offset imm))
                  targetLabel b Hr) as (_ & _ & _ & -> & _). exact HP.
Qed.

Lemma empty_label_unused_run os cs :
  keeps (fun b => "" ∉ inUseJumpTargets b) (run os cs).
Proof.
  apply keeps_run.
  - now intros b b' HP (_ & _ & _ & _ & -> & _).
  - intros label b HP. exact HP.
  - intros ns b HP _. exact HP.
  - intros L0 b HP. exact HP.
  - intros e b HP. exact HP.
  - intros opcode dst src offset imm annotation targetLabel b _ HP.
    destruct (nextInsnReachable b) eqn:Hr.
    + destruct (NoTrampoline_reachable
                  (with_Annotation annotation (MakeInsn opcode dst src offset imm))
                  targetLabel b Hr) as (_ & _ & -> & _).
      destruct (bool_decide_reflect (targetLabel ≠ "")) as [Hne|_];
        [|exact HP].
      intros [H|H]%elem_of_union; [|done].
      apply elem_of_singleton in H. congruence.
    + destruct (NoTrampoline_unreachable_insn
                  (with_Annotation annotation (MakeInsn opcode dst src offset imm))
                  targetLabel b Hr) as (_ & _ & _ & -> & _). exact HP.
Qed.

(** *** Labels *)

Lemma foldl_delete_lookup_Some (m : gmap string nat) ls L t :
  foldl (fun m l => delete l m) m ls !! L = Some t →
  m !! L = Some t ∧ L ∉ ls.
Proof.
  revert m. induction ls as [|l ls IH]; intros m; cbn [foldl].
  - intros H. split; [exact H|apply not_elem_of_nil].
  - intros H. apply IH in H as [H Hnot].
    apply lookup_delete_Some in H as [Hne H].
    split; [exact H|]. intros [->|?]%elem_of_cons; [done|done].
Qed.

Lemma labels_bound_run os cs : keeps labels_bound (run os cs).
Proof.
  apply keeps_run; unfold labels_bound.
  - intros b b' HP (-> & _ & -> & -> & _). exact HP.
  - intros label b [H1 H2]. unfold bind_label. blk. split.
    + intros L t. destruct (decide (label = L)) as [->|Hne].
      * rewrite lookup_insert_eq. intros [= <-]. split; [lia|].
        unfold slice_at at 1. rewrite lookup_insert_eq. cbn.
        apply elem_of_app. right. now apply list_elem_of_singleton.
      * rewrite lookup_insert_ne by done. intros H.
        destruct (H1 _ _ H) as [Ht Hin]. split; [exact Ht|].
        destruct (decide (length (insns b) = t)) as [<-|Hnt].
        -- unfold slice_at at 1. rewrite lookup_insert_eq. cbn.
           apply elem_of_app. now left.
        -- unfold slice_at. rewrite lookup_insert_ne by done. exact Hin.
    + intros i ls. destruct (decide (length (insns b) = i)) as [<-|Hni].
      * intros _. lia.
      * rewrite lookup_insert_ne by done. apply H2.
  - intros ns b HP Hns. blk. now rewrite (Forall2_patched_length _ _ Hns).
  - intros L0 b HP. exact HP.
  - intros e b HP. exact HP.
  - intros opcode dst src offset imm annotation targetLabel b _ [H1 H2].
    destruct (nextInsnReachable b) eqn:Hr.
    + destruct (NoTrampoline_reachable
                  (with_Annotation annotation (MakeInsn opcode dst src offset imm))
                  targetLabel b Hr)
        as ((insn' & -> & _) & _ & _ & -> & -> & _).
      rewrite length_app. cbn [length]. split.
      * intros L t H. destruct (H1 _ _ H). split; [lia|assumption].
      * intros i ls H. pose proof (H2 _ _ H). lia.
    + rewrite NoTrampoline_unreachable by done. blk. split.
      * intros L t H. apply foldl_delete_lookup_Some in H as [H Hnot].
        destruct (H1 _ _ H) as [Ht Hin]. split; [exact Ht|].
        destruct (decide (length (insns b) = t)) as [<-|Hnt]; [done|].
        unfold slice_at. now rewrite lookup_delete_ne.
      * intros i ls H. apply lookup_delete_Some in H as [_ H]. eauto.
Qed.

(** X2. [UnresolvedJumpTargets] lists exactly the labels that have a
    pending entry in [fixUps], each once, in ascending order, whatever the
    order in which the map is ranged over; it is empty exactly when no
    entry is pending. *)
Theorem UnresolvedJumpTargets_spec (o : MapOrder) (b : Block) :
  fair o →
  (∀ L, L ∈ UnresolvedJumpTargets o b ↔ is_Some (fixUps b !! L))
  ∧ NoDup (UnresolvedJumpTargets o b)
  ∧ Sorted String.le (UnresolvedJumpTargets o b)
  ∧ (∀ o', fair o' → UnresolvedJumpTargets o' b = UnresolvedJumpTargets o b)
  ∧ (UnresolvedJumpTargets o b = [] ↔ fixUps b = ∅).
Proof.
  intros Ho. unfold UnresolvedJumpTargets, sort_Strings.
  assert (Hmem : ∀ L, L ∈ merge_sort String.le (range_keys o (fixUps b))
                      ↔ is_Some (fixUps b !! L)).
  { intros L. rewrite merge_sort_Permutation. now apply elem_of_range_keys. }
  split; [exact Hmem|]. split.
  { rewrite merge_sort_Permutation. now apply range_keys_NoDup. }
  split; [apply Sorted_merge_sort; apply _|]. split.
  { intros o' Ho'. now apply (sort_Strings_fair o' o). }
  split.
  - intros Hnil. apply map_eq. intros L. rewrite lookup_empty.
    destruct (fixUps b !! L) eqn:HL; [|reflexivity].
    assert (Hin : L ∈ merge_sort String.le (range_keys o (fixUps b)))
      by (apply Hmem; eauto).
    rewrite Hnil in Hin. now apply not_elem_of_nil in Hin.
  - intros Hempty. apply elem_of_nil_inv. intros L HL.
    apply Hmem in HL as [fs HL]. rewrite Hempty in HL. discriminate.
Qed.

Lemma UnresolvedJumpTargets_spec_witness :
  let b := with_fixUps {["b" := [mkFixUp 0]; "a" := [mkFixUp 1]]}
             (NewBlock false) in
  (∀ L, L ∈ UnresolvedJumpTargets backwards b ↔ is_Some (fixUps b !! L))
  ∧ UnresolvedJumpTargets backwards b = UnresolvedJumpTargets in_order b
  ∧ UnresolvedJumpTargets in_order b = ["a"; "b"].
Proof.
  intros b.
  destruct (UnresolvedJumpTargets_spec backwards b fair_backwards)
    as (Hmem & _ & _ & Hord & _).
  split; [exact Hmem|]. split.
  - symmetry. apply Hord, fair_in_order.
  - clear. vm_compute. reflexivity.
Defined.

(** X3. After any sequence of calls on a fresh block, every label that
    [UnresolvedJumpTargets] reports has at least one pending fix-up, is
    not the empty string and is reported as used by [TargetIsUsed]; the
    empty label is never in use. *)
Theorem unresolved_targets_used (os : nat → MapOrder) (debug : bool)
    (cs : list BuilderCall) :
  ∃ b, run os cs (NewBlock debug) = Some b
       ∧ TargetIsUsed "" b = false
       ∧ ∀ o L, fair o → L ∈ UnresolvedJumpTargets o b →
           slice_at (fixUps b) L ≠ [] ∧ L ≠ "" ∧ TargetIsUsed L b = true.
Proof.
  destruct (safe_run os cs (NewBlock debug) (wf_NewBlock debug))
    as (b & Hrun & _). exists b. split; [exact Hrun|]. split.
  - unfold TargetIsUsed. apply bool_decide_eq_false.
    apply (empty_label_unused_run os cs _ b (wf_NewBlock debug));
      [apply not_elem_of_empty|exact Hrun].
  - intros o L Ho HL.
    unfold UnresolvedJumpTargets, sort_Strings in HL.
    rewrite merge_sort_Permutation in HL.
    apply elem_of_range_keys in HL as [fs HL]; [|exact Ho].
    assert (HP : pending_used b).
    { apply (pending_used_run os cs _ b (wf_NewBlock debug)); [|exact Hrun].
      intros L' fs' H. cbn in H. now rewrite lookup_empty in H. }
    destruct (HP _ _ HL) as (Hne & HL0 & Hin).
    unfold slice_at, TargetIsUsed. rewrite HL. cbn.
    split; [exact Hne|]. split; [exact HL0|]. now apply bool_decide_eq_true.
Qed.

(** X4. A label once used stays used: no later call makes [TargetIsUsed]
    false again.  An unconditional [JumpNoTrampoline] to a non-empty label
    marks the label when the jump is reachable, and leaves the marks as
    they are when the jump is dropped. *)
Theorem TargetIsUsed_monotone (os os' : nat → MapOrder) (debug : bool)
    (cs cs' : list BuilderCall) :
  (∃ b b', run os cs (NewBlock debug) = Some b
           ∧ run os' cs' b = Some b'
           ∧ ∀ L, TargetIsUsed L b = true → TargetIsUsed L b' = true)
  ∧ (∀ b L L',
       L ≠ "" →
       TargetIsUsed L' (JumpNoTrampoline L b)
       = if nextInsnReachable b
         then bool_decide (L' = L) || TargetIsUsed L' b
         else TargetIsUsed L' b).
Proof.
  split.
  - destruct (safe_run os cs (NewBlock debug) (wf_NewBlock debug))
      as (b & Hrun & Hwf & _).
    destruct (safe_run os' cs' b Hwf) as (b' & Hrun' & _).
    exists b, b'. split; [exact Hrun|]. split; [exact Hrun'|].
    intros L HL. unfold TargetIsUsed in *.
    apply bool_decide_eq_true in HL. apply bool_decide_eq_true.
    apply (in_use_run (inUseJumpTargets b) os' cs' b b' Hwf); [done|exact Hrun'|exact HL].
  - intros b L L' HL. unfold JumpNoTrampoline, TargetIsUsed.
    destruct (nextInsnReachable b) eqn:Hr.
    + destruct (NoTrampoline_reachable (MakeInsn JumpA 0 0 0 0) L b Hr)
        as (_ & _ & -> & _).
      rewrite (bool_decide_eq_true_2 _ HL).
      destruct (decide (L' = L)) as [->|Hne].
      * rewrite (bool_decide_eq_true_2 (L = L)) by done.
        apply bool_decide_eq_true_2, elem_of_union_l.
        now apply elem_of_singleton.
      * rewrite (bool_decide_eq_false_2 (L' = L)) by done. cbn [orb].
        apply bool_decide_ext. split.
        -- intros [H|H]%elem_of_union; [|exact H].
           apply elem_of_singleton in H. contradiction.
        -- intros H. now apply elem_of_union_r.
    + destruct (NoTrampoline_unreachable_insn (MakeInsn JumpA 0 0 0 0) L b Hr)
        as (_ & _ & _ & -> & _). reflexivity.
Qed.

(** X5. After any sequence of calls on a fresh block, a label bound in
    [labelToInsnIdx] points at an emitted instruction or at the position
    of the next one, never beyond, and is listed in [insnIdxToLabels] at
    that position; [insnIdxToLabels] has no entry beyond that position
    either. *)
Theorem labels_within_program (os : nat → MapOrder) (debug : bool)
    (cs : list BuilderCall) :
  ∃ b, run os cs (NewBlock debug) = Some b
       ∧ (∀ L t, labelToInsnIdx b !! L = Some t →
                 (t ≤ length (insns b))%nat
                 ∧ L ∈ slice_at (insnIdxToLabels b) t)
       ∧ (∀ i ls, insnIdxToLabels b !! i = Some ls →
                  (i ≤ length (insns b))%nat).
Proof.
  destruct (safe_run os cs (NewBlock debug) (wf_NewBlock debug))
    as (b & Hrun & _). exists b. split; [exact Hrun|].
  apply (labels_bound_run os cs _ b (wf_NewBlock debug)); [|exact Hrun].
  split.
  - intros L t H. cbn in H. now rewrite lookup_empty in H.
  - intros i ls H. cbn in H. now rewrite lookup_empty in H.
Qed.

(** *** The byte image *)

Lemma AsBytes_foldl acc (ns : list Insn) :
  foldl (fun bs n => bs ++ vec_to_list (Instruction n)) acc ns
  = acc ++ AsBytes ns.
Proof.
  unfold AsBytes. revert acc.
  induction ns as [|n ns IH]; intros acc; cbn [foldl].
  - now rewrite app_nil_r.
  - rewrite (IH (acc ++ _)), (IH ([] ++ _)). now rewrite app_nil_l, app_assoc.
Qed.

Lemma AsBytes_cons n ns :
  AsBytes (n :: ns) = vec_to_list (Instruction n) ++ AsBytes ns.
Proof. unfold AsBytes at 1. cbn [foldl]. now rewrite AsBytes_foldl. Qed.

Lemma AsBytes_app ns ns' : AsBytes (ns ++ ns') = AsBytes ns ++ AsBytes ns'.
Proof.
  induction ns as [|n ns IH]; [reflexivity|].
  cbn [app]. now rewrite !AsBytes_cons, IH, app_assoc.
Qed.

Lemma AsBytes_length ns :
  length (AsBytes ns) = (InstructionSize * length ns)%nat.
Proof.
  induction ns as [|n ns IH]; [reflexivity|].
  rewrite AsBytes_cons, length_app, length_vec_to_list, IH.
  unfold InstructionSize. cbn [length]. lia.
Qed.

(** X6. [AsBytes] is the concatenation of the instructions in order:
    the result has [InstructionSize] bytes for each instruction, byte [j]
    of instruction [k] is at position [InstructionSize * k + j], and the
    image of an appended list is the two images appended. *)
Theorem AsBytes_layout (ns : list Insn) :
  length (AsBytes ns) = (InstructionSize * length ns)%nat
  ∧ (∀ k n (j : fin 8),
       ns !! k = Some n →
       AsBytes ns !! (InstructionSize * k + fin_to_nat j)%nat
       = Some (Instruction n !!! j))
  ∧ (∀ k j, (length ns ≤ k)%nat →
            AsBytes ns !! (InstructionSize * k + j)%nat = None)
  ∧ (∀ ns', AsBytes (ns ++ ns') = AsBytes ns ++ AsBytes ns').
Proof.
  split; [apply AsBytes_length|]. split; [|split].
  - induction ns as [|m ns IH]; intros k n j Hk; [discriminate|].
    rewrite AsBytes_cons. destruct k as [|k].
    + injection Hk as ->. rewrite Nat.mul_0_r, Nat.add_0_l.
      rewrite lookup_app_l
        by (rewrite length_vec_to_list; apply fin_to_nat_lt).
      now apply vlookup_lookup.
    + cbn [lookup list_lookup] in Hk.
      replace (InstructionSize * S k + fin_to_nat j)%nat
        with (length (vec_to_list (Instruction m))
              + (InstructionSize * k + fin_to_nat j))%nat
        by (rewrite length_vec_to_list; unfold InstructionSize; lia).
      rewrite lookup_app_r by lia.
      replace (length (vec_to_list (Instruction m))
               + (InstructionSize * k + fin_to_nat j)
               - length (vec_to_list (Instruction m)))%nat
        with (InstructionSize * k + fin_to_nat j)%nat by lia.
      now apply IH.
  - intros k j Hk. apply lookup_ge_None. rewrite AsBytes_length.
    unfold InstructionSize. lia.
  - apply AsBytes_app.
Qed.

(** *** The debug state does not steer the builder *)

Lemma length_insns_erase b : length (insns (erase b)) = length (insns b).
Proof. cbn. apply length_fmap. Qed.

Lemma nextInsnReachable_erase b :
  nextInsnReachable (erase b) = nextInsnReachable b.
Proof.
  unfold nextInsnReachable. rewrite length_insns_erase. cbn [erase insns insnIdxToLabels inUseJumpTargets].
  rewrite fmap_last. destruct (last (insns b)); reflexivity.
Qed.

Lemma strip_alter_with_Annotation a i (ns : list Insn) :
  strip <$> alter (with_Annotation a) i ns = strip <$> ns.
Proof.
  apply list_eq. intros k. rewrite !list_lookup_fmap.
  destruct (decide (k = i)) as [->|Hne].
  - rewrite list_lookup_alter, decide_True by done. now destruct (ns !! i).
  - now rewrite list_lookup_alter_ne.
Qed.

Lemma strip_alter_patch_offset off i (ns : list Insn) :
  strip <$> alter (patch_offset off) i ns
  = alter (patch_offset off) i (strip <$> ns).
Proof.
  apply list_eq. intros k. rewrite !list_lookup_fmap.
  destruct (decide (k = i)) as [->|Hne].
  - rewrite !list_lookup_alter, !decide_True by done.
    rewrite list_lookup_fmap. now destruct (ns !! i).
  - rewrite !list_lookup_alter_ne by done. now rewrite list_lookup_fmap.
Qed.

Lemma erase_NoTrampoline insn targetLabel b :
  erase (addInsnWithOffsetFixupNoTrampoline insn targetLabel b)
  = addInsnWithOffsetFixupNoTrampoline (strip insn) targetLabel (erase b).
Proof.
  unfold addInsnWithOffsetFixupNoTrampoline.
  rewrite nextInsnReachable_erase.
  destruct (nextInsnReachable b); cbn [negb].
  - unfold erase. blk.
    change (Insn.OpClass (strip insn)) with (Insn.OpClass insn).
    destruct (bool_decide (targetLabel ≠ "")), (policyDebugEnabled b) eqn:Hdbg,
      ((Insn.OpClass insn =? OpClassJump64) || (Insn.OpClass insn =? OpClassJump32));
      blk; rewrite ?Hdbg; blk;
      rewrite ?strip_alter_with_Annotation, ?fmap_app, ?length_alter,
        ?length_app, ?length_fmap; reflexivity.
  - unfold erase. blk. rewrite !length_fmap. reflexivity.
Qed.

Lemma erase_applyFixUps_loop L fs b :
  applyFixUps_loop L fs (erase b)
  = (fun r => (erase r.1, r.2)) <$> applyFixUps_loop L fs b.
Proof.
  revert b. induction fs as [|f fs IH]; intros b; cbn [applyFixUps_loop].
  - reflexivity.
  - cbn [erase labelToInsnIdx insns].
    destruct (labelToInsnIdx b !! L) as [t|]; [|reflexivity].
    destruct (_ =? -1); [reflexivity|].
    destruct (_ || _); [reflexivity|].
    rewrite list_lookup_fmap.
    destruct (insns b !! origInsnIdx f); cbn [fmap option_fmap option_map]; [|reflexivity].
    rewrite <- IH. f_equal. unfold erase. blk.
    now rewrite strip_alter_patch_offset.
Qed.

Lemma erase_applyFixUps L b :
  applyFixUps L (erase b)
  = (fun r => (erase r.1, r.2)) <$> applyFixUps L b.
Proof.
  unfold applyFixUps. rewrite erase_applyFixUps_loop.
  cbn [erase fixUps].
  destruct (applyFixUps_loop L (slice_at (fixUps b) L) b) as [[b1 [e|]]|];
    reflexivity.
Qed.

Lemma erase_bind_label label b :
  erase (bind_label label b) = bind_label label (erase b).
Proof. unfold bind_label, erase. blk. now rewrite !length_fmap. Qed.

Lemma erase_LabelNextInsn label b :
  LabelNextInsn label (erase b) = erase <$> LabelNextInsn label b.
Proof.
  rewrite !LabelNextInsn_bind_label, <- erase_bind_label, erase_applyFixUps.
  destruct (applyFixUps label (bind_label label b)) as [[b1 [e|]]|];
    cbn; [|reflexivity..].
  destruct (deferredErr b1); [reflexivity|].
  now rewrite length_fmap.
Qed.

Lemma erase_JumpNoTrampoline label b :
  erase (JumpNoTrampoline label b) = JumpNoTrampoline label (erase b).
Proof. unfold JumpNoTrampoline. now rewrite erase_NoTrampoline. Qed.

Lemma erase_writeTrampoline_loop labels b :
  writeTrampoline_loop labels (erase b)
  = erase <$> writeTrampoline_loop labels b.
Proof.
  revert b. induction labels as [|label rest IH]; intros b;
    cbn [writeTrampoline_loop]; [reflexivity|].
  rewrite erase_LabelNextInsn.
  destruct (LabelNextInsn label b) as [b1|]; cbn; [|reflexivity].
  now rewrite <- erase_JumpNoTrampoline, IH.
Qed.

Lemma erase_writeTrampoline o b :
  writeTrampoline o (erase b) = erase <$> writeTrampoline o b.
Proof.
  unfold writeTrampoline. blk. rewrite length_insns_erase.
  cbn [erase fixUps trampolineIdx].
  destruct (size (fixUps b) =? 0)%nat; [reflexivity|].
  set (endLabel := "skip-trampoline-" +:+ pretty (trampolineIdx b)).
  set (b1 := with_trampolineIdx _ (with_lastTrampolineAddr _ b)).
  change (JumpNoTrampoline endLabel (with_trampolineIdx _ _))
    with (JumpNoTrampoline endLabel (erase b1)).
  rewrite <- erase_JumpNoTrampoline, erase_writeTrampoline_loop.
  destruct (writeTrampoline_loop _ (JumpNoTrampoline endLabel b1)) as [b2|];
    cbn; [|reflexivity].
  apply erase_LabelNextInsn.
Qed.

Lemma erase_maybeWriteTrampoline o nextInsn b :
  maybeWriteTrampoline o (strip nextInsn) (erase b)
  = erase <$> maybeWriteTrampoline o nextInsn b.
Proof.
  unfold maybeWriteTrampoline. rewrite length_insns_erase.
  cbn [erase trampolinesEnabled lastTrampolineAddr trampolineStride].
  destruct (negb (trampolinesEnabled b)); [reflexivity|].
  destruct (_ <? _); [reflexivity|].
  change (Insn.OpCode (strip nextInsn)) with (Insn.OpCode nextInsn).
  destruct (_ =? _); [reflexivity|].
  apply erase_writeTrampoline.
Qed.

Lemma erase_addInsnWithOffsetFixup o insn targetLabel b :
  addInsnWithOffsetFixup o (strip insn) targetLabel (erase b)
  = erase <$> addInsnWithOffsetFixup o insn targetLabel b.
Proof.
  unfold addInsnWithOffsetFixup. rewrite erase_maybeWriteTrampoline.
  destruct (maybeWriteTrampoline o insn b) as [b1|]; cbn; [|reflexivity].
  now rewrite erase_NoTrampoline.
Qed.

Lemma erase_add o opcode dst src offset imm annotation b :
  snd <$> add o opcode dst src offset imm "" (erase b)
  = erase <$> (snd <$> add o opcode dst src offset imm annotation b).
Proof.
  unfold add, addInsn. cbv zeta.
  change (with_Annotation "" (MakeInsn opcode dst src offset imm))
    with (strip (with_Annotation annotation
                   (MakeInsn opcode dst src offset imm))).
  rewrite erase_addInsnWithOffsetFixup.
  now destruct (addInsnWithOffsetFixup o _ "" b).
Qed.

Lemma erase_addWithOffsetFixup o opcode dst src offsetLabel imm b :
  snd <$> addWithOffsetFixup o opcode dst src offsetLabel imm (erase b)
  = erase <$> (snd <$> addWithOffsetFixup o opcode dst src offsetLabel imm b).
Proof.
  unfold addWithOffsetFixup. cbv zeta.
  pose proof (erase_addInsnWithOffsetFixup o (MakeInsn opcode dst src 0 imm)
                offsetLabel b) as H.
  change (strip (MakeInsn opcode dst src 0 imm))
    with (MakeInsn opcode dst src 0 imm) in H.
  rewrite H.
  now destruct (addInsnWithOffsetFixup o _ offsetLabel b).
Qed.

Lemma erase_add_pair o opcode1 dst1 src1 offset1 imm1
    opcode2 dst2 src2 offset2 imm2 b :
  (b ← snd <$> add o opcode1 dst1 src1 offset1 imm1 "" (erase b);
   snd <$> add o opcode2 dst2 src2 offset2 imm2 "" b)
  = erase <$> (b ← snd <$> add o opcode1 dst1 src1 offset1 imm1 "" b;
               snd <$> add o opcode2 dst2 src2 offset2 imm2 "" b).
Proof.
  rewrite (erase_add o opcode1 dst1 src1 offset1 imm1 "").
  destruct (snd <$> add o opcode1 dst1 src1 offset1 imm1 "" b) as [b1|];
    cbn [fmap option_fmap option_map mbind option_bind]; [|reflexivity].
  apply (erase_add o opcode2 dst2 src2 offset2 imm2 "").
Qed.

Lemma erase_exec o c b :
  exec o (erase_call c) (erase b) = erase <$> exec o c b.
Proof.
  destruct c; cbn [exec erase_call].
  - apply erase_add.
  - apply erase_addWithOffsetFixup.
  - unfold Block.LoadImm64. rewrite !add_pair. apply erase_add_pair.
  - unfold Block.LoadMapFD. rewrite !add_pair. apply erase_add_pair.
  - cbn. now rewrite erase_JumpNoTrampoline.
  - apply erase_LabelNextInsn.
  - cbn. unfold AddComment. cbn [erase policyDebugEnabled negb].
    now destruct (negb (policyDebugEnabled b)).
  - reflexivity.
  - cbn. unfold SetTrampolineStride. now destruct (_ && _).
Qed.

Lemma erase_run os cs b :
  run os (erase_call <$> cs) (erase b) = erase <$> run os cs b.
Proof.
  revert os b. induction cs as [|c cs IH]; intros os b; [reflexivity|].
  cbn [fmap list_fmap run]. rewrite erase_exec.
  destruct (exec (os 0%nat) c b) as [b1|]; cbn; [|reflexivity].
  apply IH.
Qed.

Lemma erase_Assemble_fixUps labels b :
  Assemble_fixUps labels (erase b)
  = (fun r => (erase r.1, r.2)) <$> Assemble_fixUps labels b.
Proof.
  revert b. induction labels as [|label rest IH]; intros b;
    cbn [Assemble_fixUps]; [reflexivity|].
  rewrite erase_applyFixUps.
  destruct (applyFixUps label b) as [[b1 [e|]]|]; cbn; [reflexivity| |reflexivity].
  apply IH.
Qed.

Lemma strip_Assemble_debug b : strip <$> Assemble_debug b = strip <$> insns b.
Proof.
  unfold Assemble_debug. apply list_eq. intros k.
  rewrite !list_lookup_fmap, list_lookup_imap.
  destruct (insns b !! k) as [n|]; [|reflexivity]. cbn.
  now destruct (insnIdxToLabels b !! k), (insnIdxToComments b !! k).
Qed.

Lemma erase_Assemble o b :
  Assemble o (erase b) = strip_result <$> Assemble o b.
Proof.
  unfold Assemble. cbn [erase deferredErr fixUps].
  destruct (deferredErr b); [reflexivity|].
  change (mkBlock (strip <$> insns b) _ _ _ _ _ _ _ _ _ _ _ _)
    with (erase b).
  rewrite erase_Assemble_fixUps.
  destruct (Assemble_fixUps (range_keys o (fixUps b)) b) as [[b1 [e|]]|];
    cbn; [reflexivity| |reflexivity].
  destruct (policyDebugEnabled b1); cbn; [|reflexivity].
  unfold strip_result. cbn. now rewrite strip_Assemble_debug.
Qed.

Lemma AsBytes_strip ns : AsBytes (strip <$> ns) = AsBytes ns.
Proof.
  induction ns as [|n ns IH]; [reflexivity|].
  cbn [fmap list_fmap]. now rewrite !AsBytes_cons, IH.
Qed.

(** X7. The debug state does not steer the assembler: the same calls,
    made without their annotations and comments on a block created with
    debugging off, run into the same error or give the same instructions
    stripped of [Labels], [Comments] and [Annotation], hence the same
    bytes. *)
Theorem debug_does_not_steer (os : nat → MapOrder) (o : MapOrder)
    (debug : bool) (cs : list BuilderCall) :
  assemble os o false (erase_call <$> cs)
  = strip_result <$> assemble os o debug cs
  ∧ (∀ ns, AsBytes (strip <$> ns) = AsBytes ns
           ∧ Instruction <$> (strip <$> ns) = Instruction <$> ns)
  ∧ (∃ b b0, run os cs (NewBlock debug) = Some b
             ∧ run os (erase_call <$> cs) (NewBlock false) = Some b0
             ∧ NumJumps b0 = NumJumps b
             ∧ deferredErr b0 = deferredErr b
             ∧ fixUps b0 = fixUps b).
Proof.
  assert (Hrun : run os (erase_call <$> cs) (NewBlock false)
                 = erase <$> run os cs (NewBlock debug))
    by exact (erase_run os cs (NewBlock debug)).
  split; [|split].
  - unfold assemble. rewrite Hrun.
    destruct (run os cs (NewBlock debug)) as [b|]; cbn; [|reflexivity].
    apply erase_Assemble.
  - intros ns. split; [apply AsBytes_strip|].
    rewrite <- list_fmap_compose. reflexivity.
  - destruct (safe_run os cs (NewBlock debug) (wf_NewBlock debug))
      as (b & Hb & _). exists b, (erase b). rewrite Hrun, Hb.
    now repeat split.
Qed.

(** *** The debug output *)

Lemma patched_trans n1 n2 n3 : patched n1 n2 → patched n2 n3 → patched n1 n3.
Proof.
  intros H [->|[off ->]]; [exact H|]. now apply patched_patch_offset.
Qed.

Lemma Forall2_patched_trans ns1 ns2 ns3 :
  Forall2 patched ns1 ns2 → Forall2 patched ns2 ns3 → Forall2 patched ns1 ns3.
Proof.
  intros H. revert ns3. induction H as [|n1 n2 ns1 ns2 Hn _ IH]; intros ns3 H3.
  - inversion H3. constructor.
  - inversion H3 as [|? n3 ? ns3' Hn' H3']; subst.
    constructor; [eapply patched_trans; eassumption|now apply IH].
Qed.

Lemma Assemble_fixUps_shape labels b b' err :
  Assemble_fixUps labels b = Some (b', err) →
  ∃ ns fx, b' = with_fixUps fx (with_insns ns b)
           ∧ Forall2 patched (insns b) ns.
Proof.
  revert b. induction labels as [|label rest IH]; intros b;
    cbn [Assemble_fixUps].
  - intros [= <- <-]. exists (insns b), (fixUps b).
    split; [now destruct b|apply Forall2_patched_refl].
  - destruct (applyFixUps label b) as [[b1 e]|] eqn:Hfix; [|discriminate].
    cbn [mbind option_bind].
    apply applyFixUps_shape in Hfix as (ns1 & Hns1 & Hb1).
    assert (Hb1' : ∃ fx, b1 = with_fixUps fx (with_insns ns1 b)).
    { destruct Hb1 as [[_ ->]|[_ ->]]; [eauto|].
      exists (fixUps b). now destruct b. }
    destruct Hb1' as (fx1 & ->).
    destruct e as [e|].
    + intros [= <- <-]. eauto.
    + intros Hrest. apply IH in Hrest as (ns & fx & -> & Hns). blk.
      exists ns, fx. split; [reflexivity|].
      eapply Forall2_patched_trans; eassumption.
Qed.

Lemma patched_decor n n' :
  patched n n' → Labels n' = Labels n ∧ Comments n' = Comments n.
Proof. now intros [->|[off ->]]. Qed.

Lemma undecorated_run debug os cs : keeps (undecorated debug) (run os cs).
Proof.
  apply keeps_run; unfold undecorated.
  - intros b b' HP (-> & _ & _ & _ & _ & -> & _). exact HP.
  - intros label b HP. exact HP.
  - intros ns b [Hd HP] Hns. blk. split; [exact Hd|].
    apply Forall_lookup_2. intros k n' Hk.
    destruct (Forall2_lookup_r _ _ _ _ _ Hns Hk) as (n & Hn & Hp).
    apply patched_decor in Hp as [-> ->].
    exact (Forall_lookup_1 _ _ _ _ HP Hn).
  - intros L b HP. exact HP.
  - intros e b HP. exact HP.
  - intros opcode dst src offset imm annotation targetLabel b _ [Hd HP].
    destruct (nextInsnReachable b) eqn:Hr.
    + destruct (NoTrampoline_reachable_insn
                  (with_Annotation annotation (MakeInsn opcode dst src offset imm))
                  targetLabel b Hr) as (a & -> & _).
      destruct (NoTrampoline_reachable
                  (with_Annotation annotation (MakeInsn opcode dst src offset imm))
                  targetLabel b Hr) as (_ & _ & _ & _ & _ & _ & -> & _).
      split; [exact Hd|]. apply Forall_app. split; [exact HP|].
      constructor; [now split|constructor].
    + destruct (NoTrampoline_unreachable_insn
                  (with_Annotation annotation (MakeInsn opcode dst src offset imm))
                  targetLabel b Hr) as (-> & _ & _ & _ & -> & _).
      now split.
Qed.

(** X8. The debug fields of the output.  On a block created with
    debugging off, [Assemble] returns instructions without labels and
    comments; with debugging on, instruction [k] of the output carries
    the labels bound at position [k] and the comments added at position
    [k], in the order of the calls. *)
Theorem debug_output (os : nat → MapOrder) (debug : bool)
    (cs : list BuilderCall) :
  ∃ b, run os cs (NewBlock debug) = Some b
       ∧ policyDebugEnabled b = debug
       ∧ ∀ o ns k n,
           Assemble o b = Some (Some ns, None) → ns !! k = Some n →
           Labels n
           = (if debug then slice_at (insnIdxToLabels b) k else [])
           ∧ Comments n
             = (if debug then slice_at (insnIdxToComments b) k else []).
Proof.
  destruct (safe_run os cs (NewBlock debug) (wf_NewBlock debug))
    as (b & Hrun & _). exists b. split; [exact Hrun|].
  assert (HP : undecorated debug b).
  { apply (undecorated_run debug os cs _ b (wf_NewBlock debug));
      [|exact Hrun]. split; [reflexivity|constructor]. }
  destruct HP as [Hd HP]. split; [exact Hd|].
  intros o ns k n. unfold Assemble.
  destruct (deferredErr b); [discriminate|].
  destruct (Assemble_fixUps (range_keys o (fixUps b)) b) as [[b1 e]|] eqn:Hfix;
    [|discriminate].
  cbn [mbind option_bind]. destruct e; [discriminate|].
  apply Assemble_fixUps_shape in Hfix as (ns1 & fx & -> & Hns1). blk.
  assert (Hplain : ∀ k n, ns1 !! k = Some n → Labels n = [] ∧ Comments n = []).
  { intros k' n' Hk'.
    destruct (Forall2_lookup_r _ _ _ _ _ Hns1 Hk') as (n0 & Hn0 & Hp).
    apply patched_decor in Hp as [-> ->].
    exact (Forall_lookup_1 _ _ _ _ HP Hn0). }
  rewrite Hd. destruct debug; blk; intros [= <-] Hk.
  - unfold Assemble_debug in Hk. blk. rewrite list_lookup_imap in Hk.
    destruct (ns1 !! k) as [n1|] eqn:Hn1; [|discriminate].
    destruct (Hplain _ _ Hn1) as [HL HC]. cbn in Hk. injection Hk as <-.
    unfold slice_at.
    destruct (insnIdxToLabels b !! k), (insnIdxToComments b !! k);
      cbn; rewrite ?HL, ?HC; now split.
  - exact (Hplain _ _ Hk).
Qed.

(** *** Programs without labels *)

Lemma bare_reachable b :
  bare b →
  nextInsnReachable b
  = match last (insns b) with
    | Some n => negb (ends_flow n)
    | None => true
    end.
Proof.
  intros (_ & _ & HL & _). unfold nextInsnReachable, ends_flow, slice_at.
  rewrite HL, lookup_empty. cbn.
  destruct (last (insns b)); [|reflexivity]. now destruct (_ || _).
Qed.

Lemma writeTrampoline_bare o b :
  bare b → writeTrampoline o b = Some (with_lastTrampolineAddr (length (insns b)) b).
Proof.
  intros (HF & _). unfold writeTrampoline. blk. now rewrite HF.
Qed.

Lemma maybeWriteTrampoline_bare o nextInsn b :
  bare b →
  ∃ b1, maybeWriteTrampoline o nextInsn b = Some b1
        ∧ bare b1 ∧ insns b1 = insns b.
Proof.
  intros Hb. unfold maybeWriteTrampoline.
  destruct (negb (trampolinesEnabled b)); [eauto|].
  destruct (_ <? _); [eauto|].
  destruct (_ =? _); [eauto|].
  rewrite writeTrampoline_bare by done. eexists. split; [reflexivity|].
  split; [exact Hb|reflexivity].
Qed.

Lemma exec_CInstr_bare o opcode dst src offset imm annotation b :
  bare b →
  ∃ b',
    exec o (CInstr opcode dst src offset imm annotation) b = Some b'
    ∧ bare b'
    ∧ insns b'
      = (if nextInsnReachable b
         then insns b
              ++ [with_Annotation annotation (MakeInsn opcode dst src offset imm)]
         else insns b).
Proof.
  intros Hb. rewrite exec_CInstr.
  set (insn := with_Annotation annotation (MakeInsn opcode dst src offset imm)).
  destruct (maybeWriteTrampoline_bare o insn b Hb) as (b1 & -> & Hb1 & Hins).
  cbn [mbind option_bind]. eexists. split; [reflexivity|].
  assert (Hr : nextInsnReachable b1 = nextInsnReachable b)
    by now rewrite !bare_reachable, Hins.
  split.
  - destruct (NoTrampoline_plain_frame insn b1) as [HF HE].
    destruct Hb1 as (HF1 & HL1 & HI1 & HC1 & HE1).
    split; [now rewrite HF|]. 
    destruct (nextInsnReachable b1) eqn:Hr1.
    + destruct (NoTrampoline_reachable insn "" b1 Hr1)
        as (_ & _ & _ & -> & -> & -> & _).
      repeat split; try assumption. now rewrite HE.
    + rewrite NoTrampoline_unreachable by done. blk.
      unfold slice_at. rewrite HI1, HL1, lookup_empty, delete_empty. cbn.
      now repeat split.
  - now rewrite NoTrampoline_plain_insns, Hr, Hins.
Qed.

Lemma exec_CInstr_straight o opcode dst src offset imm annotation b :
  bare b →
  ∃ b',
    exec o (CInstr opcode dst src offset imm annotation) b = Some b'
    ∧ bare b'
    ∧ ∀ rest,
        insns b' ++ (if nextInsnReachable b' then straight rest else [])
        = insns b
          ++ (if nextInsnReachable b
              then straight
                     (with_Annotation annotation
                        (MakeInsn opcode dst src offset imm) :: rest)
              else []).
Proof.
  intros Hb.
  destruct (exec_CInstr_bare o opcode dst src offset imm annotation b Hb)
    as (b' & Hrun & Hb' & Hins).
  exists b'. split; [exact Hrun|]. split; [exact Hb'|]. intros rest.
  rewrite (bare_reachable b' Hb'), Hins.
  destruct (nextInsnReachable b) eqn:Hr.
  - rewrite last_snoc. cbn [straight]. rewrite <- app_assoc. cbn [app].
    now destruct (ends_flow _).
  - rewrite <- (bare_reachable b Hb), Hr. reflexivity.
Qed.

Lemma exec_plain_call o c b :
  bare b → plain_call c →
  ∃ b',
    exec o c b = Some b'
    ∧ bare b'
    ∧ ∀ rest,
        insns b' ++ (if nextInsnReachable b' then straight rest else [])
        = insns b
          ++ (if nextInsnReachable b then straight (insns_of c ++ rest)
              else []).
Proof.
  intros Hb Hc. destruct c; try contradiction; cbn [insns_of app].
  - now apply exec_CInstr_straight.
  - cbn [exec]. unfold Block.LoadImm64. rewrite add_pair.
    destruct (exec_CInstr_straight o LoadImm64 dst 0 0 (int32 imm) "" b Hb)
      as (b1 & Hrun1 & Hb1 & Hins1).
    cbn [exec] in Hrun1. unfold Instr in Hrun1. rewrite Hrun1.
    cbn [mbind option_bind].
    destruct (exec_CInstr_straight o LoadImm64Pt2 0 0 0 (int32 (imm ≫ 32)) ""
                b1 Hb1) as (b2 & Hrun2 & Hb2 & Hins2).
    cbn [exec] in Hrun2. unfold Instr in Hrun2.
    exists b2. split; [exact Hrun2|]. split; [exact Hb2|].
    intros rest. now rewrite Hins2, Hins1.
  - cbn [exec]. unfold Block.LoadMapFD. rewrite add_pair.
    destruct (exec_CInstr_straight o LoadImm64 dst RPseudoMapFD 0 (int32 fd) ""
                b Hb) as (b1 & Hrun1 & Hb1 & Hins1).
    cbn [exec] in Hrun1. unfold Instr in Hrun1. rewrite Hrun1.
    cbn [mbind option_bind].
    destruct (exec_CInstr_straight o LoadImm64Pt2 0 0 0 0 "" b1 Hb1)
      as (b2 & Hrun2 & Hb2 & Hins2).
    cbn [exec] in Hrun2. unfold Instr in Hrun2.
    exists b2. split; [exact Hrun2|]. split; [exact Hb2|].
    intros rest. now rewrite Hins2, Hins1.
  - exists (SetTrampolinesEnabled en b). split; [reflexivity|].
    split; [exact Hb|]. reflexivity.
  - exists (SetTrampolineStride s b). split; [reflexivity|].
    unfold SetTrampolineStride. destruct (_ && _); [|now split].
    split; [exact Hb|]. reflexivity.
Qed.

Lemma run_plain_calls os cs b :
  bare b → Forall plain_call cs →
  ∃ b',
    run os cs b = Some b'
    ∧ bare b'
    ∧ insns b'
      = insns b
        ++ (if nextInsnReachable b
            then straight (mjoin (insns_of <$> cs)) else []).
Proof.
  intros Hb Hcs. revert os b Hb.
  induction Hcs as [|c cs Hc _ IH]; intros os b Hb; cbn [run].
  - exists b. split; [reflexivity|]. split; [exact Hb|].
    cbn. destruct (nextInsnReachable b); now rewrite app_nil_r.
  - destruct (exec_plain_call (os 0%nat) c b Hb Hc) as (b1 & -> & Hb1 & Hins1).
    cbn [mbind option_bind].
    destruct (IH (fun k => os (S k)) b1 Hb1) as (b2 & Hrun2 & Hb2 & Hins2).
    exists b2. split; [exact Hrun2|]. split; [exact Hb2|].
    rewrite Hins2, Hins1. reflexivity.
Qed.

Lemma Assemble_debug_bare b : bare b → Assemble_debug b = insns b.
Proof.
  intros (_ & _ & HL & HC & _). unfold Assemble_debug.
  apply list_eq. intros k. rewrite list_lookup_imap, HL, HC, !lookup_empty.
  now destruct (insns b !! k).
Qed.

Lemma Assemble_bare o b :
  fair o → bare b → Assemble o b = Some (Some (insns b), None).
Proof.
  intros Ho Hb. pose proof Hb as (HF & _ & _ & _ & HE).
  rewrite Assemble_resolved by done.
  rewrite Assemble_debug_bare by exact Hb.
  now destruct (policyDebugEnabled b).
Qed.

Lemma bare_NewBlock debug : bare (NewBlock debug).
Proof. now repeat split. Qed.

(** X9. A program without labels and comments, made of plain
    instructions, 64-bit loads and configuration calls, assembles
    without error to the instructions asked for, in order, up to and
    including the first unconditional jump or exit; whatever is asked for
    after that instruction is dropped. *)
Theorem straight_line_program (os : nat → MapOrder) (o : MapOrder)
    (debug : bool) (cs : list BuilderCall) :
  fair o → Forall plain_call cs →
  assemble os o debug cs
  = Some (Some (straight (mjoin (insns_of <$> cs))), None).
Proof.
  intros Ho Hcs. unfold assemble.
  destruct (run_plain_calls os cs (NewBlock debug) (bare_NewBlock debug) Hcs)
    as (b & -> & Hb & Hins).
  cbn [mbind option_bind]. rewrite (Assemble_bare o b Ho Hb), Hins.
  reflexivity.
Qed.

Lemma straight_line_program_witness :
  assemble (fun _ => in_order) in_order true
    [CInstr Mov64 R1 R2 0 0 "r1 = r2"; CLoadImm64 R3 (2 ^ 40 + 7);
     CInstr Exit 0 0 0 0 ""; CInstr Mov64 R0 R0 0 0 "";
     CInstr Exit 0 0 0 0 ""]
  = Some (Some [with_Annotation "r1 = r2" (MakeInsn Mov64 R1 R2 0 0);
                MakeInsn LoadImm64 R3 0 0 7; MakeInsn LoadImm64Pt2 0 0 0 256;
                MakeInsn Exit 0 0 0 0], None).
Proof.
  rewrite (straight_line_program (fun _ => in_order) in_order true);
    [reflexivity|apply fair_in_order|repeat constructor].
Defined.

(** *** The 64-bit loads and the no-op *)

Lemma uint32_int32 v : uint32 (int32 v) = uint32 v.
Proof.
  unfold uint32, int32.
  rewrite Zminus_mod, Zmod_mod, <- Zminus_mod.
  now replace (v + 2 ^ 31 - 2 ^ 31) with v by lia.
Qed.

Lemma int32_idemp v : int32 (uint32 (int32 v)) = int32 v.
Proof.
  apply int32_uint32. unfold int32.
  pose proof (Z.mod_pos_bound (v + 2 ^ 31) (2 ^ 32)). lia.
Qed.

Lemma int32_small v : - 2 ^ 31 ≤ v < 2 ^ 31 → int32 v = v.
Proof. intros H. unfold int32. rewrite Z.mod_small by lia. lia. Qed.

Lemma Imm_MakeInsn_int32 opcode dst src offset v :
  Insn.Imm (MakeInsn opcode dst src offset (int32 v)) = int32 v.
Proof. rewrite MakeInsn_Imm. apply int32_idemp. Qed.

Lemma Off_MakeInsn_0 opcode dst src imm :
  Insn.Off (MakeInsn opcode dst src 0 imm) = 0.
Proof. rewrite MakeInsn_Off. reflexivity. Qed.

(** X10. [LoadImm64] puts a 64-bit constant into two adjacent
    instructions: the first has opcode [LoadImm64] and the destination
    register, the second has opcode [LoadImm64Pt2] and no registers, and
    the two immediates are the low and the high 32 bits of the constant,
    from which it is recovered. *)
Theorem LoadImm64_round_trip (os : nat → MapOrder) (o : MapOrder)
    (debug : bool) (dst imm : Z) :
  fair o → 0 ≤ dst ≤ 15 → - 2 ^ 63 ≤ imm < 2 ^ 63 →
  ∃ n1 n2,
    assemble os o debug [CLoadImm64 dst imm] = Some (Some [n1; n2], None)
    ∧ Insn.OpCode n1 = LoadImm64 ∧ Insn.Dst n1 = dst ∧ Insn.Src n1 = 0
    ∧ Insn.Off n1 = 0
    ∧ Insn.OpCode n2 = LoadImm64Pt2 ∧ Insn.Dst n2 = 0 ∧ Insn.Src n2 = 0
    ∧ Insn.Off n2 = 0
    ∧ uint32 (Insn.Imm n1) = imm mod 2 ^ 32
    ∧ Insn.Imm n2 = imm / 2 ^ 32
    ∧ uint32 (Insn.Imm n1) + 2 ^ 32 * Insn.Imm n2 = imm.
Proof.
  intros Ho Hdst Himm.
  exists (with_Annotation "" (MakeInsn LoadImm64 dst 0 0 (int32 imm))),
    (with_Annotation "" (MakeInsn LoadImm64Pt2 0 0 0 (int32 (imm ≫ 32)))).
  split.
  { unfold assemble.
    destruct (run_plain_calls os [CLoadImm64 dst imm] (NewBlock debug)
                (bare_NewBlock debug)) as (b & -> & Hb & Hins);
      [repeat constructor|].
    cbn [mbind option_bind]. rewrite (Assemble_bare o b Ho Hb), Hins.
    reflexivity. }
  change (Insn.OpCode (with_Annotation ?a ?n)) with (Insn.OpCode n).
  change (Insn.Dst (with_Annotation ?a ?n)) with (Insn.Dst n).
  change (Insn.Src (with_Annotation ?a ?n)) with (Insn.Src n).
  change (Insn.Off (with_Annotation ?a ?n)) with (Insn.Off n).
  change (Insn.Imm (with_Annotation ?a ?n)) with (Insn.Imm n).
  rewrite !MakeInsn_OpCode, !MakeInsn_Dst, !MakeInsn_Src, !Off_MakeInsn_0,
    !Imm_MakeInsn_int32, uint32_int32.
  assert (Hhi : int32 (imm ≫ 32) = imm / 2 ^ 32).
  { rewrite Z.shiftr_div_pow2 by lia. apply int32_small.
    split.
    - apply Z.div_le_lower_bound; lia.
    - apply Z.div_lt_upper_bound; lia. }
  rewrite Hhi. unfold uint32.
  repeat split; try reflexivity.
  - apply Z.mod_small. lia.
  - rewrite Z.shiftr_div_pow2 by lia.
    replace (dst / 2 ^ 4) with 0 by (symmetry; apply Z.div_small; lia).
    reflexivity.
  - pose proof (Z.div_mod imm (2 ^ 32)). lia.
Qed.

Lemma LoadImm64_round_trip_witness :
  ∃ n1 n2,
    assemble (fun _ => in_order) in_order false [CLoadImm64 R3 (- (2 ^ 40) - 7)]
    = Some (Some [n1; n2], None)
    ∧ Insn.Dst n1 = R3
    ∧ uint32 (Insn.Imm n1) + 2 ^ 32 * Insn.Imm n2 = - (2 ^ 40) - 7.
Proof.
  destruct (LoadImm64_round_trip (fun _ => in_order) in_order false R3
              (- (2 ^ 40) - 7) fair_in_order)
    as (n1 & n2 & H & _ & Hd & _ & _ & _ & _ & _ & _ & _ & _ & Hv);
    [unfold R3; lia|lia|].
  exists n1, n2. auto.
Defined.

(** X11. [LoadMapFD] emits the same pair of instructions with the
    pseudo-register [RPseudoMapFD] as source: the first immediate is the
    descriptor, and the second instruction is all zero. *)
Theorem LoadMapFD_pair (os : nat → MapOrder) (o : MapOrder)
    (debug : bool) (dst fd : Z) :
  fair o → 0 ≤ dst ≤ 15 → 0 ≤ fd < 2 ^ 32 →
  ∃ n1 n2,
    assemble os o debug [CLoadMapFD dst fd] = Some (Some [n1; n2], None)
    ∧ Insn.OpCode n1 = LoadImm64 ∧ Insn.Dst n1 = dst
    ∧ Insn.Src n1 = RPseudoMapFD ∧ Insn.Off n1 = 0
    ∧ uint32 (Insn.Imm n1) = fd
    ∧ Instruction n2 = [# 0; 0; 0; 0; 0; 0; 0; 0].
Proof.
  intros Ho Hdst Hfd.
  exists (with_Annotation "" (MakeInsn LoadImm64 dst RPseudoMapFD 0 (int32 fd))),
    (with_Annotation "" (MakeInsn LoadImm64Pt2 0 0 0 0)).
  split.
  { unfold assemble.
    destruct (run_plain_calls os [CLoadMapFD dst fd] (NewBlock debug)
                (bare_NewBlock debug)) as (b & -> & Hb & Hins);
      [repeat constructor|].
    cbn [mbind option_bind]. rewrite (Assemble_bare o b Ho Hb), Hins.
    reflexivity. }
  change (Insn.OpCode (with_Annotation ?a ?n)) with (Insn.OpCode n).
  change (Insn.Dst (with_Annotation ?a ?n)) with (Insn.Dst n).
  change (Insn.Src (with_Annotation ?a ?n)) with (Insn.Src n).
  change (Insn.Off (with_Annotation ?a ?n)) with (Insn.Off n).
  change (Insn.Imm (with_Annotation ?a ?n)) with (Insn.Imm n).
  rewrite !MakeInsn_OpCode, !MakeInsn_Dst, !MakeInsn_Src, !Off_MakeInsn_0,
    !Imm_MakeInsn_int32, uint32_int32.
  unfold uint32. repeat split; try reflexivity.
  - apply Z.mod_small. lia.
  - rewrite Z.shiftr_div_pow2 by lia.
    replace (dst / 2 ^ 4) with 0 by (symmetry; apply Z.div_small; lia).
    reflexivity.
  - apply Z.mod_small. lia.
Qed.

Lemma LoadMapFD_pair_witness :
  ∃ n1 n2,
    assemble (fun _ => in_order) in_order false [CLoadMapFD R1 (2 ^ 32 - 1)]
    = Some (Some [n1; n2], None)
    ∧ Insn.Src n1 = RPseudoMapFD ∧ uint32 (Insn.Imm n1) = 2 ^ 32 - 1.
Proof.
  destruct (LoadMapFD_pair (fun _ => in_order) in_order false R1 (2 ^ 32 - 1)
              fair_in_order)
    as (n1 & n2 & H & _ & _ & Hs & _ & Hv & _); [unfold R1; lia|lia|].
  exists n1, n2. auto.
Defined.

(** X12. [IsNoOp] recognises exactly the moves of a register onto itself,
    among the instructions [MakeInsn] builds from an opcode byte and two
    registers; the instruction that [NoOp] emits is one. *)
Theorem IsNoOp_spec (opcode dst src offset imm : Z) :
  0 ≤ opcode ≤ 255 → 0 ≤ dst ≤ 15 → 0 ≤ src ≤ 15 →
  (Insn.IsNoOp (MakeInsn opcode dst src offset imm) = true
   ↔ opcode = Mov64 ∧ dst = src)
  ∧ (∀ o b, Block.NoOp o b = exec o (CInstr Mov64 R0 R0 0 0 "") b)
  ∧ Insn.IsNoOp (MakeInsn Mov64 R0 R0 0 0) = true.
Proof.
  intros Hop Hdst Hsrc. split; [|split; reflexivity].
  unfold Insn.IsNoOp.
  rewrite MakeInsn_OpCode, MakeInsn_Dst, MakeInsn_Src.
  rewrite Z.shiftr_div_pow2 by lia.
  replace (dst / 2 ^ 4) with 0 by (symmetry; apply Z.div_small; lia).
  rewrite Z.lor_0_r. unfold uint8.
  rewrite !Z.mod_small by lia.
  rewrite andb_true_iff, !Z.eqb_eq. reflexivity.
Qed.

Lemma IsNoOp_spec_witness :
  (Insn.IsNoOp (MakeInsn Mov64 R3 R3 0 0) = true ↔ Mov64 = Mov64 ∧ R3 = R3)
  ∧ (Insn.IsNoOp (MakeInsn Mov64 R3 R4 0 0) = true ↔ Mov64 = Mov64 ∧ R3 = R4).
Proof.
  split.
  - apply (IsNoOp_spec Mov64 R3 R3 0 0); vm_compute; split; discriminate.
  - apply (IsNoOp_spec Mov64 R3 R4 0 0); vm_compute; split; discriminate.
Defined.

(** *** A forward jump, instruction by instruction *)

Lemma assemble_long_jump os o debug en s jump ra rb fill :
  assemble os o debug (long_jump en s jump ra rb fill)
  = b ← exec (os 2%nat) (CInstrWithOffsetFixup jump ra rb "L" 0)
          (SetTrampolineStride s (SetTrampolinesEnabled en (NewBlock debug)));
    b ← run (fun k => os (3 + k)%nat) fill b;
    b ← LabelNextInsn "L" b;
    b ← exec (os (3 + length fill + 1)%nat) (CInstr Exit 0 0 0 0 "") b;
    Assemble o b.
Proof.
  unfold assemble. rewrite long_jump_app.
  cbn [app run exec mbind option_bind].
  destruct (snd <$> InstrWithOffsetFixup _ _ _ _ _ _ _) as [b1|];
    [|reflexivity]. cbn [mbind option_bind].
  rewrite run_app.
  destruct (run _ fill b1) as [b2|]; [|reflexivity].
  cbn [mbind option_bind run exec].
  destruct (LabelNextInsn "L" b2) as [b3|]; [|reflexivity].
  cbn [mbind option_bind].
  change (S (S (S (length fill + 1)))) with (3 + length fill + 1)%nat.
  now destruct (snd <$> Instr _ _ _ _ _ _ _ b3).
Qed.

Lemma jump_emitted_insn o s en debug jump ra rb b :
  exec o (CInstrWithOffsetFixup jump ra rb "L" 0)
    (SetTrampolineStride s (SetTrampolinesEnabled en (NewBlock debug)))
  = Some b →
  ∃ J, insns b = [J] ∧ Instruction J = Instruction (MakeInsn jump ra rb 0 0).
Proof.
  pose proof (stride_after_set s en debug) as Hst.
  destruct (configured_fields s en debug)
    as (Hins & Hfix & Huse & Hen & Hlt & Hd).
  set (b0 := SetTrampolineStride s (SetTrampolinesEnabled en (NewBlock debug)))
    in *.
  cbn [exec]. unfold InstrWithOffsetFixup, addWithOffsetFixup,
    addInsnWithOffsetFixup.
  assert (Htr : maybeWriteTrampoline o (MakeInsn jump ra rb 0 0) b0 = Some b0).
  { unfold maybeWriteTrampoline. destruct (negb _); [reflexivity|].
    rewrite Hins, Hlt. cbn [length].
    destruct (Z.ltb_spec (Z.of_nat 0 - Z.of_nat 0)
                (trampolineStride b0)); [reflexivity|lia]. }
  rewrite Htr. cbn [mbind option_bind fmap option_fmap option_map snd].
  assert (Hr : nextInsnReachable b0 = true).
  { unfold nextInsnReachable. now rewrite Hins. }
  destruct (NoTrampoline_reachable (MakeInsn jump ra rb 0 0) "L" b0 Hr)
    as ((insn' & Hins' & Hbytes) & _).
  intros [= <-]. exists insn'. rewrite Hins', Hins. auto.
Qed.

Lemma filler_insns_of c :
  filler c →
  ∃ opcode dst src offset imm annotation,
    c = CInstr opcode dst src offset imm annotation
    ∧ insns_of c
      = [with_Annotation annotation (MakeInsn opcode dst src offset imm)]
    ∧ uint8 opcode ≠ JumpA ∧ uint8 opcode ≠ Exit
    ∧ uint8 opcode ≠ LoadImm64Pt2.
Proof.
  destruct c; try contradiction. intros (? & ? & ?).
  repeat eexists; eauto.
Qed.

Lemma filler_step_disabled_insns o b k c :
  plain_inv b k → filler c →
  ∃ b', exec o c b = Some b' ∧ plain_inv b' (S k)
        ∧ insns b' = insns b ++ insns_of c
        ∧ inUseJumpTargets b' = inUseJumpTargets b
        ∧ labelToInsnIdx b' = labelToInsnIdx b
        ∧ insnIdxToLabels b' = insnIdxToLabels b.
Proof.
  intros (Hen & Hd & Hfix & Hlen & prev & Hlast & HJ & HE) Hc.
  destruct (filler_insns_of c Hc)
    as (opcode & dst & src & offset & imm & annotation & -> & -> & HcJ & HcE & Hc0).
  set (insn := with_Annotation annotation (MakeInsn opcode dst src offset imm)).
  assert (Hop : Insn.OpCode insn = uint8 opcode) by reflexivity.
  rewrite exec_CInstr. fold insn.
  unfold maybeWriteTrampoline. rewrite Hen. cbn [negb mbind option_bind].
  destruct (NoTrampoline_plain_form insn b) as [nj ->];
    [now apply (reachable_after prev)|].
  eexists. split; [reflexivity|]. split; [|repeat split; reflexivity].
  unfold plain_inv. blk.
  rewrite length_app, last_snoc, Hlen. cbn [length].
  repeat (split; [first [assumption|lia]|]).
  exists insn. rewrite Hop. auto.
Qed.

Lemma run_fillers_disabled_insns os fill b k :
  Forall filler fill → plain_inv b k →
  ∃ b', run os fill b = Some b' ∧ plain_inv b' (k + length fill)
        ∧ insns b' = insns b ++ mjoin (insns_of <$> fill)
        ∧ inUseJumpTargets b' = inUseJumpTargets b
        ∧ labelToInsnIdx b' = labelToInsnIdx b
        ∧ insnIdxToLabels b' = insnIdxToLabels b.
Proof.
  intros Hfill. revert os b k.
  induction Hfill as [|c fill Hc _ IH]; intros os b k Hinv; cbn [run length].
  - rewrite Nat.add_0_r. exists b. cbn. now rewrite app_nil_r.
  - destruct (filler_step_disabled_insns (os 0%nat) b k c Hinv Hc)
      as (b1 & -> & Hinv1 & Hins1 & Huse1 & Hlab1 & Hidx1).
    cbn [mbind option_bind]. rewrite <- Nat.add_succ_comm.
    destruct (IH (fun k => os (S k)) b1 (S k) Hinv1)
      as (b2 & Hrun2 & Hinv2 & Hins2 & Huse2 & Hlab2 & Hidx2).
    exists b2. split; [exact Hrun2|]. split; [exact Hinv2|].
    rewrite Hins2, Hins1, Huse2, Huse1, Hlab2, Hlab1, Hidx2, Hidx1. cbn.
    now rewrite app_assoc.
Qed.

Lemma Instruction_alter_patch off i (ns : list Insn) :
  Instruction <$> alter (patch_offset off) i ns
  = alter (fun bs => PutUint16_2_4 bs (uint16 off)) i (Instruction <$> ns).
Proof.
  apply list_eq. intros k. rewrite !list_lookup_fmap.
  destruct (decide (k = i)) as [->|Hne].
  - rewrite !list_lookup_alter, !decide_True by done.
    rewrite list_lookup_fmap. now destruct (ns !! i).
  - rewrite !list_lookup_alter_ne by done. now rewrite list_lookup_fmap.
Qed.

Lemma lands_patch_offset off n ns i :
  ns !! i = Some (patch_offset off n) →
  MinInt16 ≤ off ≤ MaxInt16 → 0 ≤ Z.of_nat i + 1 + off →
  lands ns i = Some (Z.to_nat (Z.of_nat i + 1 + off)).
Proof.
  intros Hi Hoff Hpos. unfold lands. rewrite Hi. cbn [mbind option_bind].
  rewrite Off_patch_offset by done.
  destruct (Z.ltb_spec (Z.of_nat i + 1 + off) 0); [lia|reflexivity].
Qed.

Lemma nextInsnReachable_same_core b b' :
  same_core b b' → nextInsnReachable b' = nextInsnReachable b.
Proof.
  intros (Hi & _ & _ & Hl & Hu & _). unfold nextInsnReachable.
  now rewrite Hi, Hl, Hu.
Qed.

Lemma maybeWriteTrampoline_resolved o nextInsn b :
  fixUps b = ∅ →
  ∃ b1, maybeWriteTrampoline o nextInsn b = Some b1 ∧ same_core b b1.
Proof.
  intros Hfix. unfold maybeWriteTrampoline.
  destruct (negb _); [exists b; now repeat split|].
  destruct (_ <? _); [exists b; now repeat split|].
  destruct (_ =? _); [exists b; now repeat split|].
  unfold writeTrampoline. blk. rewrite Hfix, map_size_empty. cbn [Nat.eqb].
  eexists. split; [reflexivity|]. now repeat split.
Qed.

(** The end of [long_jump]: "L" is bound, the one pending jump is
    resolved, [Exit] is emitted and the block assembled. *)
Lemma finish_long_jump o o' b i :
  fair o →
  fixUps b = {["L" := [mkFixUp i]]} → (i < length (insns b))%nat →
  offset_ok (jump_offset (length (insns b)) i) →
  deferredErr b = None → "L" ∈ inUseJumpTargets b →
  ∃ ns,
    (b ← LabelNextInsn "L" b;
     b ← exec o' (CInstr Exit 0 0 0 0 "") b;
     Assemble o b) = Some (Some ns, None)
    ∧ Instruction <$> ns
      = (Instruction
           <$> alter (patch_offset (jump_offset (length (insns b)) i)) i
                 (insns b))
        ++ [Instruction (MakeInsn Exit 0 0 0 0)].
Proof.
  intros Ho Hfix Hi Hok Hd Huse.
  rewrite (LabelNextInsn_single "L" i b);
    [|rewrite Hfix; apply lookup_singleton_eq|exact Hi|exact Hok].
  cbn [mbind option_bind].
  set (b3 := with_fixUps _ _).
  assert (Hfix3 : fixUps b3 = ∅).
  { unfold b3. blk. rewrite Hfix. apply delete_singleton_eq. }
  rewrite exec_CInstr.
  destruct (maybeWriteTrampoline_resolved o'
              (with_Annotation "" (MakeInsn Exit 0 0 0 0)) b3 Hfix3)
    as (b3' & -> & Hcore).
  cbn [mbind option_bind].
  pose proof (nextInsnReachable_same_core _ _ Hcore) as Hr.
  destruct Hcore as (Hi3 & Hf3 & _ & _ & _ & _ & Hd3 & _).
  assert (Hr3 : nextInsnReachable b3 = true).
  { apply (reachable_labelled "L"); unfold b3, bind_label; blk.
    - rewrite length_alter. unfold slice_at at 1. rewrite lookup_insert_eq.
      cbn [default from_option id]. apply elem_of_app. right.
      apply list_elem_of_here.
    - exact Huse. }
  set (b4 := addInsnWithOffsetFixupNoTrampoline _ "" b3').
  destruct (NoTrampoline_plain_frame
              (with_Annotation "" (MakeInsn Exit 0 0 0 0)) b3') as [Hf4 Hd4].
  fold b4 in Hf4, Hd4.
  assert (Hins4 : insns b4
                  = insns b3 ++ [with_Annotation "" (MakeInsn Exit 0 0 0 0)]).
  { unfold b4. now rewrite NoTrampoline_plain_insns, Hr, Hr3, Hi3. }
  rewrite (Assemble_resolved o b4 Ho);
    [|rewrite Hd4, Hd3; exact Hd|rewrite Hf4, Hf3; exact Hfix3].
  eexists. split; [reflexivity|].
  assert (Hout : Instruction <$> (if policyDebugEnabled b4
                                  then Assemble_debug b4 else insns b4)
                 = Instruction <$> insns b4)
    by (destruct (policyDebugEnabled b4);
        [apply Instruction_Assemble_debug|reflexivity]).
  rewrite Hout, Hins4, fmap_app. reflexivity.
Qed.

(** X13. A forward jump with trampolines off.  A conditional jump to a
    label bound behind [n] plain instructions, [n] at most 32767, is
    assembled to exactly the jump with offset [n], the [n] instructions
    and the labelled [Exit]; taken, the jump lands on the [Exit]. *)
Theorem forward_jump_assembled (os : nat → MapOrder) (o : MapOrder)
    (debug : bool) (s jump ra rb : Z) (fill : list BuilderCall) :
  fair o → uint8 jump ≠ JumpA → uint8 jump ≠ Exit → Forall filler fill →
  Z.of_nat (length fill) ≤ 32767 →
  ∃ ns,
    assemble os o debug (long_jump false s jump ra rb fill)
    = Some (Some ns, None)
    ∧ Instruction <$> ns
      = Instruction (patch_offset (Z.of_nat (length fill))
                       (MakeInsn jump ra rb 0 0))
        :: (Instruction <$> mjoin (insns_of <$> fill))
        ++ [Instruction (MakeInsn Exit 0 0 0 0)]
    ∧ Insn.Off <$> ns !! 0%nat = Some (Z.of_nat (length fill))
    ∧ taken 1 ns 0 = Some (S (length fill))
    ∧ Insn.OpCode <$> ns !! S (length fill) = Some Exit.
Proof.
  intros Ho HJ HE Hfill Hshort. rewrite assemble_long_jump.
  destruct (jump_emitted (os 2%nat) s false debug jump ra rb HJ HE)
    as (b1 & Hrun1 & Hen & Hstride & Hd & Hfix & Huse & Hlt & Hlen & Hprev).
  destruct (jump_emitted_insn _ _ _ _ _ _ _ _ Hrun1) as (J & HJ1 & HJb).
  rewrite Hrun1. cbn [mbind option_bind].
  assert (Hinv : plain_inv b1 0).
  { unfold plain_inv. repeat (split; [assumption|]). exact Hprev. }
  destruct (run_fillers_disabled_insns (fun k => os (3 + k)%nat) fill b1 0
              Hfill Hinv) as (b2 & -> & Hinv2 & Hins2 & Huse2 & _).
  cbn [mbind option_bind].
  destruct Hinv2 as (_ & Hd2 & Hfix2 & Hlen2 & _).
  destruct (finish_long_jump o (os (3 + length fill + 1)%nat) b2 0 Ho Hfix2)
    as (ns & -> & Hns).
  { lia. }
  { unfold offset_ok, jump_offset, MinInt16, MaxInt16. lia. }
  { exact Hd2. }
  { now rewrite Huse2. }
  exists ns. split; [reflexivity|].
  assert (Hoff : jump_offset (length (insns b2)) 0 = Z.of_nat (length fill))
    by (unfold jump_offset; lia).
  rewrite Hoff, Hins2, HJ1 in Hns. cbn [app alter list_alter fmap list_fmap] in Hns.
  assert (HI0 : Instruction (patch_offset (Z.of_nat (length fill)) J)
                = Instruction (patch_offset (Z.of_nat (length fill))
                                 (MakeInsn jump ra rb 0 0))).
  { unfold patch_offset, with_Instruction. cbn [Instruction]. now rewrite HJb. }
  rewrite HI0 in Hns. split; [exact Hns|].
  assert (Hlook : ∀ k bs, (Instruction <$> ns) !! k = Some bs →
                          ∃ n, ns !! k = Some n ∧ Instruction n = bs).
  { intros k bs Hk. rewrite list_lookup_fmap in Hk.
    destruct (ns !! k) as [n|]; [|discriminate]. injection Hk as <-. eauto. }
  destruct (Hlook 0%nat _ ltac:(rewrite Hns; reflexivity)) as (n0 & Hn0 & Hb0).
  assert (Hoff0 : Insn.Off n0 = Z.of_nat (length fill)).
  { unfold Insn.Off. rewrite Hb0.
    apply (Off_patch_offset _ (MakeInsn jump ra rb 0 0)).
    unfold MinInt16, MaxInt16. lia. }
  destruct (Hlook (S (length fill)) (Instruction (MakeInsn Exit 0 0 0 0)))
    as (nx & Hnx & Hbx).
  { rewrite Hns.
    assert (Hlf : length fill
                  = length (Instruction <$> mjoin (insns_of <$> fill))).
    { rewrite length_fmap.
      assert (length (insns b2) = S (length (mjoin (insns_of <$> fill))))
        by now rewrite Hins2, HJ1.
      lia. }
    change ((?x :: ?l) !! S ?i) with (l !! i).
    now apply list_lookup_middle. }
  assert (Hopx : Insn.OpCode nx = Exit)
    by (unfold Insn.OpCode; rewrite Hbx; reflexivity).
  split; [now rewrite Hn0; cbn; rewrite Hoff0|]. split.
  - unfold taken, lands. rewrite Hn0. cbn [mbind option_bind]. rewrite Hoff0.
    destruct (Z.ltb_spec (Z.of_nat 0 + 1 + Z.of_nat (length fill)) 0); [lia|].
    replace (Z.to_nat (Z.of_nat 0 + 1 + Z.of_nat (length fill)))
      with (S (length fill)) by lia.
    cbn [mbind option_bind follow]. rewrite Hnx. cbn [mbind option_bind].
    rewrite Hopx. reflexivity.
  - now rewrite Hnx; cbn; rewrite Hopx.
Qed.

Lemma forward_jump_assembled_witness :
  ∃ ns,
    assemble (fun _ => in_order) in_order false
      (long_jump false 2 JumpEq64 R1 R2
         [CInstr Mov64 R1 R2 0 0 ""; CInstr Mov64 R3 R4 0 0 "";
          CInstr MovImm64 R0 0 0 7 ""])
    = Some (Some ns, None)
    ∧ Insn.Off <$> ns !! 0%nat = Some 3
    ∧ taken 1 ns 0 = Some 4%nat.
Proof.
  destruct (forward_jump_assembled (fun _ => in_order) in_order false 2
              JumpEq64 R1 R2
              [CInstr Mov64 R1 R2 0 0 ""; CInstr Mov64 R3 R4 0 0 "";
               CInstr MovImm64 R0 0 0 7 ""] fair_in_order)
    as (ns & H & _ & Hoff & Htaken & _).
  - vm_compute. discriminate.
  - vm_compute. discriminate.
  - repeat constructor; vm_compute; discriminate.
  - cbn. lia.
  - exists ns. auto.
Defined.

(** *** Trampolines keep the control flow *)

(** The instructions after a trampoline written while only "L" is
    pending: the pending jump lands on the relay, the skip jump lands
    behind the relay. *)
Lemma writeTrampoline_single_insns o st b i :
  fair o → 0 < st ≤ TrampolineStrideDefault → tramp_inv st b i →
  ∃ b' j1 j2,
    writeTrampoline o b = Some b'
    ∧ Insn.OpCode j1 = JumpA ∧ Insn.OpCode j2 = JumpA
    ∧ insns b'
      = alter (patch_offset 1) (length (insns b))
          (alter (patch_offset (jump_offset (S (length (insns b))) i)) i
             (insns b ++ [j1]) ++ [j2])
    ∧ labelToInsnIdx b' !! "L" = Some (S (length (insns b))).
Proof.
  intros Ho Hst (Hen & Hstride & Hd & Hfix & Huse & Hi & Hdist & prev & Hlast & HJ & HE).
  pose proof (max_stride_bound st Hst) as Hmax.
  unfold writeTrampoline. blk. rewrite Hfix, map_size_singleton.
  cbn [Nat.eqb]. rewrite (range_keys_singleton o _ Ho), sort_Strings_singleton.
  set (sk := "skip-trampoline-" +:+ pretty (trampolineIdx b)).
  assert (HskL : sk ≠ "L") by apply skip_label_neq_L.
  assert (Hsk0 : sk ≠ "") by apply skip_label_neq_empty.
  set (t := length (insns b)) in *.
  destruct (JumpNoTrampoline_form sk
              (with_trampolineIdx (S (trampolineIdx b))
                 (with_lastTrampolineAddr t b)))
    as (j1 & Hj1 & ->); [now apply (reachable_after prev)|exact Hsk0|].
  blk. rewrite Hfix. fold t.
  assert (Hs1 : slice_at ({["L" := [mkFixUp i]]} : gmap string (list fixUp)) sk = []).
  { unfold slice_at. now rewrite lookup_singleton_ne. }
  rewrite Hs1. cbn [app].
  cbn [writeTrampoline_loop].
  rewrite (LabelNextInsn_single "L" i); blk.
  2:{ rewrite lookup_insert_ne by done. now rewrite lookup_singleton_eq. }
  2:{ rewrite length_app. cbn. lia. }
  2:{ rewrite length_app. cbn [length]. unfold offset_ok, jump_offset, MinInt16, MaxInt16. lia. }
  cbn [mbind option_bind].
  match goal with
  | |- context [JumpNoTrampoline "L" ?b0] =>
      destruct (JumpNoTrampoline_form "L" b0) as (j2 & Hj2 & ->)
  end.
  { apply (reachable_labelled "L"); unfold bind_label; blk.
    - rewrite length_alter. unfold slice_at at 1. rewrite lookup_insert_eq.
      cbn [default from_option id]. apply elem_of_app. right.
      apply list_elem_of_here.
    - apply elem_of_union_r. exact Huse. }
  { discriminate. }
  unfold bind_label. blk. rewrite length_alter, length_app. cbn [length].
  assert (Hs2 : slice_at (delete "L" (<[sk := [mkFixUp t]]>
                            ({["L" := [mkFixUp i]]} : gmap string (list fixUp))))
                  "L" = []).
  { unfold slice_at. now rewrite lookup_delete_eq. }
  rewrite Hs2. cbn [app].
  rewrite (LabelNextInsn_single sk t); blk.
  2:{ rewrite lookup_insert_ne by done. rewrite lookup_delete_ne by done.
      now rewrite lookup_insert_eq. }
  2:{ rewrite length_app, length_alter, length_app. cbn. lia. }
  2:{ rewrite length_app, length_alter, length_app. cbn [length].
      unfold offset_ok, jump_offset, MinInt16, MaxInt16. lia. }
  eexists _, j1, j2. split; [reflexivity|]. split; [exact Hj1|].
  split; [exact Hj2|]. blk.
  rewrite !length_app, !length_alter, !length_app. cbn [length]. fold t.
  replace (jump_offset (t + 1 + 1) t) with 1 by (unfold jump_offset; lia).
  replace (t + 1)%nat with (S t) by lia. split; [reflexivity|].
  unfold bind_label. blk.
  rewrite lookup_insert_ne by done. now rewrite lookup_insert_eq.
Qed.

Lemma tramp_lookup (ns : list Insn) i j1 j2 off :
  (i < length ns)%nat →
  let ns1 := alter (patch_offset 1) (length ns)
               (alter (patch_offset off) i (ns ++ [j1]) ++ [j2]) in
  length ns1 = S (S (length ns))
  ∧ (∀ k, (k < length ns)%nat → k ≠ i → ns1 !! k = ns !! k)
  ∧ ns1 !! i = patch_offset off <$> ns !! i
  ∧ ns1 !! length ns = Some (patch_offset 1 j1)
  ∧ ns1 !! S (length ns) = Some j2.
Proof.
  intros Hi ns1. subst ns1. split; [|split; [|split; [|split]]].
  - rewrite length_alter, length_app, length_alter, length_app. cbn. lia.
  - intros k Hk Hne. rewrite list_lookup_alter_ne by lia.
    rewrite lookup_app_l by (rewrite length_alter, length_app; cbn; lia).
    rewrite list_lookup_alter_ne by done. now apply lookup_app_l.
  - rewrite list_lookup_alter_ne by lia.
    rewrite lookup_app_l by (rewrite length_alter, length_app; cbn; lia).
    rewrite list_lookup_alter, decide_True by done.
    now rewrite lookup_app_l.
  - rewrite list_lookup_alter, decide_True by done.
    rewrite lookup_app_l by (rewrite length_alter, length_app; cbn; lia).
    rewrite list_lookup_alter_ne by lia.
    now rewrite list_lookup_middle.
  - rewrite list_lookup_alter_ne by lia.
    apply list_lookup_middle. rewrite length_alter, length_app. cbn. lia.
Qed.

Lemma skeleton_of_Instruction n n' :
  Instruction n' = Instruction n → skeleton n' = skeleton n.
Proof. unfold skeleton. now intros ->. Qed.

Lemma OpCode_of_skeleton n n' :
  skeleton n' = skeleton n → Insn.OpCode n' = Insn.OpCode n.
Proof. intros H. now apply skeleton_fields. Qed.

Lemma OpCode_patch_offset off n :
  Insn.OpCode (patch_offset off n) = Insn.OpCode n.
Proof. apply OpCode_of_skeleton, skeleton_patch_offset. Qed.

Lemma lands_of_Instruction ns i n' n off :
  ns !! i = Some n' → Instruction n' = Instruction (patch_offset off n) →
  MinInt16 ≤ off ≤ MaxInt16 → 0 ≤ Z.of_nat i + 1 + off →
  lands ns i = Some (Z.to_nat (Z.of_nat i + 1 + off)).
Proof.
  intros Hi Hb Hoff Hpos. unfold lands. rewrite Hi. cbn [mbind option_bind].
  unfold Insn.Off. rewrite Hb.
  change (int16 (Uint16_2_4 (Instruction (patch_offset off n))))
    with (Insn.Off (patch_offset off n)).
  rewrite Off_patch_offset by done.
  destruct (Z.ltb_spec (Z.of_nat i + 1 + off) 0); [lia|reflexivity].
Qed.

Lemma agree_app ns l i ns' : agree (ns ++ l) i ns' → agree ns i ns'.
Proof.
  intros H k n Hk. apply (H k n). now apply lookup_app_l_Some.
Qed.

Lemma agree_tramp (ns : list Insn) i j1 j2 off ns' :
  (i < length ns)%nat →
  agree (alter (patch_offset 1) (length ns)
           (alter (patch_offset off) i (ns ++ [j1]) ++ [j2]))
    (S (length ns)) ns' →
  agree ns i ns'
  ∧ (∃ ni ni', ns !! i = Some ni ∧ ns' !! i = Some ni'
               ∧ Instruction ni' = Instruction (patch_offset off ni))
  ∧ (∃ n1', ns' !! length ns = Some n1'
            ∧ Instruction n1' = Instruction (patch_offset 1 j1))
  ∧ (∃ n2', ns' !! S (length ns) = Some n2'
            ∧ Insn.OpCode n2' = Insn.OpCode j2).
Proof.
  intros Hi Hag.
  destruct (tramp_lookup ns i j1 j2 off Hi) as (Hlen & Hold & Hati & Ht & Hst).
  destruct (lookup_lt_is_Some_2 _ _ Hi) as [ni Hni].
  rewrite Hni in Hati. cbn in Hati.
  destruct (Hag _ _ Hati) as (ni' & Hni' & _ & Hbi).
  specialize (Hbi ltac:(lia)).
  split; [|split; [|split]].
  - intros k n Hk. pose proof (lookup_lt_Some _ _ _ Hk) as Hlt.
    destruct (decide (k = i)) as [->|Hne].
    + exists ni'. split; [exact Hni'|]. split; [|done].
      rewrite Hk in Hni. injection Hni as ->.
      rewrite (skeleton_of_Instruction _ _ Hbi). apply skeleton_patch_offset.
    + rewrite <- (Hold k Hlt Hne) in Hk.
      destruct (Hag _ _ Hk) as (n' & Hn' & Hs & Hb).
      exists n'. split; [exact Hn'|]. split; [exact Hs|].
      intros _. apply Hb. lia.
  - eauto.
  - destruct (Hag _ _ Ht) as (n1' & Hn1' & _ & Hb). exists n1'.
    split; [exact Hn1'|]. apply Hb. lia.
  - destruct (Hag _ _ Hst) as (n2' & Hn2' & Hs & _). exists n2'.
    split; [exact Hn2'|]. now apply OpCode_of_skeleton.
Qed.

Lemma chain_inv_app ns l i : chain_inv ns i → chain_inv (ns ++ l) i.
Proof.
  intros H ns' fuel T Hag. apply H. now apply agree_app in Hag.
Qed.

Lemma chain_inv_tramp (ns : list Insn) i j1 j2 :
  (i < length ns)%nat → Insn.OpCode j2 = JumpA →
  jump_offset (S (length ns)) i ≤ MaxInt16 →
  chain_inv ns i →
  chain_inv (alter (patch_offset 1) (length ns)
               (alter (patch_offset (jump_offset (S (length ns)) i)) i
                  (ns ++ [j1]) ++ [j2]))
    (S (length ns)).
Proof.
  intros Hi Hj2 Hmax IH ns' fuel T Hag Htk.
  destruct (agree_tramp _ _ _ _ _ _ Hi Hag)
    as (Hag0 & (ni & ni' & Hni & Hni' & Hbi) & _ & (n2' & Hn2' & Hop2)).
  apply (IH ns' (S fuel) T Hag0).
  unfold taken.
  rewrite (lands_of_Instruction _ _ _ _ _ Hni' Hbi);
    [|unfold jump_offset, MinInt16, MaxInt16 in *; lia
     |unfold jump_offset; lia].
  replace (Z.to_nat (Z.of_nat i + 1 + jump_offset (S (length ns)) i))
    with (S (length ns)) by (unfold jump_offset; lia).
  cbn [mbind option_bind follow]. rewrite Hn2'. cbn [mbind option_bind].
  rewrite Hop2, Hj2, Z.eqb_refl. exact Htk.
Qed.

Lemma fall_inv_snoc J done (ns : list Insn) i insn :
  (i < length ns)%nat →
  Insn.OpCode insn ≠ JumpA → Insn.OpCode insn ≠ Exit →
  fall_inv J done ns i → fall_inv J (done ++ [insn]) (ns ++ [insn]) i.
Proof.
  intros Hi HJ HE IH ns' Hag.
  destruct (IH ns' (agree_app _ _ _ _ Hag))
    as (fuel0 & n0 & rest & Hn0 & Hrest & Hfall).
  destruct (Hag (length ns) insn (list_lookup_middle _ _ _ _ eq_refl))
    as (n' & Hn' & _ & Hb).
  specialize (Hb ltac:(lia)).
  assert (Hop : Insn.OpCode n' = Insn.OpCode insn)
    by (unfold Insn.OpCode; now rewrite Hb).
  exists (S fuel0), n0, (rest ++ [n']). split; [exact Hn0|]. split.
  - rewrite !fmap_app, Hrest. cbn. now rewrite Hb.
  - intros fuel. replace (S fuel0 + fuel)%nat with (fuel0 + S fuel)%nat by lia.
    rewrite Hfall. cbn [fall]. rewrite Hn', Hop.
    destruct (Z.eqb_spec (Insn.OpCode insn) JumpA) as [|_]; [contradiction|].
    destruct (Z.eqb_spec (Insn.OpCode insn) Exit) as [|_]; [contradiction|].
    rewrite length_app. cbn [length].
    replace (length ns + 1)%nat with (S (length ns)) by lia.
    now rewrite <- app_assoc.
Qed.

Lemma fall_inv_tramp J done (ns : list Insn) i j1 j2 off :
  (i < length ns)%nat → Insn.OpCode j1 = JumpA →
  fall_inv J done ns i →
  fall_inv J done
    (alter (patch_offset 1) (length ns)
       (alter (patch_offset off) i (ns ++ [j1]) ++ [j2]))
    (S (length ns)).
Proof.
  intros Hi Hj1 IH ns' Hag.
  destruct (agree_tramp _ _ _ _ _ _ Hi Hag)
    as (Hag0 & _ & (n1' & Hn1' & Hb1) & _).
  destruct (IH ns' Hag0) as (fuel0 & n0 & rest & Hn0 & Hrest & Hfall).
  exists (S fuel0), n0, rest. split; [exact Hn0|]. split; [exact Hrest|].
  intros fuel. replace (S fuel0 + fuel)%nat with (fuel0 + S fuel)%nat by lia.
  rewrite Hfall. cbn [fall]. rewrite Hn1'.
  assert (Hop : Insn.OpCode n1' = JumpA).
  { unfold Insn.OpCode. rewrite Hb1.
    change (Instruction (patch_offset 1 j1) !!! 0%fin)
      with (Insn.OpCode (patch_offset 1 j1)).
    now rewrite OpCode_patch_offset. }
  rewrite Hop, Z.eqb_refl.
  rewrite (lands_of_Instruction _ _ _ _ _ Hn1' Hb1);
    [|unfold MinInt16, MaxInt16; lia|lia].
  replace (Z.to_nat (Z.of_nat (length ns) + 1 + 1)) with (S (S (length ns)))
    by lia.
  destruct (tramp_lookup ns i j1 j2 off Hi) as (-> & _). reflexivity.
Qed.

(** One plain instruction while the jump to "L" is pending: either no
    trampoline is due and the instruction is appended, or a trampoline is
    written first. *)
Lemma filler_step_enabled_cases o st b i c :
  fair o → 0 < st ≤ TrampolineStrideDefault →
  tramp_inv st b i → filler c →
  ∃ b' i',
    exec o c b = Some b' ∧ tramp_inv st b' i'
    ∧ (Z.of_nat (length (insns b)) - Z.of_nat (lastTrampolineAddr b) < st
       ∧ i' = i
       ∧ insns b' = insns b ++ insns_of c
       ∧ labelToInsnIdx b' = labelToInsnIdx b
       ∧ lastTrampolineAddr b' = lastTrampolineAddr b
       ∨ st ≤ Z.of_nat (length (insns b)) - Z.of_nat (lastTrampolineAddr b)
         ∧ i' = S (length (insns b))
         ∧ lastTrampolineAddr b' = length (insns b)
         ∧ labelToInsnIdx b' !! "L" = Some (S (length (insns b)))
         ∧ ∃ j1 j2,
             Insn.OpCode j1 = JumpA ∧ Insn.OpCode j2 = JumpA
             ∧ insns b'
               = alter (patch_offset 1) (length (insns b))
                   (alter
                      (patch_offset (jump_offset (S (length (insns b))) i)) i
                      (insns b ++ [j1]) ++ [j2])
                 ++ insns_of c).
Proof.
  intros Ho Hst Hinv Hc.
  destruct (filler_insns_of c Hc)
    as (opcode & dst & src & offset & imm & annotation & -> & -> & HcJ & HcE & Hc0).
  set (insn := with_Annotation annotation (MakeInsn opcode dst src offset imm)).
  assert (Hop : Insn.OpCode insn = uint8 opcode) by reflexivity.
  rewrite exec_CInstr. fold insn.
  pose proof Hinv as
    (Hen & Hstride & Hd & Hfix & Huse & Hi & Hdist & prev & Hlast & HJ & HE).
  unfold maybeWriteTrampoline. rewrite Hen, Hstride, Hop. cbn [negb].
  destruct (Z.ltb_spec (Z.of_nat (length (insns b))
                        - Z.of_nat (lastTrampolineAddr b)) st) as [Hnear|Hfar].
  - cbn [mbind option_bind].
    destruct (NoTrampoline_plain_form insn b) as [nj ->];
      [now apply (reachable_after prev)|].
    eexists _, i. split; [reflexivity|]. blk. split.
    + unfold tramp_inv. blk. rewrite length_app, last_snoc. cbn [length].
      repeat (split; [first [assumption|lia]|]).
      exists insn. rewrite Hop. auto.
    + left. now repeat split.
  - destruct (Z.eqb_spec (uint8 opcode) LoadImm64Pt2) as [H0|_];
      [contradiction|].
    destruct (writeTrampoline_single o st b i Ho Hst Hinv)
      as (b1 & Hrun1 & Hen1 & Hstride1 & Hd1 & Hfix1 & Huse1 & Hlt1 & Hlen1 & Hr1).
    destruct (writeTrampoline_single_insns o st b i Ho Hst Hinv)
      as (b1' & j1 & j2 & Hrun1' & Hj1 & Hj2 & Hins1 & Hlab1).
    rewrite Hrun1 in Hrun1'. injection Hrun1' as <-.
    rewrite Hrun1. cbn [mbind option_bind].
    destruct (NoTrampoline_plain_form insn b1 Hr1) as [nj ->].
    eexists _, (S (length (insns b))). split; [reflexivity|]. blk.
    split.
    + unfold tramp_inv. blk. rewrite length_app, last_snoc, Hlen1, Hlt1.
      cbn [length].
      repeat (split; [first [assumption|lia]|]).
      exists insn. rewrite Hop. auto.
    + right. split; [exact Hfar|]. split; [reflexivity|].
      split; [exact Hlt1|]. split; [exact Hlab1|].
      exists j1, j2. rewrite Hins1. auto.
Qed.

Lemma filler_step_enabled_sem o st J done b i c :
  fair o → 0 < st ≤ TrampolineStrideDefault →
  tramp_inv st b i → filler c →
  chain_inv (insns b) i → fall_inv J done (insns b) i →
  ∃ b' i',
    exec o c b = Some b' ∧ tramp_inv st b' i'
    ∧ chain_inv (insns b') i'
    ∧ fall_inv J (done ++ insns_of c) (insns b') i'.
Proof.
  intros Ho Hst Hinv Hc Hchain Hfall.
  destruct (filler_step_enabled_cases o st b i c Ho Hst Hinv Hc)
    as (b' & i' & Hrun & Hinv' & Hcases).
  exists b', i'. split; [exact Hrun|]. split; [exact Hinv'|].
  destruct (filler_insns_of c Hc)
    as (opcode & dst & src & offset & imm & annotation & -> & Hof & HcJ & HcE & _).
  rewrite Hof in *.
  pose proof Hinv as (_ & _ & _ & _ & _ & Hi & Hdist & _).
  pose proof (max_stride_bound st Hst) as Hmax.
  destruct Hcases as [(_ & -> & -> & _)
                     |(_ & -> & _ & _ & j1 & j2 & Hj1 & Hj2 & ->)].
  - split; [now apply chain_inv_app|].
    apply fall_inv_snoc; [lia|exact HcJ|exact HcE|exact Hfall].
  - split.
    + apply chain_inv_app, chain_inv_tramp; [lia|exact Hj2| |exact Hchain].
      unfold jump_offset, MaxInt16. lia.
    + apply fall_inv_snoc; [|exact HcJ|exact HcE|].
      * rewrite length_alter, length_app, length_alter, length_app. cbn. lia.
      * apply fall_inv_tramp; [lia|exact Hj1|exact Hfall].
Qed.

Lemma run_fillers_enabled_sem os st J done fill b i :
  (∀ k, fair (os k)) → 0 < st ≤ TrampolineStrideDefault →
  Forall filler fill → tramp_inv st b i →
  chain_inv (insns b) i → fall_inv J done (insns b) i →
  ∃ b' i',
    run os fill b = Some b' ∧ tramp_inv st b' i'
    ∧ chain_inv (insns b') i'
    ∧ fall_inv J (done ++ mjoin (insns_of <$> fill)) (insns b') i'.
Proof.
  intros Hos Hst Hfill. revert os Hos done b i.
  induction Hfill as [|c fill Hc _ IH];
    intros os Hos done b i Hinv Hchain Hfall; cbn [run].
  - exists b, i. cbn. rewrite app_nil_r. auto.
  - destruct (filler_step_enabled_sem (os 0%nat) st J done b i c (Hos _) Hst
                Hinv Hc Hchain Hfall)
      as (b1 & i1 & -> & Hinv1 & Hchain1 & Hfall1).
    cbn [mbind option_bind].
    destruct (IH _ (fun k => Hos (S k)) _ b1 i1 Hinv1 Hchain1 Hfall1)
      as (b2 & i2 & Hrun2 & Hinv2 & Hchain2 & Hfall2).
    exists b2, i2. split; [exact Hrun2|]. split; [exact Hinv2|].
    split; [exact Hchain2|]. cbn. now rewrite app_assoc.
Qed.

(** X14. Trampolines keep the control flow.  A conditional jump to a
    label bound behind any number of plain instructions is assembled, with
    trampolines on, to a program in which the jump, when taken, reaches
    the labelled [Exit] through the relays, and in which, when the jump is
    not taken, control meets the jump, the plain instructions as given and
    the [Exit], and nothing else: the relays are skipped. *)
Theorem trampolines_keep_control_flow (os : nat → MapOrder) (o : MapOrder)
    (debug : bool) (s jump ra rb : Z) (fill : list BuilderCall) :
  (∀ k, fair (os k)) → fair o →
  uint8 jump ≠ JumpA → uint8 jump ≠ Exit → Forall filler fill →
  ∃ ns fuel fuel' n0 rest,
    assemble os o debug (long_jump true s jump ra rb fill)
    = Some (Some ns, None)
    ∧ taken fuel ns 0 = Some (length ns - 1)%nat
    ∧ Insn.OpCode <$> ns !! (length ns - 1)%nat = Some Exit
    ∧ fall fuel' ns 0 = n0 :: rest
    ∧ skeleton n0 = skeleton (MakeInsn jump ra rb 0 0)
    ∧ Instruction <$> rest
      = Instruction <$> (mjoin (insns_of <$> fill) ++ [MakeInsn Exit 0 0 0 0]).
Proof.
  intros Hos Ho HJ HE Hfill. rewrite assemble_long_jump.
  destruct (jump_emitted (os 2%nat) s true debug jump ra rb HJ HE)
    as (b1 & Hrun1 & Hen & Hstride & Hd & Hfix & Huse & Hlt & Hlen & Hprev).
  destruct (jump_emitted_insn _ _ _ _ _ _ _ _ Hrun1) as (J & HJ1 & HJb).
  rewrite Hrun1. cbn [mbind option_bind].
  pose proof (stride_after_set s true debug) as Hst.
  rewrite <- Hstride in Hst.
  assert (Hinv : tramp_inv (trampolineStride b1) b1 0).
  { unfold tramp_inv. rewrite Hlt, Hlen.
    repeat (split; [first [assumption|reflexivity|lia]|]). exact Hprev. }
  assert (HopJ : Insn.OpCode J = uint8 jump).
  { unfold Insn.OpCode. rewrite HJb.
    change (Instruction (MakeInsn jump ra rb 0 0) !!! 0%fin)
      with (Insn.OpCode (MakeInsn jump ra rb 0 0)).
    apply MakeInsn_OpCode. }
  assert (Hchain : chain_inv (insns b1) 0) by (intros ns' fuel T _ H; eauto).
  assert (Hfall : fall_inv (MakeInsn jump ra rb 0 0) [] (insns b1) 0).
  { intros ns' Hag. rewrite HJ1 in Hag.
    destruct (Hag 0%nat J eq_refl) as (n0 & Hn0 & Hs0 & _).
    exists 1%nat, n0, []. split.
    { rewrite Hs0. now apply skeleton_of_Instruction. }
    split; [reflexivity|]. intros fuel. cbn [Nat.add fall]. rewrite Hn0.
    rewrite (OpCode_of_skeleton _ _ Hs0), HopJ.
    destruct (Z.eqb_spec (uint8 jump) JumpA) as [|_]; [contradiction|].
    destruct (Z.eqb_spec (uint8 jump) Exit) as [|_]; [contradiction|].
    now rewrite HJ1. }
  destruct (run_fillers_enabled_sem (fun k => os (3 + k)%nat)
              (trampolineStride b1) (MakeInsn jump ra rb 0 0) [] fill b1 0
              (fun k => Hos _) Hst Hfill Hinv Hchain Hfall)
    as (b2 & i & -> & Hinv2 & Hchain2 & Hfall2).
  cbn [mbind option_bind]. cbn [app] in Hfall2.
  destruct Hinv2 as (_ & _ & Hd2 & Hfix2 & Huse2 & Hi2 & Hdist2 & _).
  pose proof (max_stride_bound _ Hst) as Hmax.
  assert (Hok : offset_ok (jump_offset (length (insns b2)) i))
    by (unfold offset_ok, jump_offset, MinInt16, MaxInt16; lia).
  destruct (finish_long_jump o (os (3 + length fill + 1)%nat) b2 i Ho Hfix2
              ltac:(lia) Hok Hd2 Huse2) as (ns & -> & Hns).
  set (t := length (insns b2)) in *.
  set (off := jump_offset t i) in *.
  assert (Hlook : ∀ k bs, (Instruction <$> ns) !! k = Some bs →
                          ∃ n, ns !! k = Some n ∧ Instruction n = bs).
  { intros k bs Hk. rewrite list_lookup_fmap in Hk.
    destruct (ns !! k) as [n|]; [|discriminate]. injection Hk as <-. eauto. }
  assert (Hlenns : length ns = S t).
  { rewrite <- (length_fmap Instruction ns), Hns, length_app, length_fmap,
      length_alter. cbn. lia. }
  destruct (Hlook t (Instruction (MakeInsn Exit 0 0 0 0)))
    as (nx & Hnx & Hbx).
  { rewrite Hns. apply list_lookup_middle.
    now rewrite length_fmap, length_alter. }
  assert (Hopx : Insn.OpCode nx = Exit)
    by (unfold Insn.OpCode; rewrite Hbx; reflexivity).
  assert (Hag : agree (insns b2) i ns).
  { intros k n Hk. pose proof (lookup_lt_Some _ _ _ Hk) as Hkt.
    destruct (Hlook k (Instruction
                         (if decide (k = i) then patch_offset off n else n)))
      as (n' & Hn' & Hb').
    { rewrite Hns, lookup_app_l by (rewrite length_fmap, length_alter; lia).
      rewrite list_lookup_fmap.
      destruct (decide (k = i)) as [->|Hne].
      - rewrite list_lookup_alter, decide_True, Hk by done. reflexivity.
      - now rewrite list_lookup_alter_ne, Hk. }
    exists n'. split; [exact Hn'|]. destruct (decide (k = i)) as [->|Hne].
    - split; [|done]. rewrite (skeleton_of_Instruction _ _ Hb').
      apply skeleton_patch_offset.
    - split; [now apply skeleton_of_Instruction|auto]. }
  destruct (lookup_lt_is_Some_2 (insns b2) i ltac:(lia)) as [ni Hni].
  destruct (Hlook i (Instruction (patch_offset off ni))) as (ni' & Hni' & Hbi).
  { rewrite Hns, lookup_app_l by (rewrite length_fmap, length_alter; lia).
    now rewrite list_lookup_fmap, list_lookup_alter, decide_True, Hni. }
  destruct (Hchain2 ns 1%nat t Hag) as (fuel & Hfuel).
  { unfold taken.
    rewrite (lands_of_Instruction _ _ _ _ _ Hni' Hbi);
      [|unfold off, jump_offset, MinInt16, MaxInt16 in *; lia
       |unfold off, jump_offset; lia].
    replace (Z.to_nat (Z.of_nat i + 1 + off)) with t
      by (unfold off, jump_offset; lia).
    cbn [mbind option_bind follow]. rewrite Hnx. cbn [mbind option_bind].
    rewrite Hopx. reflexivity. }
  destruct (Hfall2 ns Hag) as (fuel0 & n0 & rest & Hn0 & Hrest & Hrun).
  exists ns, fuel, (fuel0 + 1)%nat, n0, (rest ++ [nx]).
  split; [reflexivity|]. rewrite Hlenns.
  replace (S t - 1)%nat with t by lia.
  split; [exact Hfuel|]. split; [now rewrite Hnx; cbn; rewrite Hopx|].
  split.
  - rewrite Hrun. fold t. cbn [fall]. rewrite Hnx, Hopx. reflexivity.
  - split; [exact Hn0|]. rewrite !fmap_app, Hrest. cbn. now rewrite Hbx.
Qed.

Lemma trampolines_keep_control_flow_witness :
  ∃ ns fuel fuel' n0 rest,
    assemble (fun _ => in_order) in_order false
      (long_jump true 2 JumpEq64 R1 R2
         (replicate 5 (CInstr Mov64 R1 R2 0 0 "")))
    = Some (Some ns, None)
    ∧ taken fuel ns 0 = Some (length ns - 1)%nat
    ∧ fall fuel' ns 0 = n0 :: rest
    ∧ Instruction <$> rest
      = Instruction
          <$> (replicate 5 (MakeInsn Mov64 R1 R2 0 0)
               ++ [MakeInsn Exit 0 0 0 0]).
Proof.
  destruct (trampolines_keep_control_flow (fun _ => in_order) in_order false
              2 JumpEq64 R1 R2 (replicate 5 (CInstr Mov64 R1 R2 0 0 ""))
              (fun _ => fair_in_order) fair_in_order)
    as (ns & fuel & fuel' & n0 & rest & H & Ht & _ & Hf & _ & Hr).
  - vm_compute. discriminate.
  - vm_compute. discriminate.
  - repeat constructor; vm_compute; discriminate.
  - exists ns, fuel, fuel', n0, rest. auto.
Defined.

(** *** A label that is never bound *)

Lemma stride_of_set s en debug :
  trampolineStride
    (SetTrampolineStride s (SetTrampolinesEnabled en (NewBlock debug)))
  = stride_of s.
Proof. unfold SetTrampolineStride, stride_of. now destruct (_ && _). Qed.

Lemma jump_emitted_labels o s en debug jump ra rb b :
  exec o (CInstrWithOffsetFixup jump ra rb "L" 0)
    (SetTrampolineStride s (SetTrampolinesEnabled en (NewBlock debug)))
  = Some b →
  labelToInsnIdx b = ∅ ∧ insnIdxToLabels b = ∅.
Proof.
  pose proof (stride_after_set s en debug) as Hst.
  destruct (configured_fields s en debug)
    as (Hins & Hfix & Huse & Hen & Hlt & Hd).
  assert (Hlab : labelToInsnIdx
                   (SetTrampolineStride s
                      (SetTrampolinesEnabled en (NewBlock debug))) = ∅
                 ∧ insnIdxToLabels
                     (SetTrampolineStride s
                        (SetTrampolinesEnabled en (NewBlock debug))) = ∅)
    by (unfold SetTrampolineStride; now destruct (_ && _)).
  set (b0 := SetTrampolineStride s (SetTrampolinesEnabled en (NewBlock debug)))
    in *.
  cbn [exec]. unfold InstrWithOffsetFixup, addWithOffsetFixup,
    addInsnWithOffsetFixup.
  assert (Htr : maybeWriteTrampoline o (MakeInsn jump ra rb 0 0) b0 = Some b0).
  { unfold maybeWriteTrampoline. destruct (negb _); [reflexivity|].
    rewrite Hins, Hlt. cbn [length].
    destruct (Z.ltb_spec (Z.of_nat 0 - Z.of_nat 0)
                (trampolineStride b0)); [reflexivity|lia]. }
  rewrite Htr. cbn [mbind option_bind fmap option_fmap option_map snd].
  assert (Hr : nextInsnReachable b0 = true).
  { unfold nextInsnReachable. now rewrite Hins. }
  destruct (NoTrampoline_reachable (MakeInsn jump ra rb 0 0) "L" b0 Hr)
    as (_ & _ & _ & Hlab' & Hidx' & _).
  intros [= <-]. now rewrite Hlab', Hidx'.
Qed.

Lemma Assemble_unbound o b i :
  fair o → fixUps b = {["L" := [mkFixUp i]]} → deferredErr b = None →
  labelToInsnIdx b !! "L" = None →
  Assemble o b = Some (None, Some (ErrMissingLabel "L")).
Proof.
  intros Ho Hfix Hd Hlab. unfold Assemble.
  rewrite Hd, Hfix, (range_keys_singleton o _ Ho).
  cbn [Assemble_fixUps]. unfold applyFixUps, slice_at.
  rewrite Hfix, lookup_singleton_eq.
  cbn [default from_option id applyFixUps_loop]. now rewrite Hlab.
Qed.

Lemma Assemble_bound_to_relay o b i :
  fair o → fixUps b = {["L" := [mkFixUp i]]} → deferredErr b = None →
  labelToInsnIdx b !! "L" = Some i →
  Assemble o b = Some (None, Some (ErrSameInsn (-1) "L")).
Proof.
  intros Ho Hfix Hd Hlab. unfold Assemble.
  rewrite Hd, Hfix, (range_keys_singleton o _ Ho).
  cbn [Assemble_fixUps]. unfold applyFixUps, slice_at.
  rewrite Hfix, lookup_singleton_eq.
  cbn [default from_option id applyFixUps_loop origInsnIdx]. rewrite Hlab.
  replace (Z.of_nat i - Z.of_nat i - 1) with (-1) by lia. reflexivity.
Qed.

Lemma run_fillers_dangling os st fill b i k :
  (∀ k, fair (os k)) → 0 < st ≤ TrampolineStrideDefault →
  Forall filler fill → tramp_inv st b i → dangling_inv st k b i →
  ∃ b' i',
    run os fill b = Some b' ∧ tramp_inv st b' i'
    ∧ dangling_inv st (k + length fill) b' i'.
Proof.
  intros Hos Hst Hfill. revert os Hos b i k.
  induction Hfill as [|c fill Hc _ IH]; intros os Hos b i k Hinv Hd;
    cbn [run length].
  - exists b, i. rewrite Nat.add_0_r. auto.
  - destruct (filler_step_enabled_cases (os 0%nat) st b i c (Hos _) Hst Hinv Hc)
      as (b1 & i1 & -> & Hinv1 & Hcases).
    cbn [mbind option_bind]. rewrite <- Nat.add_succ_comm.
    apply (IH _ (fun k => Hos (S k)) b1 i1 (S k) Hinv1).
    pose proof Hinv as (_ & _ & _ & _ & _ & Hi & _).
    destruct (filler_insns_of c Hc)
      as (opcode & dst & src & offset & imm & annotation & _ & Hof & _).
    destruct Hcases as [(Hnear & -> & Hins & Hlab & Hlt)
                       |(Hfar & -> & Hlt & Hlab & _)].
    + destruct Hd as [(Hlt0 & Hlen & Hle & Hnone)|(Hlt0 & Hle & Hsome)].
      * left. rewrite Hlt, Hlab, Hins, Hof, length_app. cbn [length].
        repeat split; [assumption|lia|lia|assumption].
      * right. rewrite Hlt, Hlab. repeat split; [assumption|lia|assumption].
    + right. rewrite Hlt. split; [lia|]. split; [|exact Hlab].
      destruct Hd as [(Hlt0 & Hlen & Hle & Hnone)|(Hlt0 & Hle & Hsome)]; lia.
Qed.

(** X15. A jump other than [JumpA] and [Exit] whose label is never bound
    makes [Assemble] fail, and the trampolines decide how: when they are
    on and at least a stride of instructions follows the jump, a
    trampoline has bound the label to its own relay and the error is the
    one for a jump to the same instruction (offset -1); otherwise the
    error names the missing label. *)
Theorem unbound_label_error (os : nat → MapOrder) (o : MapOrder)
    (debug en : bool) (s jump ra rb : Z) (fill : list BuilderCall) :
  (∀ k, fair (os k)) → fair o →
  uint8 jump ≠ JumpA → uint8 jump ≠ Exit → Forall filler fill →
  assemble os o debug (dangling en s jump ra rb fill)
  = Some (None,
          Some (if en && (stride_of s <=? Z.of_nat (length fill))
                then ErrSameInsn (-1) "L" else ErrMissingLabel "L")).
Proof.
  intros Hos Ho HJ HE Hfill. unfold assemble, dangling.
  cbn [run exec mbind option_bind].
  destruct (jump_emitted (os 2%nat) s en debug jump ra rb HJ HE)
    as (b1 & Hrun1 & Hen & Hstride & Hd & Hfix & Huse & Hlt & Hlen & Hprev).
  pose proof (jump_emitted_labels _ _ _ _ _ _ _ _ Hrun1) as [Hlab1 _].
  cbn [exec] in Hrun1. rewrite Hrun1. cbn [mbind option_bind].
  rewrite stride_of_set in Hstride.
  pose proof (stride_after_set s en debug) as Hst.
  rewrite stride_of_set in Hst.
  destruct en; cbn [andb].
  - assert (Hinv : tramp_inv (stride_of s) b1 0).
    { unfold tramp_inv. rewrite Hlt, Hlen.
      repeat (split; [first [assumption|reflexivity|lia]|]). exact Hprev. }
    assert (Hdang : dangling_inv (stride_of s) 0 b1 0).
    { left. rewrite Hlab1, lookup_empty. repeat split; [assumption..|lia]. }
    destruct (run_fillers_dangling (fun k => os (S (S (S k)))) (stride_of s)
                fill b1 0 0 (fun k => Hos _) Hst Hfill Hinv Hdang)
      as (b2 & i & -> & Hinv2 & Hdang2).
    cbn [mbind option_bind].
    destruct Hinv2 as (_ & _ & Hd2 & Hfix2 & _ & Hi2 & _).
    destruct Hdang2 as [(Hlt0 & Hlen2 & Hle & Hnone)|(Hlt0 & Hle & Hsome)].
    + destruct (Z.leb_spec (stride_of s) (Z.of_nat (length fill)));
        [lia|].
      now apply (Assemble_unbound o b2 i).
    + destruct (Z.leb_spec (stride_of s) (Z.of_nat (length fill)));
        [|lia].
      now apply (Assemble_bound_to_relay o b2 i).
  - assert (Hinv : plain_inv b1 0).
    { unfold plain_inv. repeat (split; [assumption|]). exact Hprev. }
    destruct (run_fillers_disabled_insns (fun k => os (S (S (S k)))) fill b1 0
                Hfill Hinv) as (b2 & -> & Hinv2 & Hins2 & Huse2 & Hlab2 & _).
    cbn [mbind option_bind].
    destruct Hinv2 as (_ & Hd2 & Hfix2 & _).
    apply (Assemble_unbound o b2 0 Ho Hfix2 Hd2).
    now rewrite Hlab2, Hlab1, lookup_empty.
Qed.

Lemma unbound_label_error_witness :
  assemble (fun _ => in_order) in_order false
    (dangling true 2 JumpEq64 R1 R2
       [CInstr Mov64 R1 R2 0 0 ""; CInstr Mov64 R1 R2 0 0 ""])
  = Some (None, Some (ErrSameInsn (-1) "L"))
  ∧ assemble (fun _ => in_order) in_order false
      (dangling true 3 JumpEq64 R1 R2
         [CInstr Mov64 R1 R2 0 0 ""; CInstr Mov64 R1 R2 0 0 ""])
    = Some (None, Some (ErrMissingLabel "L")).
Proof.
  split.
  - rewrite (unbound_label_error (fun _ => in_order) in_order false true 2);
      [reflexivity|intros; apply fair_in_order|apply fair_in_order
      |vm_compute; discriminate|vm_compute; discriminate
      |repeat constructor; vm_compute; discriminate].
  - rewrite (unbound_label_error (fun _ => in_order) in_order false true 3);
      [reflexivity|intros; apply fair_in_order|apply fair_in_order
      |vm_compute; discriminate|vm_compute; discriminate
      |repeat constructor; vm_compute; discriminate].
Defined.

(** *** Pending fix-ups, emitted instructions *)

Lemma StronglySorted_snoc (l : list nat) x :
  StronglySorted lt l → Forall (fun y => (y < x)%nat) l →
  StronglySorted lt (l ++ [x]).
Proof.
  induction 1 as [|y l Hl IH Hy]; intros Hx; cbn.
  - repeat constructor.
  - apply Forall_cons in Hx as [Hyx Hx]. constructor; [now apply IH|].
    apply Forall_app. split; [exact Hy|]. now repeat constructor.
Qed.

Lemma fixups_sorted_run os cs : keeps fixups_sorted (run os cs).
Proof.
  apply keeps_run; unfold fixups_sorted.
  - intros b b' HP (_ & -> & _). exact HP.
  - intros label b HP. exact HP.
  - intros ns b HP _. exact HP.
  - intros L0 b HP L fs. blk. intros H.
    apply lookup_delete_Some in H as [_ H]. now apply (HP L).
  - intros e b HP. exact HP.
  - intros opcode dst src offset imm annotation targetLabel b Hwf HP L fs.
    destruct (nextInsnReachable b) eqn:Hr.
    + destruct (NoTrampoline_reachable
                  (with_Annotation annotation (MakeInsn opcode dst src offset imm))
                  targetLabel b Hr) as (_ & -> & _).
      destruct (bool_decide (targetLabel ≠ "")); [|apply HP].
      destruct (decide (targetLabel = L)) as [->|HL].
      * rewrite lookup_insert_eq. intros [= <-].
        rewrite fmap_app. cbn. apply StronglySorted_snoc.
        -- unfold slice_at. destruct (fixUps b !! L) eqn:HL; cbn;
             [now apply (HP L)|constructor].
        -- apply Forall_fmap. pose proof (wf_slice b L Hwf) as Hin.
           eapply Forall_impl; [exact Hin|]. intros f Hf. exact Hf.
      * rewrite lookup_insert_ne by done. apply HP.
    + destruct (NoTrampoline_unreachable_insn
                  (with_Annotation annotation (MakeInsn opcode dst src offset imm))
                  targetLabel b Hr) as (_ & _ & -> & _). apply HP.
Qed.

(** X16. After any sequence of method calls on a fresh block in which
    [ReserveInstructionCapacity] is asked for no more than [make] accepts,
    every pending fix-up points at an emitted instruction, no instruction
    is pending under two labels, and the fix-ups of a label are in
    ascending order; a later [Assemble] returns, without indexing the
    instructions out of range. *)
Theorem pending_fixups_in_range (os : nat → MapOrder) (debug : bool)
    (ms : list MethodCall) :
  forallb fits ms = true →
  ∃ b, calls os ms (NewBlock debug) = Some b
       ∧ (∀ L fs f, fixUps b !! L = Some fs → f ∈ fs →
                    (origInsnIdx f < length (insns b))%nat)
       ∧ (∀ L1 L2 fs1 fs2 f,
            fixUps b !! L1 = Some fs1 → fixUps b !! L2 = Some fs2 →
            f ∈ fs1 → f ∈ fs2 → L1 = L2)
       ∧ (∀ L fs, fixUps b !! L = Some fs →
                  StronglySorted lt (origInsnIdx <$> fs))
       ∧ (∀ o, fair o → ∃ r, Assemble o b = Some r).
Proof.
  intros Hfit. destruct (calls_builds ms Hfit os) as (os1 & _ & Hos1).
  destruct (safe_run os1 (builds ms) (NewBlock debug) (wf_NewBlock debug))
    as (b & Hrun & Hwf & _). exists b. rewrite Hos1. split; [exact Hrun|].
  split; [exact (proj1 Hwf)|]. split; [exact (proj2 Hwf)|]. split.
  - apply (fixups_sorted_run os1 (builds ms) _ b (wf_NewBlock debug));
      [|exact Hrun].
    intros L fs H. cbn in H. now rewrite lookup_empty in H.
  - intros o Ho. destruct (deferredErr b) as [e|] eqn:Hd.
    + eexists. exact (Assemble_latched o b e Hd).
    + destruct (Assemble_spec o b Ho Hwf Hd) as (b' & err & _ & -> & _).
      eauto.
Qed.

Lemma pending_fixups_in_range_witness :
  ∃ b, calls (fun _ => in_order)
         [CBuild (CInstrWithOffsetFixup JumpEq64 R1 R2 "L" 0);
          CReserveInstructionCapacity 4096;
          CBuild (CInstrWithOffsetFixup JumpNE64 R1 R2 "M" 0);
          CBuild (CInstrWithOffsetFixup JumpLT64 R1 R2 "L" 0)]
         (NewBlock false) = Some b
       ∧ (∀ L fs f, fixUps b !! L = Some fs → f ∈ fs →
                    (origInsnIdx f < length (insns b))%nat)
       ∧ (∀ L1 L2 fs1 fs2 f,
            fixUps b !! L1 = Some fs1 → fixUps b !! L2 = Some fs2 →
            f ∈ fs1 → f ∈ fs2 → L1 = L2)
       ∧ (∀ L fs, fixUps b !! L = Some fs →
                  StronglySorted lt (origInsnIdx <$> fs))
       ∧ (∀ o, fair o → ∃ r, Assemble o b = Some r).
Proof.
  apply (pending_fixups_in_range (fun _ => in_order) false
           [CBuild (CInstrWithOffsetFixup JumpEq64 R1 R2 "L" 0);
            CReserveInstructionCapacity 4096;
            CBuild (CInstrWithOffsetFixup JumpNE64 R1 R2 "M" 0);
            CBuild (CInstrWithOffsetFixup JumpLT64 R1 R2 "L" 0)]).
  reflexivity.
Defined.

Lemma kept_run ns0 os cs : keeps (kept ns0) (run os cs).
Proof.
  apply keeps_run; unfold kept.
  - intros b b' HP (-> & _). exact HP.
  - intros label b HP. exact HP.
  - intros ns b HP Hns k n Hk. blk.
    destruct (HP k n Hk) as (n1 & Hn1 & Hp1).
    destruct (Forall2_lookup_l _ _ _ _ _ Hns Hn1) as (n2 & Hn2 & Hp2).
    exists n2. split; [exact Hn2|]. eapply patched_trans; eassumption.
  - intros L0 b HP. exact HP.
  - intros e b HP. exact HP.
  - intros opcode dst src offset imm annotation targetLabel b _ HP k n Hk.
    destruct (HP k n Hk) as (n1 & Hn1 & Hp1). exists n1.
    split; [|exact Hp1].
    destruct (nextInsnReachable b) eqn:Hr.
    + destruct (NoTrampoline_reachable_insn
                  (with_Annotation annotation (MakeInsn opcode dst src offset imm))
                  targetLabel b Hr) as (a & -> & _).
      now apply lookup_app_l_Some.
    + destruct (NoTrampoline_unreachable_insn
                  (with_Annotation annotation (MakeInsn opcode dst src offset imm))
                  targetLabel b Hr) as (-> & _). exact Hn1.
Qed.

(** X17. An emitted instruction stays: whatever calls follow, it keeps
    its index, its opcode, registers and immediate, its labels, comments
    and annotation; the only thing the builder ever changes in it is the
    offset field. *)
Theorem emitted_instructions_stay (os os' : nat → MapOrder) (debug : bool)
    (cs cs' : list BuilderCall) :
  ∃ b b',
    run os cs (NewBlock debug) = Some b
    ∧ run os' cs' b = Some b'
    ∧ (length (insns b) ≤ length (insns b'))%nat
    ∧ ∀ k n,
        insns b !! k = Some n →
        ∃ n', insns b' !! k = Some n'
              ∧ (n' = n ∨ ∃ off, n' = patch_offset off n)
              ∧ Insn.OpCode n' = Insn.OpCode n ∧ Insn.Dst n' = Insn.Dst n
              ∧ Insn.Src n' = Insn.Src n ∧ Insn.Imm n' = Insn.Imm n
              ∧ Labels n' = Labels n ∧ Comments n' = Comments n
              ∧ Annotation n' = Annotation n.
Proof.
  destruct (safe_run os cs (NewBlock debug) (wf_NewBlock debug))
    as (b & Hrun & Hwf & _).
  destruct (safe_run os' cs' b Hwf) as (b' & Hrun' & _ & Hext).
  exists b, b'. split; [exact Hrun|]. split; [exact Hrun'|].
  split; [now apply extends_length|].
  intros k n Hk.
  assert (Hkept : kept (insns b) b').
  { apply (kept_run (insns b) os' cs' b b' Hwf); [|exact Hrun'].
    intros k0 n0 H0. exists n0. split; [exact H0|apply patched_refl]. }
  destruct (Hkept k n Hk) as (n' & Hn' & Hp).
  exists n'. split; [exact Hn'|]. split; [exact Hp|].
  assert (Hs : skeleton n' = skeleton n).
  { destruct Hp as [->|[off ->]]; [reflexivity|apply skeleton_patch_offset]. }
  destruct (skeleton_fields _ _ Hs) as (? & ? & ? & ?).
  repeat (split; [assumption|]).
  destruct Hp as [->|[off ->]]; now repeat split.
Qed.

(** *** A jump back *)

Lemma length_fillers fill :
  Forall filler fill → length (mjoin (insns_of <$> fill)) = length fill.
Proof.
  induction 1 as [|c fill Hc _ IH]; [reflexivity|].
  destruct (filler_insns_of c Hc) as (? & ? & ? & ? & ? & ? & _ & Hof & _).
  rewrite fmap_cons.
  change (mjoin (insns_of c :: (insns_of <$> fill)))
    with (insns_of c ++ mjoin (insns_of <$> fill)).
  rewrite length_app, Hof, IH. reflexivity.
Qed.

Lemma loop_back_start s en debug :
  ∃ b, LabelNextInsn "L"
         (SetTrampolineStride s (SetTrampolinesEnabled en (NewBlock debug)))
       = Some b
       ∧ bound_inv b [].
Proof.
  destruct (configured_fields s en debug)
    as (Hins & Hfix & Huse & Hen & Hlt & Hd).
  set (b0 := SetTrampolineStride s (SetTrampolinesEnabled en (NewBlock debug)))
    in *.
  rewrite LabelNextInsn_bind_label.
  unfold applyFixUps, slice_at, bind_label. blk.
  rewrite Hfix, lookup_empty. cbn [default applyFixUps_loop].
  cbn [mbind option_bind]. eexists. split; [reflexivity|].
  unfold bound_inv. blk. rewrite Hfix, Hins, Hd, delete_empty. cbn [length].
  rewrite lookup_insert_eq. repeat split.
  unfold nextInsnReachable. blk. now rewrite Hins.
Qed.

Lemma bound_step o b done c :
  bound_inv b done → filler c →
  ∃ b', exec o c b = Some b' ∧ bound_inv b' (done ++ insns_of c).
Proof.
  intros (Hfix & Hd & Hlab & Hins & Hr) Hc.
  destruct (filler_insns_of c Hc)
    as (opcode & dst & src & offset & imm & annotation & -> & -> & HcJ & HcE & _).
  set (insn := with_Annotation annotation (MakeInsn opcode dst src offset imm)).
  assert (Hop : Insn.OpCode insn = uint8 opcode) by reflexivity.
  rewrite exec_CInstr. fold insn.
  destruct (maybeWriteTrampoline_resolved o insn b Hfix) as (b1 & -> & Hcore).
  cbn [mbind option_bind].
  pose proof (nextInsnReachable_same_core _ _ Hcore) as Hr1.
  rewrite Hr in Hr1.
  destruct Hcore as (Hi1 & Hf1 & Hl1 & _ & _ & _ & Hd1 & _).
  destruct (NoTrampoline_plain_form insn b1 Hr1) as [nj ->].
  eexists. split; [reflexivity|]. unfold bound_inv. blk.
  rewrite Hf1, Hd1, Hl1, Hi1, Hins.
  repeat (split; [first [assumption|reflexivity]|]).
  apply (reachable_after insn); blk; [apply last_snoc|..]; now rewrite Hop.
Qed.

Lemma bound_run os fill b done :
  Forall filler fill → bound_inv b done →
  ∃ b', run os fill b = Some b'
        ∧ bound_inv b' (done ++ mjoin (insns_of <$> fill)).
Proof.
  intros Hfill. revert os b done.
  induction Hfill as [|c fill Hc _ IH]; intros os b done Hinv; cbn [run].
  - exists b. cbn. now rewrite app_nil_r.
  - destruct (bound_step (os 0%nat) b done c Hinv Hc) as (b1 & -> & Hinv1).
    cbn [mbind option_bind].
    destruct (IH (fun k => os (S k)) b1 _ Hinv1) as (b2 & Hrun2 & Hinv2).
    exists b2. split; [exact Hrun2|]. cbn. now rewrite app_assoc.
Qed.

Lemma bound_jump o jump ra rb b done :
  bound_inv b done →
  ∃ b' J,
    exec o (CInstrWithOffsetFixup jump ra rb "L" 0) b = Some b'
    ∧ Instruction J = Instruction (MakeInsn jump ra rb 0 0)
    ∧ insns b' = done ++ [J]
    ∧ fixUps b' = {["L" := [mkFixUp (length done)]]}
    ∧ deferredErr b' = None
    ∧ labelToInsnIdx b' !! "L" = Some 0%nat.
Proof.
  intros (Hfix & Hd & Hlab & Hins & Hr).
  cbn [exec]. unfold InstrWithOffsetFixup, addWithOffsetFixup,
    addInsnWithOffsetFixup.
  destruct (maybeWriteTrampoline_resolved o (MakeInsn jump ra rb 0 0) b Hfix)
    as (b1 & -> & Hcore).
  cbn [mbind option_bind fmap option_fmap option_map snd].
  pose proof (nextInsnReachable_same_core _ _ Hcore) as Hr1.
  rewrite Hr in Hr1.
  destruct Hcore as (Hi1 & Hf1 & Hl1 & _ & _ & _ & Hd1 & _).
  destruct (NoTrampoline_reachable (MakeInsn jump ra rb 0 0) "L" b1 Hr1)
    as ((J & HinsJ & HJ) & Hfix' & _ & Hlab' & _ & _ & _ & _ & _ & _ & Hd' & _).
  rewrite bool_decide_eq_true_2 in Hfix' by discriminate.
  eexists _, J. split; [reflexivity|]. split; [exact HJ|].
  rewrite HinsJ, Hfix', Hd', Hlab', Hi1, Hf1, Hd1, Hl1, Hins, Hfix.
  split; [reflexivity|]. split; [|split; assumption].
  unfold slice_at. rewrite lookup_empty. cbn. apply insert_empty.
Qed.

Lemma Assemble_one_fixup o b i t n :
  fair o → fixUps b = {["L" := [mkFixUp i]]} → deferredErr b = None →
  labelToInsnIdx b !! "L" = Some t → insns b !! i = Some n →
  (jump_offset t i = -1 →
   Assemble o b = Some (None, Some (ErrSameInsn (-1) "L")))
  ∧ (jump_offset t i < MinInt16 ∨ MaxInt16 < jump_offset t i →
     Assemble o b
     = Some (None, Some (ErrExceedRange (jump_offset t i) "L")))
  ∧ (offset_ok (jump_offset t i) →
     ∃ ns, Assemble o b = Some (Some ns, None)
           ∧ Instruction <$> ns
             = Instruction
                 <$> alter (patch_offset (jump_offset t i)) i (insns b)).
Proof.
  intros Ho Hfix Hd Hlab Hn.
  assert (Hrun : Assemble o b
                 = '(b, err) ← applyFixUps_loop "L" [mkFixUp i] b;
                   match err with
                   | Some e => Some (None, Some e)
                   | None =>
                       let b := with_fixUps (delete "L" (fixUps b)) b in
                       let b := if policyDebugEnabled b
                                then with_insns (Assemble_debug b) b else b in
                       Some (Some (insns b), None)
                   end).
  { unfold Assemble.
    rewrite Hd, Hfix, (range_keys_singleton o _ Ho).
    cbn [Assemble_fixUps]. unfold applyFixUps, slice_at.
    rewrite Hfix, lookup_singleton_eq. cbn [default from_option id].
    destruct (applyFixUps_loop "L" [mkFixUp i] b) as [[b1 [e|]]|];
      reflexivity. }
  rewrite Hrun. cbn [applyFixUps_loop origInsnIdx]. rewrite Hlab, Hn.
  change (Z.of_nat t - Z.of_nat i - 1) with (jump_offset t i).
  split; [|split].
  - intros ->. reflexivity.
  - intros Hout.
    destruct (Z.eqb_spec (jump_offset t i) (-1)) as [H1|_];
      [unfold MinInt16, MaxInt16 in Hout; lia|].
    destruct (Z.gtb_spec (jump_offset t i) MaxInt16),
      (Z.ltb_spec (jump_offset t i) MinInt16); try reflexivity; lia.
  - intros Hok. apply offset_ok_tests in Hok as [-> ->].
    cbn [mbind option_bind]. blk.
    eexists. split; [reflexivity|].
    destruct (policyDebugEnabled b); blk; [|reflexivity].
    now rewrite Instruction_Assemble_debug.
Qed.

(** X18. A jump back to a label bound [n] plain instructions earlier,
    closing the block.  With [n] = 0 the jump would land on itself and
    [Assemble] fails; with [n] up to 32767 the block is assembled to the
    instructions as given and the jump with offset [-(n+1)], which lands
    on the first instruction; beyond that the jump is out of range.
    Trampolines play no part. *)
Theorem backward_jump_assembled (os : nat → MapOrder) (o : MapOrder)
    (debug en : bool) (s jump ra rb : Z) (fill : list BuilderCall) :
  fair o → Forall filler fill →
  let n := Z.of_nat (length fill) in
  (n = 0 →
   assemble os o debug (loop_back en s jump ra rb fill)
   = Some (None, Some (ErrSameInsn (-1) "L")))
  ∧ (0 < n ≤ 32767 →
     ∃ ns,
       assemble os o debug (loop_back en s jump ra rb fill)
       = Some (Some ns, None)
       ∧ Instruction <$> ns
         = (Instruction <$> mjoin (insns_of <$> fill))
           ++ [Instruction (patch_offset (- (n + 1))
                              (MakeInsn jump ra rb 0 0))]
       ∧ Insn.Off <$> ns !! length fill = Some (- (n + 1))
       ∧ lands ns (length fill) = Some 0%nat)
  ∧ (32767 < n →
     assemble os o debug (loop_back en s jump ra rb fill)
     = Some (None, Some (ErrExceedRange (- (n + 1)) "L"))).
Proof.
  intros Ho Hfill n.
  destruct (loop_back_start s en debug) as (b0 & Hrun0 & Hinv0).
  destruct (bound_run (fun k => os (S (S (S k)))) fill b0 [] Hfill Hinv0)
    as (b1 & Hrun1 & Hinv1).
  cbn [app] in Hinv1.
  destruct (bound_jump (os (S (S (S (length fill + 0))))) jump ra rb b1 _
              Hinv1)
    as (b2 & J & Hrun2 & HJ & Hins2 & Hfix2 & Hd2 & Hlab2).
  set (F := mjoin (insns_of <$> fill)) in *.
  assert (HlenF : length F = length fill)
    by exact (length_fillers fill Hfill).
  assert (Hstart : assemble os o debug (loop_back en s jump ra rb fill)
                   = Assemble o b2).
  { unfold assemble, loop_back. cbn [run exec mbind option_bind].
    rewrite Hrun0. cbn [mbind option_bind]. rewrite run_app, Hrun1.
    cbn [mbind option_bind run]. rewrite Hrun2. reflexivity. }
  rewrite Hstart.
  assert (Hn : insns b2 !! length F = Some J)
    by (rewrite Hins2; now apply list_lookup_middle).
  destruct (Assemble_one_fixup o b2 (length F) 0 J Ho Hfix2 Hd2 Hlab2 Hn)
    as (Hsame & Hfar & Hok).
  assert (Hoff : jump_offset 0 (length F) = - (n + 1))
    by (unfold jump_offset, n; lia).
  rewrite Hoff in *. split; [|split].
  - intros H0. replace (- (n + 1)) with (-1) in Hsame by lia.
    now apply Hsame.
  - intros Hrange. destruct Hok as (ns & -> & Hns).
    { unfold offset_ok, MinInt16, MaxInt16. lia. }
    exists ns. split; [reflexivity|].
    assert (Hns' : Instruction <$> ns
                   = (Instruction <$> F)
                     ++ [Instruction (patch_offset (- (n + 1))
                                        (MakeInsn jump ra rb 0 0))]).
    { rewrite Hns, Hins2. rewrite alter_app_r_alt by lia.
      rewrite Nat.sub_diag, fmap_app. cbn. do 2 f_equal.
      unfold patch_offset, with_Instruction. cbn [Instruction].
      now rewrite HJ. }
    split; [exact Hns'|].
    assert (Hlast : ∃ nl, ns !! length fill = Some nl
                          ∧ Instruction nl
                            = Instruction (patch_offset (- (n + 1))
                                             (MakeInsn jump ra rb 0 0))).
    { assert (H : (Instruction <$> ns) !! length fill
                  = Some (Instruction (patch_offset (- (n + 1))
                                         (MakeInsn jump ra rb 0 0)))).
      { rewrite Hns'. apply list_lookup_middle.
        now rewrite length_fmap, HlenF. }
      rewrite list_lookup_fmap in H.
      destruct (ns !! length fill) as [nl|]; [|discriminate].
      injection H as H. eauto. }
    destruct Hlast as (nl & Hnl & Hbl).
    assert (Hoffl : Insn.Off nl = - (n + 1)).
    { unfold Insn.Off. rewrite Hbl.
      apply (Off_patch_offset _ (MakeInsn jump ra rb 0 0)).
      unfold MinInt16, MaxInt16. lia. }
    split; [now rewrite Hnl; cbn; rewrite Hoffl|].
    unfold lands. rewrite Hnl. cbn [mbind option_bind]. rewrite Hoffl.
    destruct (Z.ltb_spec (Z.of_nat (length fill) + 1 + - (n + 1)) 0);
      [unfold n in *; lia|].
    f_equal. unfold n. lia.
  - intros Hlong. apply Hfar. unfold MinInt16. left. lia.
Qed.

Lemma backward_jump_assembled_witness :
  (∃ ns,
     assemble (fun _ => in_order) in_order false
       (loop_back true 2 JumpA 0 0
          [CInstr AddImm64 R1 0 0 1 ""; CInstr Mov64 R2 R1 0 0 "";
           CInstr Mov64 R3 R1 0 0 ""])
     = Some (Some ns, None)
     ∧ Insn.Off <$> ns !! 3%nat = Some (-4)
     ∧ lands ns 3 = Some 0%nat)
  ∧ assemble (fun _ => in_order) in_order false (loop_back true 2 JumpA 0 0 [])
    = Some (None, Some (ErrSameInsn (-1) "L")).
Proof.
  split.
  - destruct (backward_jump_assembled (fun _ => in_order) in_order false true
                2 JumpA 0 0
                [CInstr AddImm64 R1 0 0 1 ""; CInstr Mov64 R2 R1 0 0 "";
                 CInstr Mov64 R3 R1 0 0 ""] fair_in_order)
      as (_ & Hok & _).
    + repeat constructor; vm_compute; discriminate.
    + destruct Hok as (ns & H & _ & Hoff & Hl); [cbn; lia|].
      exists ns. auto.
  - apply (backward_jump_assembled (fun _ => in_order) in_order false true
             2 JumpA 0 0 [] fair_in_order); [constructor|reflexivity].
Defined.

(** *** The size of a trampoline *)



Lemma size_sorted_keys o (m : gmap string (list fixUp)) :
  fair o → length (sort_Strings (range_keys o m)) = size m.
Proof.
  intros Ho. unfold sort_Strings, range_keys.
  rewrite merge_sort_Permutation, (Ho _), length_fmap.
  apply length_map_to_list.
Qed.




(** *** Dead code between an exit and a label *)

Lemma exec_dead o c b :
  is_Instr c → trampolinesEnabled b = false →
  nextInsnReachable b = false →
  insnIdxToLabels b !! length (insns b) = None →
  exec o c b = Some b.
Proof.
  intros Hc Hen Hr Hnone. destruct c; try contradiction.
  rewrite exec_CInstr. unfold maybeWriteTrampoline. rewrite Hen.
  cbn [negb mbind option_bind]. rewrite NoTrampoline_unreachable by done.
  unfold slice_at. rewrite Hnone. cbn [default foldl].
  rewrite delete_id by done. now destruct b.
Qed.

Lemma run_dead os dead b :
  Forall is_Instr dead → trampolinesEnabled b = false →
  nextInsnReachable b = false →
  insnIdxToLabels b !! length (insns b) = None →
  run os dead b = Some b.
Proof.
  intros Hdead Hen Hr Hnone. revert os.
  induction Hdead as [|c dead Hc _ IH]; intros os; cbn [run]; [reflexivity|].
  rewrite (exec_dead _ c b Hc Hen Hr Hnone). cbn [mbind option_bind].
  apply IH.
Qed.

Lemma run_label_exit os b :
  run os [CLabelNextInsn "L"; CInstr Exit 0 0 0 0 ""] b
  = b ← LabelNextInsn "L" b; exec (os 1%nat) (CInstr Exit 0 0 0 0 "") b.
Proof.
  cbn [run mbind option_bind].
  change (exec (os 0%nat) (CLabelNextInsn "L") b) with (LabelNextInsn "L" b).
  destruct (LabelNextInsn "L" b) as [b1|]; [|reflexivity].
  cbn [mbind option_bind].
  now destruct (exec (os 1%nat) (CInstr Exit 0 0 0 0 "") b1).
Qed.

Lemma exec_Exit_plain o b k :
  plain_inv b k →
  ∃ b',
    exec o (CInstr Exit 0 0 0 0 "") b = Some b'
    ∧ insns b' = insns b ++ [with_Annotation "" (MakeInsn Exit 0 0 0 0)]
    ∧ fixUps b' = fixUps b ∧ deferredErr b' = deferredErr b
    ∧ inUseJumpTargets b' = inUseJumpTargets b
    ∧ insnIdxToLabels b' = insnIdxToLabels b
    ∧ trampolinesEnabled b' = false.
Proof.
  intros (Hen & Hd & Hfix & Hlen & prev & Hlast & HJ & HE).
  rewrite exec_CInstr. unfold maybeWriteTrampoline. rewrite Hen.
  cbn [negb mbind option_bind].
  destruct (NoTrampoline_plain_form
              (with_Annotation "" (MakeInsn Exit 0 0 0 0)) b) as [nj ->];
    [now apply (reachable_after prev)|].
  eexists. split; [reflexivity|]. blk. now repeat split.
Qed.

(** X20. Dropped instructions do not count in jump offsets.  With
    trampolines off, let a conditional jump to "L" be followed by [n]
    plain instructions and an [Exit], then by any instructions before
    "L" is bound in front of a final [Exit].  The instructions between
    the first [Exit] and the label are dropped, the jump gets the offset
    [n + 1], and taking it lands on the final [Exit]. *)
Theorem dead_code_not_counted (os : nat → MapOrder) (o : MapOrder)
    (debug : bool) (s jump ra rb : Z) (fill dead : list BuilderCall) :
  fair o → uint8 jump ≠ JumpA → uint8 jump ≠ Exit →
  Forall filler fill → Forall is_Instr dead →
  Z.of_nat (length fill) < 32767 →
  ∃ ns,
    assemble os o debug (skip_dead s jump ra rb fill dead)
    = Some (Some ns, None)
    ∧ Instruction <$> ns
      = Instruction (patch_offset (Z.of_nat (length fill) + 1)
                       (MakeInsn jump ra rb 0 0))
        :: (Instruction <$> mjoin (insns_of <$> fill))
        ++ [Instruction (MakeInsn Exit 0 0 0 0);
            Instruction (MakeInsn Exit 0 0 0 0)]
    ∧ taken 1 ns 0 = Some (S (S (length fill))).
Proof.
  intros Ho HJ HE Hfill Hdead Hshort.
  destruct (jump_emitted (os 2%nat) s false debug jump ra rb HJ HE)
    as (b1 & Hrun1 & Hen & Hstride & Hd & Hfix & Huse & Hlt & Hlen & Hprev).
  destruct (jump_emitted_insn _ _ _ _ _ _ _ _ Hrun1) as (J & HJ1 & HJb).
  destruct (jump_emitted_labels _ _ _ _ _ _ _ _ Hrun1) as [_ Hidx1].
  assert (Hinv : plain_inv b1 0).
  { unfold plain_inv. repeat (split; [assumption|]). exact Hprev. }
  destruct (run_fillers_disabled_insns (fun k => os (S (S (S k)))) fill b1 0
              Hfill Hinv) as (b2 & Hrun2 & Hinv2 & Hins2 & Huse2 & _ & Hidx2).
  destruct (exec_Exit_plain (os (S (S (S (length fill + 0))))) b2 _ Hinv2)
    as (b3 & Hrun3 & Hins3 & Hfix3 & Hd3 & Huse3 & Hidx3 & Hen3).
  destruct Hinv2 as (_ & Hd2 & Hfix2 & Hlen2 & _).
  assert (Hr3 : nextInsnReachable b3 = false).
  { unfold nextInsnReachable. rewrite Hins3, last_snoc.
    change (Insn.OpCode (with_Annotation "" (MakeInsn Exit 0 0 0 0)))
      with Exit.
    cbn [Z.eqb orb]. unfold slice_at.
    now rewrite Hidx3, Hidx2, Hidx1, lookup_empty. }
  assert (Hnone : insnIdxToLabels b3 !! length (insns b3) = None)
    by now rewrite Hidx3, Hidx2, Hidx1, lookup_empty.
  pose proof (run_dead (fun k => os (S (S (S (length fill + S k))))) dead b3
                Hdead Hen3 Hr3 Hnone) as Hrun4.
  destruct (finish_long_jump o
              (os (S (S (S (length fill + S (length dead + 1)))))) b3 0 Ho)
    as (ns & Hfin & Hns).
  { now rewrite Hfix3. }
  { rewrite Hins3, length_app. cbn. lia. }
  { rewrite Hins3, length_app, Hlen2. cbn [length].
    unfold offset_ok, jump_offset, MinInt16, MaxInt16. lia. }
  { now rewrite Hd3. }
  { now rewrite Huse3, Huse2. }
  exists ns. split.
  { unfold assemble, skip_dead. cbn [run mbind option_bind].
    change (exec (os 0%nat) (CSetTrampolinesEnabled false) (NewBlock debug))
      with (Some (SetTrampolinesEnabled false (NewBlock debug))).
    cbn [mbind option_bind].
    change (exec (os 1%nat) (CSetTrampolineStride s) ?b)
      with (Some (SetTrampolineStride s b)).
    cbn [mbind option_bind]. rewrite Hrun1. cbn [mbind option_bind].
    rewrite run_app, Hrun2. cbn [mbind option_bind run].
    rewrite Hrun3. cbn [mbind option_bind].
    rewrite run_app, Hrun4. cbn [mbind option_bind].
    rewrite run_label_exit.
    destruct (LabelNextInsn "L" b3) as [b4|]; [|discriminate].
    cbn [mbind option_bind] in *.
    now destruct (exec _ (CInstr Exit 0 0 0 0 "") b4). }
  assert (Hoff : jump_offset (length (insns b3)) 0
                 = Z.of_nat (length fill) + 1).
  { rewrite Hins3, length_app, Hlen2. unfold jump_offset. cbn [length]. lia. }
  rewrite Hoff, Hins3, Hins2, HJ1 in Hns.
  cbn [app alter list_alter fmap list_fmap] in Hns.
  assert (HI0 : Instruction (patch_offset (Z.of_nat (length fill) + 1) J)
                = Instruction (patch_offset (Z.of_nat (length fill) + 1)
                                 (MakeInsn jump ra rb 0 0))).
  { unfold patch_offset, with_Instruction. cbn [Instruction]. now rewrite HJb. }
  rewrite HI0, fmap_app, <- app_assoc in Hns. cbn [fmap list_fmap app] in Hns.
  change (Instruction (with_Annotation "" (MakeInsn Exit 0 0 0 0)))
    with (Instruction (MakeInsn Exit 0 0 0 0)) in Hns.
  split; [exact Hns|].
  assert (Hlook : ∀ k bs, (Instruction <$> ns) !! k = Some bs →
                          ∃ n, ns !! k = Some n ∧ Instruction n = bs).
  { intros k bs Hk. rewrite list_lookup_fmap in Hk.
    destruct (ns !! k) as [n|]; [|discriminate]. injection Hk as <-. eauto. }
  destruct (Hlook 0%nat _ ltac:(rewrite Hns; reflexivity)) as (n0 & Hn0 & Hb0).
  assert (Hoff0 : Insn.Off n0 = Z.of_nat (length fill) + 1).
  { unfold Insn.Off. rewrite Hb0.
    apply (Off_patch_offset _ (MakeInsn jump ra rb 0 0)).
    unfold MinInt16, MaxInt16. lia. }
  pose proof (length_fillers fill Hfill) as HlenF.
  destruct (Hlook (S (S (length fill))) (Instruction (MakeInsn Exit 0 0 0 0)))
    as (nx & Hnx & Hbx).
  { rewrite Hns. change ((?x :: ?l) !! S ?i) with (l !! i).
    rewrite lookup_app_r by (rewrite length_fmap; lia).
    rewrite length_fmap, HlenF.
    now replace (S (length fill) - length fill)%nat with 1%nat by lia. }
  assert (Hopx : Insn.OpCode nx = Exit)
    by (unfold Insn.OpCode; rewrite Hbx; reflexivity).
  unfold taken, lands. rewrite Hn0. cbn [mbind option_bind]. rewrite Hoff0.
  destruct (Z.ltb_spec (Z.of_nat 0 + 1 + (Z.of_nat (length fill) + 1)) 0);
    [lia|].
  replace (Z.to_nat (Z.of_nat 0 + 1 + (Z.of_nat (length fill) + 1)))
    with (S (S (length fill))) by lia.
  cbn [mbind option_bind follow]. rewrite Hnx. cbn [mbind option_bind].
  rewrite Hopx. reflexivity.
Qed.

Lemma dead_code_not_counted_witness :
  ∃ ns,
    assemble (fun _ => in_order) in_order false
      (skip_dead 2 JumpEq64 R1 R2
         [CInstr Mov64 R1 R2 0 0 ""]
         [CInstr Mov64 R3 R4 0 0 ""; CInstr Exit 0 0 0 0 "";
          CInstr Mov64 R5 R6 0 0 ""])
    = Some (Some ns, None)
    ∧ length (Instruction <$> ns) = 4%nat
    ∧ taken 1 ns 0 = Some 3%nat.
Proof.
  destruct (dead_code_not_counted (fun _ => in_order) in_order false 2
              JumpEq64 R1 R2 [CInstr Mov64 R1 R2 0 0 ""]
              [CInstr Mov64 R3 R4 0 0 ""; CInstr Exit 0 0 0 0 "";
               CInstr Mov64 R5 R6 0 0 ""] fair_in_order)
    as (ns & H & Hns & Htaken).
  - vm_compute. discriminate.
  - vm_compute. discriminate.
  - repeat constructor; vm_compute; discriminate.
  - repeat constructor.
  - cbn. lia.
  - exists ns. split; [exact H|]. split; [now rewrite Hns|exact Htaken].
Defined.

(** *** A trampoline for several labels *)

Lemma LabelNextInsn_resolves label b fs :
  wf b → fixUps b !! label = Some fs →
  Forall (fun f => offset_ok (jump_offset (length (insns b)) (origInsnIdx f)))
    fs →
  LabelNextInsn label b
  = Some (with_fixUps (delete label (fixUps b))
            (with_insns (patch_all (length (insns b)) fs (insns b))
               (bind_label label b))).
Proof.
  intros Hwf Hfs Hok. rewrite LabelNextInsn_bind_label.
  pose proof (wf_bind_label label b Hwf) as Hwf'.
  destruct (applyFixUps_spec label (bind_label label b)
              (wf_slice _ label Hwf'))
    as (ns & err & Hrun & _ & _ & Hcase).
  assert (Hslice : slice_at (fixUps (bind_label label b)) label = fs).
  { unfold bind_label, slice_at. blk. now rewrite Hfs. }
  assert (Hlab : labelToInsnIdx (bind_label label b) !! label
                 = Some (length (insns b))).
  { unfold bind_label. blk. apply lookup_insert_eq. }
  rewrite Hlab, Hslice in Hcase.
  destruct Hcase as [(_ & -> & ->)|(Hbad & _)]; [|contradiction].
  rewrite Hrun. reflexivity.
Qed.

Lemma lands_ext (ns ns' : list Insn) i :
  ns' !! i = ns !! i → lands ns' i = lands ns i.
Proof. unfold lands. now intros ->. Qed.

Lemma fixup_index_lt b L fs k :
  wf b → fixUps b !! L = Some fs → k ∈ origInsnIdx <$> fs →
  (k < length (insns b))%nat.
Proof.
  intros Hwf Hfs Hk. apply list_elem_of_fmap in Hk as (f & -> & Hf).
  exact (proj1 Hwf L fs f Hfs Hf).
Qed.

Lemma fixup_index_disjoint b L L' fs fs' f :
  wf b → fixUps b !! L = Some fs → fixUps b !! L' = Some fs' →
  f ∈ fs' → origInsnIdx f ∈ origInsnIdx <$> fs → L = L'.
Proof.
  intros Hwf Hfs Hfs' Hf Hk.
  apply list_elem_of_fmap in Hk as (g & Heq & Hg).
  assert (f = g) by (destruct f, g; cbn in Heq; now subst).
  subst g. exact (proj2 Hwf L L' fs fs' f Hfs Hfs' Hg Hf).
Qed.

Lemma relay_step b sk (K : nat) done l fs bj :
  wf b → pending_used b →
  (∀ L fs f, fixUps b !! L = Some fs → f ∈ fs →
     Z.of_nat (length (insns b)) + Z.of_nat K - Z.of_nat (origInsnIdx f)
     ≤ MaxInt16) →
  (length done < K)%nat → l ∉ done → l ≠ sk →
  fixUps b !! l = Some fs →
  relay_inv b sk done bj →
  ∃ b1, LabelNextInsn l bj = Some b1
        ∧ relay_inv b sk (done ++ [l]) (JumpNoTrampoline l b1).
Proof.
  intros Hwf HP Hreach HK Hnotin Hne Hfs
    (Hwfj & Hlenj & Hdj & Husej & Hskj & Hdonej & Hrestj & Hlandj & Hrelj & Hskipj).
  unfold relay_inv. cbv zeta.
  set (t := length (insns b)) in *.
  set (j := length done) in *.
  assert (Hfsj : fixUps bj !! l = Some fs) by (rewrite Hrestj; done).
  destruct (HP l fs Hfs) as (_ & Hl0 & Hluse).
  assert (Hidx : ∀ f, f ∈ fs → (origInsnIdx f < t)%nat)
    by (intros f Hf; exact (proj1 Hwf l fs f Hfs Hf)).
  assert (Hok : Forall (fun f => offset_ok (jump_offset (length (insns bj))
                                              (origInsnIdx f))) fs).
  { apply Forall_forall. intros f Hf. pose proof (Hidx f Hf).
    pose proof (Hreach l fs f Hfs Hf). rewrite Hlenj.
    unfold offset_ok, jump_offset, MinInt16, MaxInt16 in *. fold t in H0. lia. }
  pose proof (LabelNextInsn_resolves l bj fs Hwfj Hfsj Hok) as Hrun1.
  destruct (safe_LabelNextInsn l bj Hwfj) as (b1 & Hrun1' & Hwf1 & _).
  rewrite Hrun1 in Hrun1'. injection Hrun1' as Hb1.
  exists b1. split; [now rewrite Hrun1, Hb1|].
  assert (Hins1 : insns b1 = patch_all (t + 1 + j) fs (insns bj))
    by (rewrite <- Hb1, Hlenj; reflexivity).
  assert (Hlen1 : length (insns b1) = (t + 1 + j)%nat)
    by (rewrite Hins1, length_patch_all; exact Hlenj).
  assert (Hfix1 : fixUps b1 = delete l (fixUps bj)) by now rewrite <- Hb1.
  assert (Hd1 : deferredErr b1 = deferredErr bj) by now rewrite <- Hb1.
  assert (Huse1 : inUseJumpTargets b1 = inUseJumpTargets bj)
    by now rewrite <- Hb1.
  assert (Hr1 : nextInsnReachable b1 = true).
  { apply (reachable_labelled l).
    - rewrite <- Hb1 at 1. rewrite Hlen1, <- Hlenj. unfold bind_label. blk.
      unfold slice_at at 1. rewrite lookup_insert_eq.
      cbn [default from_option id]. apply elem_of_app. right.
      apply list_elem_of_here.
    - rewrite Huse1. now apply Husej. }
  destruct (JumpNoTrampoline_form l b1 Hr1 Hl0) as (jr & Hjr & Hb2).
  destruct (NoTrampoline_wf (MakeInsn JumpA 0 0 0 0) l b1 Hwf1) as [Hwf2 _].
  change (addInsnWithOffsetFixupNoTrampoline (MakeInsn JumpA 0 0 0 0) l b1)
    with (JumpNoTrampoline l b1) in Hwf2.
  assert (Hlook : ∀ i, (i < t + 1 + j)%nat →
            insns (JumpNoTrampoline l b1) !! i
            = if bool_decide (i ∈ origInsnIdx <$> fs)
              then patch_offset (jump_offset (t + 1 + j) i) <$> insns bj !! i
              else insns bj !! i).
  { intros i Hi. rewrite Hb2. blk.
    rewrite lookup_app_l by (rewrite Hlen1; exact Hi).
    rewrite Hins1. apply patch_all_lookup. }
  assert (Hsame : ∀ i, (i < t + 1 + j)%nat → i ∉ origInsnIdx <$> fs →
            insns (JumpNoTrampoline l b1) !! i = insns bj !! i).
  { intros i Hi Hno. rewrite (Hlook i Hi).
    now rewrite bool_decide_eq_false_2. }
  assert (Hnew : insns (JumpNoTrampoline l b1) !! (t + 1 + j)%nat = Some jr).
  { rewrite Hb2. blk. now apply list_lookup_middle. }
  assert (Hfix2 : fixUps (JumpNoTrampoline l b1)
                  = <[l := [mkFixUp (t + 1 + j)]]> (delete l (fixUps bj))).
  { rewrite Hb2. blk. rewrite Hfix1, Hlen1. unfold slice_at.
    now rewrite lookup_delete_eq. }
  split; [exact Hwf2|]. split.
  { rewrite Hb2. blk. rewrite !length_app, Hlen1. cbn [length]. lia. }
  split; [rewrite Hb2; blk; now rewrite Hd1|].
  split.
  { rewrite Hb2. blk. rewrite Huse1. intros x Hx.
    apply elem_of_union_r. now apply Husej. }
  split.
  { rewrite Hfix2, lookup_insert_ne by done.
    now rewrite lookup_delete_ne. }
  split.
  { intros p L Hp. rewrite Hfix2.
    apply lookup_app_Some in Hp as [Hp|[Hge Hp]].
    - assert (L ≠ l) by (intros ->; apply Hnotin; eapply list_elem_of_lookup_2; eauto).
      rewrite lookup_insert_ne, lookup_delete_ne by done. now apply Hdonej.
    - fold j in Hge, Hp. apply list_lookup_singleton_Some in Hp as [Hp <-].
      rewrite lookup_insert_eq. do 3 f_equal. lia. }
  split.
  { intros L HL HLsk. rewrite Hfix2.
    assert (L ≠ l)
      by (intros ->; apply HL, elem_of_app; right; apply list_elem_of_here).
    rewrite lookup_insert_ne, lookup_delete_ne by done.
    apply Hrestj; [|done]. intros Hin. apply HL, elem_of_app. now left. }
  split.
  { intros p L fs' f Hp Hfs' Hf.
    pose proof (proj1 Hwf L fs' f Hfs' Hf) as Hft. fold t in Hft.
    apply lookup_app_Some in Hp as [Hp|[Hge Hp]].
    - rewrite (lands_ext (insns bj)); [now apply (Hlandj p L fs')|].
      apply Hsame; [lia|]. intros Hin.
      pose proof (fixup_index_disjoint b l L fs fs' f Hwf Hfs Hfs' Hf Hin)
        as <-.
      apply Hnotin. eapply list_elem_of_lookup_2; eauto.
    - fold j in Hge, Hp. apply list_lookup_singleton_Some in Hp as [Hp <-].
      rewrite Hfs in Hfs'. injection Hfs' as <-.
      assert (Hin : origInsnIdx f ∈ origInsnIdx <$> fs)
        by (apply list_elem_of_fmap; eauto).
      pose proof (Hlook (origInsnIdx f) ltac:(lia)) as Hl.
      rewrite bool_decide_eq_true_2 in Hl by exact Hin.
      destruct (lookup_lt_is_Some_2 (insns bj) (origInsnIdx f) ltac:(lia))
        as [n Hn].
      rewrite Hn in Hl. cbn in Hl.
      pose proof (Hreach l fs f Hfs Hf) as Hrf. fold t in Hrf.
      rewrite (lands_patch_offset _ _ _ _ Hl);
        [|unfold jump_offset, MinInt16, MaxInt16 in *; lia
         |unfold jump_offset; lia].
      f_equal. unfold jump_offset. lia. }
  split.
  { intros p L Hp.
    apply lookup_app_Some in Hp as [Hp|[Hge Hp]].
    - pose proof (lookup_lt_Some _ _ _ Hp) as Hpj. fold j in Hpj.
      rewrite Hsame; [now apply (Hrelj p L)|lia|].
      intros Hin. pose proof (fixup_index_lt b l fs _ Hwf Hfs Hin). fold t in H.
      lia.
    - fold j in Hge, Hp. apply list_lookup_singleton_Some in Hp as [Hp <-].
      replace p with j by lia. rewrite Hnew. cbn. now rewrite Hjr. }
  rewrite Hsame; [exact Hskipj|lia|].
  intros Hin. pose proof (fixup_index_lt b l fs _ Hwf Hfs Hin). fold t in H.
  lia.
Qed.

Lemma relays_loop b sk (K : nat) rest done bj :
  wf b → pending_used b →
  (∀ L fs f, fixUps b !! L = Some fs → f ∈ fs →
     Z.of_nat (length (insns b)) + Z.of_nat K - Z.of_nat (origInsnIdx f)
     ≤ MaxInt16) →
  (length (done ++ rest) ≤ K)%nat → NoDup (done ++ rest) →
  (∀ L, L ∈ rest → is_Some (fixUps b !! L) ∧ L ≠ sk) →
  relay_inv b sk done bj →
  ∃ b', writeTrampoline_loop rest bj = Some b'
        ∧ relay_inv b sk (done ++ rest) b'.
Proof.
  intros Hwf HP Hreach. revert done bj.
  induction rest as [|l rest IH]; intros done bj HK Hnd Hkeys Hinv;
    cbn [writeTrampoline_loop].
  - exists bj. now rewrite app_nil_r.
  - destruct (Hkeys l ltac:(apply list_elem_of_here)) as [[fs Hfs] Hne].
    assert (Hnotin : l ∉ done).
    { apply NoDup_app in Hnd as (_ & Hdis & _). intros Hin.
      apply (Hdis l Hin). apply list_elem_of_here. }
    rewrite length_app in HK. cbn [length] in HK.
    destruct (relay_step b sk K done l fs bj Hwf HP Hreach ltac:(lia)
                Hnotin Hne Hfs Hinv) as (b1 & -> & Hinv1).
    cbn [mbind option_bind].
    destruct (IH (done ++ [l]) (JumpNoTrampoline l b1)) as (b' & Hrun & Hinv').
    + rewrite <- app_assoc. cbn [app]. rewrite length_app. cbn [length]. lia.
    + now rewrite <- app_assoc.
    + intros L HL. apply Hkeys. now apply list_elem_of_further.
    + exact Hinv1.
    + exists b'. split; [exact Hrun|]. now rewrite <- app_assoc in Hinv'.
Qed.

(** X21. A trampoline for several labels.  When [writeTrampoline] runs
    after any sequence of calls, with the next instruction reachable,
    some fix-ups pending, all of them within reach, and no pending label
    named like the label of the jump over the relays, then no error is
    latched; a jump over the relays and one relay for each pending label,
    in ascending order of the labels, are emitted; the jump lands behind
    the relays; each pending label keeps one fix-up, its relay; and each
    jump that was pending now lands on the relay of its label. *)
Theorem trampoline_relays (os : nat → MapOrder) (o : MapOrder)
    (debug : bool) (cs : list BuilderCall) :
  fair o →
  ∃ b,
    run os cs (NewBlock debug) = Some b
    ∧ (nextInsnReachable b = true → fixUps b ≠ ∅ →
       fixUps b !! ("skip-trampoline-" +:+ pretty (trampolineIdx b)) = None →
       in_reach b →
       ∃ b',
         writeTrampoline o b = Some b'
         ∧ deferredErr b' = deferredErr b
         ∧ length (insns b')
           = (length (insns b) + 1 + size (fixUps b))%nat
         ∧ Insn.OpCode <$> insns b' !! length (insns b) = Some JumpA
         ∧ lands (insns b') (length (insns b))
           = Some (length (insns b) + 1 + size (fixUps b))%nat
         ∧ (∀ L, fixUps b !! L = None → fixUps b' !! L = None)
         ∧ ∀ p L,
             UnresolvedJumpTargets o b !! p = Some L →
             fixUps b' !! L = Some [mkFixUp (length (insns b) + 1 + p)]
             ∧ Insn.OpCode <$> insns b' !! (length (insns b) + 1 + p)%nat
               = Some JumpA
             ∧ ∀ fs f,
                 fixUps b !! L = Some fs → f ∈ fs →
                 lands (insns b') (origInsnIdx f)
                 = Some (length (insns b) + 1 + p)%nat).
Proof.
  intros Ho.
  destruct (safe_run os cs (NewBlock debug) (wf_NewBlock debug))
    as (b & Hrun & Hwf & _).
  assert (HP : pending_used b).
  { apply (pending_used_run os cs _ b (wf_NewBlock debug)); [|exact Hrun].
    intros L fs H. cbn in H. now rewrite lookup_empty in H. }
  exists b. split; [exact Hrun|]. intros Hr Hne Hsk Hreach.
  set (t := length (insns b)) in *.
  set (sk := "skip-trampoline-" +:+ pretty (trampolineIdx b)) in *.
  set (ls := sort_Strings (range_keys o (fixUps b))).
  assert (Hlen_ls : length ls = size (fixUps b))
    by exact (size_sorted_keys o _ Ho).
  assert (Hin_ls : ∀ L, L ∈ ls ↔ is_Some (fixUps b !! L)).
  { intros L. unfold ls, sort_Strings. rewrite merge_sort_Permutation.
    now apply elem_of_range_keys. }
  assert (Hnd : NoDup ls).
  { unfold ls, sort_Strings. rewrite merge_sort_Permutation.
    now apply range_keys_NoDup. }
  assert (Hsk0 : sk ≠ "") by apply skip_label_neq_empty.
  (* some fix-up is pending, so the relays are fewer than the reach *)
  assert (Hsize : Z.of_nat (size (fixUps b)) < MaxInt16).
  { apply map_size_non_empty_iff, map_size_ne_0_lookup in Hne
      as (L & [fs HL]).
    destruct (HP L fs HL) as (Hfs & _).
    destruct fs as [|f fs]; [done|].
    pose proof (Hreach L _ f HL ltac:(apply list_elem_of_here)) as H1.
    pose proof (proj1 Hwf L _ f HL ltac:(apply list_elem_of_here)) as H2.
    fold t in H1, H2. lia. }
  unfold writeTrampoline. blk.
  destruct (Nat.eqb_spec (size (fixUps b)) 0) as [H0|_].
  { apply map_size_empty_iff in H0. contradiction. }
  fold t sk ls.
  set (b0 := with_trampolineIdx _ (with_lastTrampolineAddr t b)).
  destruct (JumpNoTrampoline_form sk b0 Hr Hsk0) as (j1 & Hj1 & Hb1).
  destruct (NoTrampoline_wf (MakeInsn JumpA 0 0 0 0) sk b0 Hwf) as [Hwf1 _].
  change (addInsnWithOffsetFixupNoTrampoline (MakeInsn JumpA 0 0 0 0) sk b0)
    with (JumpNoTrampoline sk b0) in Hwf1.
  assert (Hinv0 : relay_inv b sk [] (JumpNoTrampoline sk b0)).
  { unfold relay_inv. cbv zeta. fold t. split; [exact Hwf1|].
    rewrite Hb1. unfold b0. blk. fold t.
    split; [rewrite length_app; cbn; lia|]. split; [reflexivity|].
    split; [intros x Hx; now apply elem_of_union_r|].
    split.
    { rewrite lookup_insert_eq. unfold slice_at. now rewrite Hsk. }
    split; [intros p L Hp; discriminate|].
    split; [intros L _ HL; now rewrite lookup_insert_ne|].
    split; [intros p L fs f Hp; discriminate|].
    split; [intros p L Hp; discriminate|].
    rewrite list_lookup_middle by reflexivity. cbn. now rewrite Hj1. }
  destruct (relays_loop b sk (size (fixUps b)) ls [] (JumpNoTrampoline sk b0)
              Hwf HP) as (b2 & Hrun2 & Hinv2).
  { intros L fs f HL Hf. exact (Hreach L fs f HL Hf). }
  { cbn [app]. lia. }
  { exact Hnd. }
  { intros L HL. apply Hin_ls in HL. split; [exact HL|].
    intros ->. rewrite Hsk in HL. now destruct HL. }
  { exact Hinv0. }
  rewrite Hrun2. cbn [mbind option_bind]. cbn [app] in Hinv2.
  destruct Hinv2
    as (Hwf2 & Hlen2 & Hd2 & Huse2 & Hsk2 & Hdone2 & Hrest2 & Hland2 & Hrel2
        & Hskip2).
  fold t in Hlen2, Hsk2, Hdone2, Hland2, Hrel2, Hskip2.
  rewrite Hlen_ls in Hlen2.
  rewrite (LabelNextInsn_single sk t b2 Hsk2);
    [|lia|unfold offset_ok, jump_offset, MinInt16, MaxInt16 in *; lia].
  eexists. split; [reflexivity|]. unfold bind_label. blk.
  assert (Hoff : jump_offset (length (insns b2)) t
                 = Z.of_nat (size (fixUps b)))
    by (unfold jump_offset; lia).
  rewrite Hoff.
  assert (Hsame : ∀ i, i ≠ t →
            alter (patch_offset (Z.of_nat (size (fixUps b)))) t (insns b2)
              !! i = insns b2 !! i)
    by (intros i Hi; now apply list_lookup_alter_ne).
  split; [exact Hd2|]. split; [now rewrite length_alter|].
  destruct (lookup_lt_is_Some_2 (insns b2) t ltac:(lia)) as [nt Hnt].
  assert (Hat : alter (patch_offset (Z.of_nat (size (fixUps b)))) t (insns b2)
                  !! t
                = Some (patch_offset (Z.of_nat (size (fixUps b))) nt)).
  { rewrite list_lookup_alter, decide_True, Hnt by done. reflexivity. }
  split.
  { rewrite Hat. rewrite Hnt in Hskip2.
    cbn [fmap option_fmap option_map] in *.
    now rewrite OpCode_patch_offset. }
  split.
  { rewrite (lands_patch_offset _ _ _ _ Hat);
      [|unfold MinInt16, MaxInt16 in *; lia|lia].
    f_equal. lia. }
  split.
  { intros L HL. destruct (decide (L = sk)) as [->|HLsk].
    - apply lookup_delete_eq.
    - rewrite lookup_delete_ne by done. rewrite Hrest2; [exact HL| |exact HLsk].
      intros Hin. apply Hin_ls in Hin. rewrite HL in Hin. now destruct Hin. }
  intros p L Hp. change (UnresolvedJumpTargets o b) with ls in Hp.
  assert (HLin : L ∈ ls) by (eapply list_elem_of_lookup_2; eauto).
  assert (HLsk : L ≠ sk).
  { intros ->. apply Hin_ls in HLin. rewrite Hsk in HLin. now destruct HLin. }
  split; [rewrite lookup_delete_ne by done; now apply Hdone2|].
  split.
  { rewrite Hsame by lia. now apply (Hrel2 p L). }
  intros fs f Hfs Hf.
  pose proof (proj1 Hwf L fs f Hfs Hf) as Hft. fold t in Hft.
  rewrite (lands_ext (insns b2)); [now apply (Hland2 p L fs)|].
  apply Hsame. lia.
Qed.

Lemma trampoline_relays_witness :
  ∃ b b',
    run (fun _ => in_order)
      [CInstrWithOffsetFixup JumpEq64 R1 R2 "b" 0;
       CInstrWithOffsetFixup JumpEq64 R1 R3 "a" 0;
       CInstr Mov64 R1 R2 0 0 ""] (NewBlock false) = Some b
    ∧ writeTrampoline backwards b = Some b'
    ∧ length (insns b') = 6%nat
    ∧ fixUps b' !! "a" = Some [mkFixUp 4]
    ∧ fixUps b' !! "b" = Some [mkFixUp 5]
    ∧ lands (insns b') 1 = Some 4%nat
    ∧ lands (insns b') 0 = Some 5%nat
    ∧ lands (insns b') 3 = Some 6%nat.
Proof.
  destruct (trampoline_relays (fun _ => in_order) backwards false
              [CInstrWithOffsetFixup JumpEq64 R1 R2 "b" 0;
               CInstrWithOffsetFixup JumpEq64 R1 R3 "a" 0;
               CInstr Mov64 R1 R2 0 0 ""] fair_backwards)
    as (b & Hrun & H).
  assert (Hfix : fixUps b
                 = <["a" := [mkFixUp 1]]> {["b" := [mkFixUp 0]]})
    by (clear -Hrun; vm_compute in Hrun; injection Hrun as <-;
        vm_compute; reflexivity).
  assert (Hlen : length (insns b) = 3%nat)
    by (clear -Hrun; vm_compute in Hrun; injection Hrun as <-;
        vm_compute; reflexivity).
  assert (Hidx : trampolineIdx b = 0%nat)
    by (clear -Hrun; vm_compute in Hrun; injection Hrun as <-;
        vm_compute; reflexivity).
  assert (Hr : nextInsnReachable b = true)
    by (clear -Hrun; vm_compute in Hrun; injection Hrun as <-;
        vm_compute; reflexivity).
  destruct H as (b' & Hw & _ & Hlen' & _ & Hskip & _ & Hrel).
  - exact Hr.
  - rewrite Hfix. intros H0.
    apply (f_equal (fun m : gmap string (list fixUp) => m !! "a")) in H0.
    rewrite lookup_insert_eq, lookup_empty in H0. discriminate.
  - rewrite Hfix, Hidx. clear. vm_compute. reflexivity.
  - intros L fs f HL Hf. rewrite Hlen, Hfix.
    rewrite Hfix in HL.
    apply lookup_insert_Some in HL as [[_ <-]|[_ HL]].
    + apply list_elem_of_singleton in Hf as ->. clear. vm_compute.
      intros H; discriminate H.
    + apply lookup_singleton_Some in HL as [_ <-].
      apply list_elem_of_singleton in Hf as ->. clear. vm_compute.
      intros H; discriminate H.
  - assert (Hls : UnresolvedJumpTargets backwards b = ["a"; "b"])
      by (unfold UnresolvedJumpTargets; rewrite Hfix; clear;
          vm_compute; reflexivity).
    destruct (Hrel 0%nat "a") as (Ha & _ & Hla);
      [now rewrite Hls|].
    destruct (Hrel 1%nat "b") as (Hb & _ & Hlb);
      [now rewrite Hls|].
    rewrite Hlen, Hfix in *.
    exists b, b'. split; [exact Hrun|]. split; [exact Hw|].
    split; [rewrite Hlen'; clear; vm_compute; reflexivity|].
    split; [exact Ha|]. split; [exact Hb|].
    split.
    { apply (Hla [mkFixUp 1] (mkFixUp 1));
        [apply lookup_insert_eq|apply list_elem_of_here]. }
    split.
    { apply (Hlb [mkFixUp 0] (mkFixUp 0));
        [rewrite lookup_insert_ne by discriminate; apply lookup_singleton_eq
        |apply list_elem_of_here]. }
    rewrite Hskip. clear. vm_compute. reflexivity.
Defined.

(** *** Reserving capacity *)


